(** * Ensemble resolution engine of hybrid_pdf_parser: a shallow embedding

    The development embeds the core of the package
    (core/segmentation.py, core/alignment.py, core/heuristics.py,
    core/adjudicator.py, core/provenance.py and the per-page body of
    core/pipeline.py) and states the properties of its specification
    against it.

    Modelling conventions.
    - A Python [str] is a [string]; a character is a code point below 256
      and the character classes ([isalnum], [isspace], [lower]) are
      Python's on that range.
    - A Python [float] is an exact rational ([Q]); rounding is not modelled.
      [int / int] is the exact quotient and raises [ZeroDivisionError] on a
      zero divisor.
    - Code that can raise returns a [result]; a [while] loop is run on fuel
      and [OutOfFuel] is its third outcome.
    - [fuzz.ratio] of the rapidfuzz package is modelled from its
      documentation (normalised Indel similarity, scaled to 0..100). *)

From Stdlib Require Import QArith Qabs Qminmax Lia Lqa ZArith String Ascii List.
From stdpp Require Import base numbers list strings pretty gmap.

Open Scope Q_scope.

(** ** Exceptions and results *)

(** The exceptions the embedded code can meet. [Exception msg] stands for
    any instance of a subclass of [Exception] raised by a backend; what
    lies outside [Exception] (KeyboardInterrupt, SystemExit) is not
    modelled. *)
Inductive exn : Type :=
  | IndexError
  | ZeroDivisionError
  | ValidationError
  | AttributeError
  | Exception (msg : string).

(** [str(e)]. *)
Definition exn_str (e : exn) : string :=
  match e with
  | IndexError => "list index out of range"
  | ZeroDivisionError => "division by zero"
  | ValidationError => "validation error"
  | AttributeError => "'NoneType' object has no attribute 'text'"
  | Exception msg => msg
  end.

Inductive result (A : Type) : Type :=
  | Ok (a : A)
  | Raise (e : exn)
  | OutOfFuel.

Arguments Ok {A} a.
Arguments Raise {A} e.
Arguments OutOfFuel {A}.

#[global] Instance result_ret : MRet result := fun _ a => Ok a.
#[global] Instance result_bind : MBind result := fun _ _ k r =>
  match r with
  | Ok a => k a
  | Raise e => Raise e
  | OutOfFuel => OutOfFuel
  end.

(** [try: body except Exception as e: handler(e)]. *)
Definition try_except {A : Type} (body : result A) (handler : exn -> result A)
  : result A :=
  match body with
  | Raise e => handler e
  | r => r
  end.

(** A call into a collaborator returns a value or raises. *)
Inductive outcome (A : Type) : Type :=
  | Returns (a : A)
  | Raises (e : exn).

Arguments Returns {A} a.
Arguments Raises {A} e.

Definition call {A : Type} (o : outcome A) : result A :=
  match o with
  | Returns a => Ok a
  | Raises e => Raise e
  end.

(** [l[i]] for a non-negative index. *)
Definition index {A : Type} (l : list A) (i : nat) : result A :=
  match l !! i with
  | Some x => Ok x
  | None => Raise IndexError
  end.

(** [for x in xs: acc = body(acc, x)], stopping at the first exception. *)
Fixpoint for_each {A S : Type} (xs : list A) (body : S -> A -> result S) (acc : S)
  : result S :=
  match xs with
  | [] => Ok acc
  | x :: xs' => acc' ← body acc x; for_each xs' body acc'
  end.

(** [range(a, b)] and [enumerate(l)]. *)
Definition range (a b : nat) : list nat := seq a (b - a).
Definition enumerate {A : Type} (l : list A) : list (nat * A) :=
  zip (seq 0 (length l)) l.

(** ** Floats as rationals *)

Definition Qltb (a b : Q) : bool := negb (Qle_bool b a).

(** Python's [min(a, b)] and [max(a, b)]: the first argument unless the
    second is strictly smaller (larger). *)
Definition py_min (a b : Q) : Q := if Qltb b a then b else a.
Definition py_max (a b : Q) : Q := if Qltb a b then b else a.

Definition Qnat (n : nat) : Q := inject_Z (Z.of_nat n).

(** ** Strings *)

Definition code (c : ascii) : nat := nat_of_ascii c.

Definition in_range (lo hi n : nat) : bool := (lo <=? n)%nat && (n <=? hi)%nat.

(** [str.isspace] on one character: TAB..CR, FS..US, space, NEL, NBSP. *)
Definition isspace (c : ascii) : bool :=
  let n := code c in
  in_range 9 13 n || in_range 28 32 n || (n =? 133)%nat || (n =? 160)%nat.

(** [str.isalnum] on one character: ASCII letters and digits, and the
    letters, superscript digits and fractions of Latin-1. *)
Definition isalnum (c : ascii) : bool :=
  let n := code c in
  in_range 48 57 n || in_range 65 90 n || in_range 97 122 n
  || (n =? 170)%nat || (n =? 178)%nat || (n =? 179)%nat || (n =? 181)%nat
  || (n =? 185)%nat || (n =? 186)%nat || in_range 188 190 n
  || in_range 192 214 n || in_range 216 246 n || in_range 248 255 n.

(** [str.lower] on one character. *)
Definition lower_char (c : ascii) : ascii :=
  let n := code c in
  if in_range 65 90 n || in_range 192 214 n || in_range 216 222 n
  then ascii_of_nat (n + 32) else c.

Fixpoint lower (s : string) : string :=
  match s with
  | EmptyString => EmptyString
  | String c s' => String (lower_char c) (lower s')
  end.

Definition len (s : string) : nat := String.length s.

Fixpoint lstrip (s : string) : string :=
  match s with
  | EmptyString => EmptyString
  | String c s' => if isspace c then lstrip s' else s
  end.

(** Drops trailing white space: the tail is stripped first, and a white
    space character in front of an empty rest goes too. *)
Fixpoint rstrip (s : string) : string :=
  match s with
  | EmptyString => EmptyString
  | String c s' =>
      match rstrip s' with
      | EmptyString => if isspace c then EmptyString else String c EmptyString
      | r => String c r
      end
  end.

Definition strip (s : string) : string := rstrip (lstrip s).

(** [s.split()]: the maximal runs of characters that are not white space.
    [cur] is the run being read, reversed. *)
Fixpoint split_ws_aux (s : string) (cur : list ascii) : list string :=
  let flush := match cur with
               | [] => []
               | _ => [string_of_list_ascii (rev cur)]
               end in
  match s with
  | EmptyString => flush
  | String c s' =>
      if isspace c then flush ++ split_ws_aux s' []
      else split_ws_aux s' (c :: cur)
  end.

Definition split_ws (s : string) : list string := split_ws_aux s [].

(** [s.split(sep)] for a separator of one character. *)
Fixpoint split_on_aux (sep : ascii) (s : string) (cur : list ascii) : list string :=
  match s with
  | EmptyString => [string_of_list_ascii (rev cur)]
  | String c s' =>
      if Ascii.eqb c sep then string_of_list_ascii (rev cur) :: split_on_aux sep s' []
      else split_on_aux sep s' (c :: cur)
  end.

Definition split_on (sep : ascii) (s : string) : list string := split_on_aux sep s [].

Definition newline : ascii := ascii_of_nat 10.

(** [sep.join(parts)]. *)
Fixpoint join (sep : string) (parts : list string) : string :=
  match parts with
  | [] => EmptyString
  | [p] => p
  | p :: rest => p +:+ sep +:+ join sep rest
  end.

Fixpoint drop_str (n : nat) (s : string) : string :=
  match n, s with
  | O, _ => s
  | S n', String _ s' => drop_str n' s'
  | S _, EmptyString => EmptyString
  end.

Fixpoint take_str (n : nat) (s : string) : string :=
  match n, s with
  | S n', String c s' => String c (take_str n' s')
  | _, _ => EmptyString
  end.

(** [s[:n]] and [s[-n:]] for [n >= 0]; [s[-0:]] is all of [s]. *)
Definition slice_to (n : nat) (s : string) : string := take_str n s.
Definition slice_last (n : nat) (s : string) : string :=
  match n with
  | O => s
  | _ => drop_str (len s - n) s
  end.

(** [text.count(sub)]: the number of non-overlapping occurrences, scanning
    from the left; for the empty [sub] Python counts the [len(text) + 1]
    positions between characters. *)
Fixpoint count_scan (fuel : nat) (sub s : string) : nat :=
  match fuel with
  | O => O
  | S fuel' =>
      if String.prefix sub s then S (count_scan fuel' sub (drop_str (len sub) s))
      else match s with
           | EmptyString => O
           | String _ s' => count_scan fuel' sub s'
           end
  end.

Definition count (text sub : string) : nat :=
  match sub with
  | EmptyString => S (len text)
  | _ => count_scan (len text) sub text
  end.

Fixpoint count_if (p : ascii -> bool) (s : string) : nat :=
  match s with
  | EmptyString => O
  | String c s' => (if p c then 1 else 0) + count_if p s'
  end.

(** ** core/segmentation.py *)

Inductive SegmentType : Type := SENTENCE | PARAGRAPH | TABLE | LIST_ITEM | HEADING.

Definition SegmentType_value (t : SegmentType) : string :=
  match t with
  | SENTENCE => "sentence"
  | PARAGRAPH => "paragraph"
  | TABLE => "table"
  | LIST_ITEM => "list_item"
  | HEADING => "heading"
  end.

Record Segment : Type := mkSegment {
  text : string;
  seg_start : nat;
  seg_end : nat;
  type : SegmentType
}.

(** [Segment.__len__]. *)
Definition Segment_len (seg : Segment) : nat := len (text seg).

(** Truth value of a [Segment | None]: [None] is false and, as the class
    defines [__len__], so is a segment whose text is empty. *)
Definition truthy (o : option Segment) : bool :=
  match o with
  | None => false
  | Some seg => negb (Segment_len seg =? 0)%nat
  end.

(** ** Formatting of floats in diagnostics *)

(** The integer nearest to [q >= 0], ties to even. *)
Definition round_half_even (q : Q) : Z :=
  let a := Qnum q in
  let b := Zpos (Qden q) in
  let fl := (a / b)%Z in
  let r := (a mod b)%Z in
  if (2 * r <? b)%Z then fl
  else if (b <? 2 * r)%Z then (fl + 1)%Z
  else if Z.even fl then fl else (fl + 1)%Z.

Fixpoint zeros (n : nat) : string :=
  match n with
  | O => EmptyString
  | S n' => String "0" (zeros n')
  end.

(** [f"{q:.{d}f}"]: [d] digits after the point, rounded half to even. *)
Definition format_fixed (d : nat) (q : Q) : string :=
  let n := round_half_even (Qabs q * inject_Z (10 ^ Z.of_nat d)) in
  let ip := pretty (n / 10 ^ Z.of_nat d)%Z in
  let fp := pretty (n mod 10 ^ Z.of_nat d)%Z in
  (if Qltb q 0 then "-" else "")
  +:+ ip
  +:+ (match d with
       | O => ""
       | _ => "." +:+ zeros (d - len fp) +:+ fp
       end).

(** ** config/schema.py *)

Record HeuristicsConfig : Type := mkHeuristicsConfig {
  score_margin : Q;
  ambiguity_band : Q
}.

(** [HeuristicsConfig()] with the defaults of its fields. *)
Definition default_heuristics : HeuristicsConfig :=
  {| score_margin := 0.15; ambiguity_band := 0.05 |}.

(** ** core/heuristics.py *)

(** The string literals used as [source] by [Choice] and by
    [ProvenanceRecord]. *)
Inductive Source : Type := T | V | AMBIGUOUS | LLM.

Record Choice : Type := mkChoice {
  source : Source;
  selected_text : string;
  reason : string
}.

Definition sum_nat (l : list nat) : nat := foldr Nat.add O l.

Definition score_segment (seg : Segment) : Q :=
  if negb (truthy (Some seg)) || (len (text seg) =? 0)%nat then 0.0
  else
    let text := text seg in
    if (len text =? 0)%nat then 0.0
    else
      let alnum_count := count_if isalnum text in
      let alnum_ratio :=
        if (0 <? len text)%nat then Qnat alnum_count / Qnat (len text) else 0.0 in
      let weird_count := count text "" in
      let weird_rate :=
        if (0 <? len text)%nat then Qnat weird_count / Qnat (len text) else 0.0 in
      let tokens := split_ws text in
      let avg_token_len :=
        match tokens with
        | [] => 0.0
        | _ => Qnat (sum_nat (map len tokens)) / Qnat (length tokens)
        end in
      let structural_bonus :=
        if String.eqb (SegmentType_value (type seg)) "table" then 0.2
        else if String.eqb (SegmentType_value (type seg)) "list_item" then 0.15
        else if String.eqb (SegmentType_value (type seg)) "heading" then 0.1
        else 0.0 in
      let score :=
        alnum_ratio * 0.6
        + (1 - weird_rate) * 0.3
        + py_min (avg_token_len / 10.0) 0.1
        + structural_bonus in
      py_min (py_max score 0.0) 1.0.

(** [a / b] on two lengths. *)
Definition int_div (a b : nat) : result Q :=
  if (b =? 0)%nat then Raise ZeroDivisionError else Ok (Qnat a / Qnat b).

(** The segment behind a [Segment | None] that passes Python's truth test. *)
Definition present (o : option Segment) : option Segment :=
  if truthy o then o else None.

Definition has_structure (seg : Segment) : bool :=
  existsb (String.eqb (SegmentType_value (type seg))) ["table"; "list_item"; "heading"].

Definition choose_segment (t_seg v_seg : option Segment) (t_score v_score : Q)
    (config : HeuristicsConfig) : result Choice :=
  match present t_seg, present v_seg with
  | None, None => Ok (mkChoice T "" "No segments available")
  | None, Some v => Ok (mkChoice V (text v) "T segment missing")
  | Some t, None => Ok (mkChoice T (text t) "V segment missing")
  | Some t, Some v =>
      let score_diff := Qabs (t_score - v_score) in
      ambiguous ←
        (if Qltb score_diff (ambiguity_band config) then
           len_ratio ← int_div (Nat.max (len (text t)) (len (text v)))
                               (Nat.min (len (text t)) (len (text v)));
           if Qltb 1.5 len_ratio then
             Ok (Some (mkChoice AMBIGUOUS ""
                   ("Ambiguous: scores too close (diff=" +:+ format_fixed 3 score_diff
                    +:+ ", len_ratio=" +:+ format_fixed 2 len_ratio +:+ ")")))
           else Ok None
         else Ok None);
      match ambiguous with
      | Some choice => Ok choice
      | None =>
          let v_has_structure := has_structure v in
          let t_has_structure := has_structure t in
          if v_has_structure && negb t_has_structure then
            Ok (mkChoice V (text v)
                  ("V has " +:+ SegmentType_value (type v) +:+ " structure, T does not"))
          else if Qltb (v_score + score_margin config) t_score then
            Ok (mkChoice T (text t)
                  ("T score higher by " +:+ format_fixed 3 (t_score - v_score)))
          else if Qltb (t_score + score_margin config) v_score then
            Ok (mkChoice V (text v)
                  ("V score higher by " +:+ format_fixed 3 (v_score - t_score)))
          else Ok (mkChoice T (text t) "Default: text-first preferred")
      end
  end.

(** ** rapidfuzz *)

(** Length of a longest common subsequence. *)
Fixpoint lcs_len (a : list ascii) : list ascii -> nat :=
  match a with
  | [] => fun _ => O
  | x :: a' =>
      fix inner (b : list ascii) : nat :=
        match b with
        | [] => O
        | y :: b' =>
            if Ascii.eqb x y then S (lcs_len a' b')
            else Nat.max (lcs_len a' b) (inner b')
        end
  end.

(** [fuzz.ratio(s1, s2)], after the documentation of rapidfuzz: the
    normalised Indel similarity times 100, where the Indel distance is
    [len(s1) + len(s2) - 2 * lcs] and the normalised distance of two empty
    strings is 0. *)
Definition fuzz_ratio (s1 s2 : string) : Q :=
  let maximum := (len s1 + len s2)%nat in
  let dist := (maximum - 2 * lcs_len (list_ascii_of_string s1) (list_ascii_of_string s2))%nat in
  let norm_dist := if (maximum =? 0)%nat then 0 else Qnat dist / Qnat maximum in
  (1 - norm_dist) * 100.

(** ** core/alignment.py *)

Record AlignedPair : Type := mkAlignedPair {
  t_seg : option Segment;
  v_seg : option Segment;
  similarity : Q
}.

Definition is_empty (pair : AlignedPair) : bool :=
  match t_seg pair, v_seg pair with
  | None, None => true
  | _, _ => false
  end.

Definition normalize_text (text : string) : string :=
  let text := strip (lower text) in
  join " " (split_ws text).

Definition window_size : nat := 3.

Section AlignLoop.
Context (t_segments v_segments : list Segment) (t_texts v_texts : list string).

(** The search in the forward window: the state is
    [(best_similarity, best_v_idx)]. *)
Definition best_in_window (t_text : string) (v_idx : nat) : result (Q * nat) :=
  for_each (range v_idx (Nat.min (v_idx + window_size) (length v_segments)))
    (fun '(best_similarity, best_v_idx) i =>
       v_text ← index v_texts i;
       let similarity := fuzz_ratio t_text v_text in
       if Qltb best_similarity similarity then Ok (similarity, i)
       else Ok (best_similarity, best_v_idx))
    (0.0, v_idx).

(** The [while] loop; one unit of fuel per iteration. *)
Fixpoint align_loop (fuel t_idx v_idx : nat) (aligned_pairs : list AlignedPair)
  : result (list AlignedPair) :=
  if negb ((t_idx <? length t_segments)%nat || (v_idx <? length v_segments)%nat)
  then Ok aligned_pairs
  else
    match fuel with
    | O => OutOfFuel
    | S fuel' =>
        if (length t_segments <=? t_idx)%nat then
          v ← index v_segments v_idx;
          align_loop fuel' t_idx (v_idx + 1)
            (aligned_pairs ++ [mkAlignedPair None (Some v) 0.0])
        else if (length v_segments <=? v_idx)%nat then
          t ← index t_segments t_idx;
          align_loop fuel' (t_idx + 1) v_idx
            (aligned_pairs ++ [mkAlignedPair (Some t) None 0.0])
        else
          t_text ← index t_texts t_idx;
          '(best_similarity, best_v_idx) ← best_in_window t_text v_idx;
          if Qltb 50 best_similarity then
            aligned_pairs ←
              for_each (range v_idx best_v_idx)
                (fun pairs i =>
                   v ← index v_segments i;
                   Ok (pairs ++ [mkAlignedPair None (Some v) 0.0]))
                aligned_pairs;
            t ← index t_segments t_idx;
            v ← index v_segments best_v_idx;
            align_loop fuel' (t_idx + 1) (best_v_idx + 1)
              (aligned_pairs
                 ++ [mkAlignedPair (Some t) (Some v) (best_similarity / 100.0)])
          else
            t ← index t_segments t_idx;
            align_loop fuel' (t_idx + 1) v_idx
              (aligned_pairs ++ [mkAlignedPair (Some t) None 0.0])
    end.
End AlignLoop.

Definition align_segments (t_segments v_segments : list Segment)
  : result (list AlignedPair) :=
  match t_segments, v_segments with
  | [], [] => Ok []
  | _, _ =>
      let t_texts := map (fun seg => normalize_text (text seg)) t_segments in
      let v_texts := map (fun seg => normalize_text (text seg)) v_segments in
      align_loop t_segments v_segments t_texts v_texts
        (length t_segments + length v_segments) 0 0 []
  end.

(** ** vendors/base.py *)

Inductive Pick : Type := A | B.

Record AdjudicationResult : Type := mkAdjudicationResult {
  pick : Pick;
  result_text : string
}.

(** The abstract class [AdjudicatorBackend]. A backend is an object with a
    state of its own: [select] returns or raises, and leaves the backend in
    a new state. [class_name] is [type(backend).__name__]. *)
Class AdjudicatorBackend (Bk : Type) : Type := {
  select : Bk -> string -> string -> string -> string
           -> outcome AdjudicationResult * Bk;
  class_name : Bk -> string
}.

(** ** core/adjudicator.py *)

Record AmbiguousPair : Type := mkAmbiguousPair {
  amb_t_seg : Segment;
  amb_v_seg : Segment;
  context_before : string;
  context_after : string;
  amb_page_num : nat;
  amb_segment_idx : nat
}.

Definition build_context (segments : list Segment) (idx : nat) (max_length : nat)
  : result (string * string) :=
  before_text ←
    (if (0 <? idx)%nat then
       prev ← index segments (idx - 1);
       let before_text := slice_last max_length (text prev) in
       before_text ←
         for_each (range (Nat.max 0 (idx - 3)) (idx - 1))
           (fun before_text i =>
              seg ← index segments i;
              Ok (text seg +:+ " " +:+ before_text))
           before_text;
       Ok (slice_last max_length before_text)
     else Ok "");
  after_text ←
    (if (idx <? length segments - 1)%nat then
       next ← index segments (idx + 1);
       let after_text := slice_to max_length (text next) in
       after_text ←
         for_each (range (idx + 2) (Nat.min (length segments) (idx + 4)))
           (fun after_text i =>
              seg ← index segments i;
              Ok (after_text +:+ " " +:+ slice_to max_length (text seg)))
           after_text;
       Ok (slice_to max_length after_text)
     else Ok "");
  Ok (before_text, after_text).

(** The state of the loop of [adjudicate_batch]: the results so far, the
    lines printed so far, and the backend. *)
Definition adjudicate_batch {Bk : Type} `{AdjudicatorBackend Bk}
    (pairs : list AmbiguousPair) (backend : Bk)
  : result (list AdjudicationResult * list string * Bk) :=
  for_each pairs
    (fun '(results, printed, backend) pair =>
       let '(answer, backend) :=
         select backend
           (slice_to 200 (context_before pair))
           (text (amb_t_seg pair))
           (text (amb_v_seg pair))
           (slice_to 200 (context_after pair)) in
       try_except
         (result ← call answer;
          Ok (results ++ [result], printed, backend))
         (fun e =>
            Ok (results ++ [mkAdjudicationResult A (text (amb_t_seg pair))],
                printed ++ ["Adjudication failed for segment "
                            +:+ pretty (amb_segment_idx pair) +:+ ": " +:+ exn_str e],
                backend)))
    ([], [], backend).

(** ** Two backends *)

(** [MockAdjudicatorBackend] of tests/test_pipeline_integration.py: it
    always answers pick A with the text of candidate A. *)
Inductive MockAdjudicatorBackend : Type := mock_adjudicator_backend.

#[global] Instance MockAdjudicatorBackend_backend
  : AdjudicatorBackend MockAdjudicatorBackend := {|
  select := fun backend _ candidate_a _ _ =>
              (Returns (mkAdjudicationResult A candidate_a), backend);
  class_name := fun _ => "MockAdjudicatorBackend"
|}.

(** A backend whose [select] raises on every call. *)
Inductive RaisingBackend : Type := raising_backend.

#[global] Instance RaisingBackend_backend : AdjudicatorBackend RaisingBackend := {|
  select := fun backend _ _ _ _ => (Raises (Exception "timeout"), backend);
  class_name := fun _ => "RaisingBackend"
|}.

(** ** core/provenance.py *)

Definition datetime : Type := Z.

Record ProvenanceRecord : Type := mkProvenanceRecord {
  page_num : nat;
  segment_idx : nat;
  rec_source : Source;
  llm_pick : option Pick;
  t_score : Q;
  v_score : Q;
  chosen_text : string;
  backend_used : option string;
  timestamp : datetime
}.

(** What the class statement leaves behind: the default of [timestamp]. *)
Record ProvenanceRecord_class : Type := mkProvenanceRecord_class {
  timestamp_default : datetime
}.

(** Executing [class ProvenanceRecord(BaseModel): ...] when the clock reads
    [now]: the default expression [datetime.now()] of [timestamp] is
    evaluated here, once. *)
Definition define_ProvenanceRecord (now : datetime) : ProvenanceRecord_class :=
  {| timestamp_default := now |}.

(** [ProvenanceRecord(...)]: [llm_pick], [backend_used] and [timestamp] are
    optional arguments; the model validation refuses a [source] outside
    ["T"], ["V"], ["LLM"]. *)
Definition ProvenanceRecord_new (cls : ProvenanceRecord_class)
    (page_num segment_idx : nat) (source : Source) (llm_pick : option Pick)
    (t_score v_score : Q) (chosen_text : string) (backend_used : option string)
    (timestamp : option datetime) : result ProvenanceRecord :=
  match source with
  | AMBIGUOUS => Raise ValidationError
  | _ =>
      Ok (mkProvenanceRecord page_num segment_idx source llm_pick t_score v_score
            chosen_text backend_used
            (match timestamp with
             | Some ts => ts
             | None => timestamp_default cls
             end))
  end.

Definition Source_str (s : Source) : string :=
  match s with
  | T => "T"
  | V => "V"
  | AMBIGUOUS => "AMBIGUOUS"
  | LLM => "LLM"
  end.

Definition llm_pick_str (p : option Pick) : string :=
  match p with
  | None => "None"
  | Some A => "A"
  | Some B => "B"
  end.

Definition provenance_comment (record : ProvenanceRecord) : string :=
  match rec_source record with
  | LLM => "<!-- src:LLM:" +:+ llm_pick_str (llm_pick record) +:+ " -->"
  | src => "<!-- src:" +:+ Source_str src +:+ " -->"
  end.

Definition nonempty_str (s : string) : bool := negb (len s =? 0)%nat.

Definition insert_provenance_comments (markdown : string)
    (records : list ProvenanceRecord) : result string :=
  let by_segment : gmap (nat * nat) ProvenanceRecord :=
    foldl (fun m record => <[(page_num record, segment_idx record) := record]> m)
      ∅ records in
  let lines := split_on newline markdown in
  let page_num := O in
  '(output, segment_idx) ←
    for_each (enumerate lines)
      (fun '(output, segment_idx) '(i, line) =>
         '(output, segment_idx) ←
           (if (len (strip line) =? 0)%nat && (0 <? i)%nat then
              prev ← index lines (i - 1);
              if nonempty_str (strip prev) then
                let output :=
                  match by_segment !! (page_num, segment_idx) with
                  | Some record => output ++ [provenance_comment record]
                  | None => output
                  end in
                Ok (output, (segment_idx + 1)%nat)
              else Ok (output, segment_idx)
            else Ok (output, segment_idx));
         Ok (output ++ [line], segment_idx))
      ([], O);
  output ←
    (match lines with
     | [] => Ok output
     | _ =>
         last_line ← index output (length output - 1);
         if nonempty_str (strip last_line) then
           match by_segment !! (page_num, segment_idx) with
           | Some record => Ok (output ++ [provenance_comment record])
           | None => Ok output
           end
         else Ok output
     end);
  Ok (join (String newline EmptyString) output).

(** ** core/pipeline.py *)

Record ExtractionResult : Type := mkExtractionResult {
  markdown : string;
  records : list ProvenanceRecord;
  pages_processed : nat
}.

Section Pipeline.
Context {Bk : Type} `{AdjudicatorBackend Bk}.
Context (cls : ProvenanceRecord_class) (config : HeuristicsConfig).

Definition score_or_zero (o : option Segment) : Q :=
  match present o with
  | Some seg => score_segment seg
  | None => 0.0
  end.

(** The body of [for seg_idx, pair in enumerate(aligned_pairs)]; the state
    is [(page_segments, page_records, ambiguous_pairs)]. *)
Definition select_pair (page_num : nat) (t_segments v_segments : list Segment)
    (st : list string * list ProvenanceRecord * list AmbiguousPair)
    (item : nat * AlignedPair)
  : result (list string * list ProvenanceRecord * list AmbiguousPair) :=
  let '(page_segments, page_records, ambiguous_pairs) := st in
  let seg_idx := item.1 in
  let pair := item.2 in
  if is_empty pair then Ok st
  else
    let t_score := score_or_zero (t_seg pair) in
    let v_score := score_or_zero (v_seg pair) in
    choice ← choose_segment (t_seg pair) (v_seg pair) t_score v_score config;
    match source choice with
    | AMBIGUOUS =>
        ambiguous_pairs ←
          (match present (t_seg pair), present (v_seg pair) with
           | Some t, Some v =>
               '(context_before, context_after) ←
                 build_context
                   (if truthy (t_seg pair) then t_segments else v_segments)
                   (if truthy (t_seg pair) then seg_idx else seg_idx)
                   200;
               Ok (ambiguous_pairs
                     ++ [mkAmbiguousPair t v context_before context_after
                           page_num seg_idx])
           | _, _ => Ok ambiguous_pairs
           end);
        (* "Temporarily choose T as fallback": computed, then dropped. *)
        selected_text ←
          (match present (t_seg pair), v_seg pair with
           | Some t, _ => Ok (text t)
           | None, Some v => Ok (text v)
           | None, None => Raise AttributeError
           end);
        let choice := mkChoice T selected_text "Pending adjudication" in
        Ok (page_segments, page_records, ambiguous_pairs)
    | _ =>
        record ←
          ProvenanceRecord_new cls page_num seg_idx (source choice) None
            t_score v_score (selected_text choice) None None;
        Ok (page_segments ++ [selected_text choice],
            page_records ++ [record],
            ambiguous_pairs)
    end.

(** The body of [for i, result in enumerate(adjudication_results)]. *)
Definition merge_adjudicated (backend : Bk) (ambiguous_pairs : list AmbiguousPair)
    (st : list string * list ProvenanceRecord)
    (item : nat * AdjudicationResult)
  : result (list string * list ProvenanceRecord) :=
  let '(page_segments, page_records) := st in
  let '(i, result) := item in
  pair ← index ambiguous_pairs i;
  let llm_pick := pick result in
  let selected_text :=
    match llm_pick with
    | A => text (amb_t_seg pair)
    | B => text (amb_v_seg pair)
    end in
  record ←
    ProvenanceRecord_new cls (amb_page_num pair) (amb_segment_idx pair) LLM
      (Some llm_pick)
      (score_or_zero (Some (amb_t_seg pair)))
      (score_or_zero (Some (amb_v_seg pair)))
      selected_text (Some (class_name backend)) None;
  Ok (page_segments ++ [selected_text], page_records ++ [record]).

(** The block [if ambiguous_pairs and self.adjudicator_backend: ...]. The
    result is the page's segments and records, the lines printed, and
    the backend. *)
Definition adjudicate_page (adjudicator_backend : option Bk)
    (ambiguous_pairs : list AmbiguousPair)
    (page_segments : list string) (page_records : list ProvenanceRecord)
  : result (list string * list ProvenanceRecord * list string * option Bk) :=
  match ambiguous_pairs, adjudicator_backend with
  | _ :: _, Some backend =>
      '(adjudication_results, printed, backend') ←
        adjudicate_batch ambiguous_pairs backend;
      '(page_segments, page_records) ←
        for_each (enumerate adjudication_results)
          (merge_adjudicated backend' ambiguous_pairs)
          (page_segments, page_records);
      Ok (page_segments, page_records, printed, Some backend')
  | _, _ => Ok (page_segments, page_records, [], adjudicator_backend)
  end.

(** One iteration of [for page_num in range(num_pages)], from the two
    segment sequences of the page on. *)
Definition process_page (adjudicator_backend : option Bk) (page_num : nat)
    (t_segments v_segments : list Segment)
  : result (list string * list ProvenanceRecord * list string * option Bk) :=
  aligned_pairs ← align_segments t_segments v_segments;
  '(page_segments, page_records, ambiguous_pairs) ←
    for_each (enumerate aligned_pairs)
      (select_pair page_num t_segments v_segments) ([], [], []);
  adjudicate_page adjudicator_backend ambiguous_pairs page_segments page_records.

(** [extract], from the segment sequences of the pages on. *)
Definition extract (adjudicator_backend : option Bk)
    (pages : list (list Segment * list Segment))
  : result (ExtractionResult * list string * option Bk) :=
  '(all_segments, all_records, printed, backend) ←
    for_each (enumerate pages)
      (fun '(all_segments, all_records, printed, backend) '(page_num, (t_segments, v_segments)) =>
         '(page_segments, page_records, page_printed, backend) ←
           process_page backend page_num t_segments v_segments;
         Ok (all_segments ++ page_segments, all_records ++ page_records,
             printed ++ page_printed, backend))
      ([], [], [], adjudicator_backend);
  let markdown := join (String newline (String newline EmptyString)) all_segments in
  markdown_with_provenance ← insert_provenance_comments markdown all_records;
  Ok (mkExtractionResult markdown_with_provenance all_records (length pages),
      printed, backend).
End Pipeline.

(** * Notions used in the statements *)

(** The structural bonus of a segment kind, as the specification tables it. *)
Definition structural_bonus (t : SegmentType) : Q :=
  match t with
  | TABLE => 0.2
  | LIST_ITEM => 0.15
  | HEADING => 0.1
  | _ => 0.0
  end.

Definition alnum_ratio (s : string) : Q := Qnat (count_if isalnum s) / Qnat (len s).

Definition avg_token_length (s : string) : Q :=
  match split_ws s with
  | [] => 0.0
  | tokens => Qnat (sum_nat (map len tokens)) / Qnat (length tokens)
  end.

Definition clamp01 (q : Q) : Q := py_min (py_max q 0.0) 1.0.

(** The score as section 4.3 of the specification words it: the weird
    character ratio is the fraction of the characters equal to the marker
    character. *)
Definition spec_score_formula (marker : ascii) (seg : Segment) : Q :=
  let s := text seg in
  let weird_char_ratio := Qnat (count_if (Ascii.eqb marker) s) / Qnat (len s) in
  clamp01 (0.6 * alnum_ratio s
           + 0.3 * (1 - weird_char_ratio)
           + py_min (avg_token_length s / 10) 0.1
           + structural_bonus (type seg)).

Definition v_only (v : Segment) : AlignedPair := mkAlignedPair None (Some v) 0.0%Q.

Definition t_only (t : Segment) : AlignedPair := mkAlignedPair (Some t) None 0.0%Q.

(** The T sides and the V sides of a list of pairs, in order. *)
Definition t_side (pairs : list AlignedPair) : list Segment := omap t_seg pairs.

Definition v_side (pairs : list AlignedPair) : list Segment := omap v_seg pairs.

(** The state of the [while] loop between two iterations: the pairs
    emitted so far hold the first [t_idx] segments of T and the first
    [v_idx] segments of V, each once and in order. *)
Definition aligned_upto (ts vs : list Segment) (t_idx v_idx : nat)
    (pairs : list AlignedPair) : Prop :=
  t_side pairs = take t_idx ts
  /\ v_side pairs = take v_idx vs
  /\ Forall (fun p => is_empty p = false) pairs.

Definition norm_text (seg : Segment) : string := normalize_text (text seg).

(** The pair the aligner makes of a segment and itself. *)
Definition self_pair (seg : Segment) : AlignedPair :=
  mkAlignedPair (Some seg) (Some seg)
    (fuzz_ratio (norm_text seg) (norm_text seg) / 100.0)%Q.

(** The record the pipeline writes for an unmatched T segment. *)
Definition t_only_record (cls : ProvenanceRecord_class) (page_num seg_idx : nat)
    (t : Segment) : ProvenanceRecord :=
  mkProvenanceRecord page_num seg_idx T None (score_segment t) 0.0%Q (text t) None
    (timestamp_default cls).

Definition default_stamped (cls : ProvenanceRecord_class)
    (recs : list ProvenanceRecord) : Prop :=
  Forall (fun r => timestamp r = timestamp_default cls) recs.

Section AdjudicationTrace.
Context {Bk : Type} `{AdjudicatorBackend Bk}.

(** The call [adjudicate_batch] makes for a pair. *)
Definition select_for (backend : Bk) (apair : AmbiguousPair)
  : outcome AdjudicationResult * Bk :=
  select backend
    (slice_to 200 (context_before apair))
    (text (amb_t_seg apair))
    (text (amb_v_seg apair))
    (slice_to 200 (context_after apair)).

(** What the backend answers to the pairs of a batch, called in order. *)
Fixpoint answers (pairs : list AmbiguousPair) (backend : Bk)
  : list (outcome AdjudicationResult) :=
  match pairs with
  | [] => []
  | apair :: rest => (select_for backend apair).1 :: answers rest (select_for backend apair).2
  end.

Fixpoint backend_after (pairs : list AmbiguousPair) (backend : Bk) : Bk :=
  match pairs with
  | [] => backend
  | apair :: rest => backend_after rest (select_for backend apair).2
  end.

(** The resolution of a pair, given the answer of the backend. *)
Definition resolution (apair : AmbiguousPair) (answer : outcome AdjudicationResult)
  : AdjudicationResult :=
  match answer with
  | Returns r => r
  | Raises _ => mkAdjudicationResult A (text (amb_t_seg apair))
  end.

Definition diagnostic (apair : AmbiguousPair) (answer : outcome AdjudicationResult)
  : list string :=
  match answer with
  | Returns _ => []
  | Raises e => ["Adjudication failed for segment "
                 +:+ pretty (amb_segment_idx apair) +:+ ": " +:+ exn_str e]
  end.

Fixpoint diagnostics (pairs : list AmbiguousPair)
    (l : list (outcome AdjudicationResult)) : list string :=
  match pairs, l with
  | apair :: pairs', answer :: l' => diagnostic apair answer ++ diagnostics pairs' l'
  | _, _ => []
  end.

(** The text and the record the pipeline emits for an adjudicated pair. *)
Definition adjudicated_text (apair : AmbiguousPair) (result : AdjudicationResult)
  : string :=
  match pick result with
  | A => text (amb_t_seg apair)
  | B => text (amb_v_seg apair)
  end.

Definition adjudicated_record (cls : ProvenanceRecord_class) (backend : Bk)
    (apair : AmbiguousPair) (result : AdjudicationResult) : ProvenanceRecord :=
  mkProvenanceRecord (amb_page_num apair) (amb_segment_idx apair) LLM
    (Some (pick result))
    (score_or_zero (Some (amb_t_seg apair)))
    (score_or_zero (Some (amb_v_seg apair)))
    (adjudicated_text apair result) (Some (class_name backend))
    (timestamp_default cls).
End AdjudicationTrace.

(** ** core/segmentation.py: detection and segmentation *)

(** [c in s]. *)
Fixpoint contains_char (c : ascii) (s : string) : bool :=
  match s with
  | EmptyString => false
  | String x s' => Ascii.eqb x c || contains_char c s'
  end.

Fixpoint all_chars (p : ascii -> bool) (s : string) : bool :=
  match s with
  | EmptyString => true
  | String c s' => p c && all_chars p s'
  end.

(** The number of leading characters that satisfy [p]. *)
Fixpoint count_leading (p : ascii -> bool) (s : string) : nat :=
  match s with
  | String c s' => if p c then S (count_leading p s') else O
  | EmptyString => O
  end.

(** The next character is white space: what [\s] asks of the input. *)
Definition starts_with_space (s : string) : bool :=
  match s with
  | String c _ => isspace c
  | EmptyString => false
  end.

(** [\d] on one character. *)
Definition isdigit (c : ascii) : bool := in_range 48 57 (code c).

Definition hash : ascii := ascii_of_nat 35.
Definition pipe : ascii := ascii_of_nat 124.
Definition dot : ascii := ascii_of_nat 46.

(** [re.match(r"^#{1,6}\s", s)]: one to six [#], then a white space
    character. *)
Definition atx_heading (s : string) : bool :=
  let n := count_leading (Ascii.eqb hash) s in
  (1 <=? n)%nat && (n <=? 6)%nat && starts_with_space (drop_str n s).

Definition is_rule_char (c : ascii) : bool :=
  Ascii.eqb c (ascii_of_nat 45) || Ascii.eqb c (ascii_of_nat 61).

(** A line the tail [[-=]{3,}\s*$] of the underline pattern matches from
    its start: three or more of [-] and [=], then white space only. *)
Definition underline (line : string) : bool :=
  let n := count_leading is_rule_char line in
  (3 <=? n)%nat && all_chars isspace (drop_str n line).

(** [re.search(r"^.+\n[-=]{3,}\s*$", text, re.MULTILINE)] over the lines of
    the text: a non-empty line followed by an underline. *)
Fixpoint setext_heading (lines : list string) : bool :=
  match lines with
  | line :: (next :: _) as rest =>
      (nonempty_str line && underline next) || setext_heading rest
  | _ => false
  end.

Definition detect_heading (text : string) : bool :=
  if atx_heading (strip text) then true
  else if setext_heading (split_on newline text) then true
  else false.

(** [re.match(r"^\s*(\*|-|\+|\d+\.)\s+", text)]. *)
Definition detect_list (text : string) : bool :=
  match lstrip text with
  | String c rest =>
      if Ascii.eqb c (ascii_of_nat 42) || Ascii.eqb c (ascii_of_nat 45)
         || Ascii.eqb c (ascii_of_nat 43)
      then starts_with_space rest
      else if isdigit c then
        match drop_str (count_leading isdigit rest) rest with
        | String d rest' => Ascii.eqb d dot && starts_with_space rest'
        | EmptyString => false
        end
      else false
  | EmptyString => false
  end.

Definition detect_table (text : string) : bool :=
  let lines := split_on newline text in
  let pipe_count := length (filter (fun line => contains_char pipe line = true) lines) in
  (2 <=? pipe_count)%nat
  && forallb (contains_char pipe)
       (filter (fun line => nonempty_str (strip line) = true) lines).

Definition _determine_segment_type (text : string) : SegmentType :=
  if detect_table text then TABLE
  else if detect_list text then LIST_ITEM
  else if detect_heading text then HEADING
  else if contains_char newline text then PARAGRAPH
  else SENTENCE.

(** The segment made of the lines of [current_paragraph]. *)
Definition paragraph_segment (current_paragraph : list string) (start_idx : nat)
  : Segment :=
  let para_text := join (String newline EmptyString) current_paragraph in
  mkSegment para_text start_idx (start_idx + len para_text)
    (_determine_segment_type para_text).

(** The body of [for line in lines]; the state is
    [(segments, current_paragraph, start_idx)]. *)
Definition segment_line (st : list Segment * list string * nat) (line : string)
  : list Segment * list string * nat :=
  let '(segments, current_paragraph, start_idx) := st in
  let line := strip line in
  if (len line =? 0)%nat then
    match current_paragraph with
    | [] => st
    | _ =>
        let segment := paragraph_segment current_paragraph start_idx in
        (segments ++ [segment], [], seg_end segment)
    end
  else (segments, current_paragraph ++ [line], start_idx).

Definition segment_text (text : string) : list Segment :=
  let lines := split_on newline text in
  let '(segments, current_paragraph, start_idx) :=
    foldl segment_line ([], [], O) lines in
  match current_paragraph with
  | [] => segments
  | _ => segments ++ [paragraph_segment current_paragraph start_idx]
  end.

(** The start of [extract]'s page loop: both texts are segmented, then the
    page is resolved. *)
Definition process_page_text {Bk : Type} `{AdjudicatorBackend Bk}
    (cls : ProvenanceRecord_class) (config : HeuristicsConfig)
    (adjudicator_backend : option Bk) (page_num : nat) (t_text v_text : string)
  : result (list string * list ProvenanceRecord * list string * option Bk) :=
  let t_segments := segment_text t_text in
  let v_segments := segment_text v_text in
  process_page cls config adjudicator_backend page_num t_segments v_segments.

(** ** core/utils.py: normalize_whitespace *)

Definition space : ascii := ascii_of_nat 32.

Definition starts_with_char (c : ascii) (s : string) : bool :=
  match s with
  | String x _ => Ascii.eqb x c
  | EmptyString => false
  end.

(** [re.sub(r" +", " ", text)]: of a run of spaces only the last is kept. *)
Fixpoint collapse_spaces (s : string) : string :=
  match s with
  | EmptyString => EmptyString
  | String c s' =>
      if Ascii.eqb c space && starts_with_char space s' then collapse_spaces s'
      else String c (collapse_spaces s')
  end.

(** [re.sub(r"\n{3,}", "\n\n", text)]: of a run of line breaks the first
    two are kept; [seen] counts the line breaks of the run read so far. *)
Fixpoint collapse_newlines (seen : nat) (s : string) : string :=
  match s with
  | EmptyString => EmptyString
  | String c s' =>
      if Ascii.eqb c newline then
        if (seen <? 2)%nat then String c (collapse_newlines (S seen) s')
        else collapse_newlines (S seen) s'
      else String c (collapse_newlines O s')
  end.

Definition normalize_whitespace (text : string) : string :=
  let text := collapse_spaces text in
  let text := collapse_newlines O text in
  let lines := map strip (split_on newline text) in
  join (String newline EmptyString) lines.

(** No two spaces in a row. *)
Fixpoint single_spaced (s : string) : bool :=
  match s with
  | String a s' => negb (Ascii.eqb a space && starts_with_char space s') && single_spaced s'
  | EmptyString => true
  end.

(** ** core/utils.py: repair_hyphenation *)

(** [\w] on one character. *)
Definition is_word (c : ascii) : bool := isalnum c || Ascii.eqb c (ascii_of_nat 95).

(** [[a-z]] and [[\n\r]]. *)
Definition is_az (c : ascii) : bool := in_range 97 122 (code c).
Definition is_break (c : ascii) : bool :=
  Ascii.eqb c newline || Ascii.eqb c (ascii_of_nat 13).

Definition hyphen : ascii := ascii_of_nat 45.

(** [str.islower] and [str.isupper] on one character of Latin-1. *)
Definition islower_char (c : ascii) : bool :=
  let n := code c in
  in_range 97 122 n || (n =? 170)%nat || (n =? 181)%nat || (n =? 186)%nat
  || in_range 223 246 n || in_range 248 255 n.

Definition isupper_char (c : ascii) : bool :=
  let n := code c in
  in_range 65 90 n || in_range 192 214 n || in_range 216 222 n.

Fixpoint any_char (p : ascii -> bool) (s : string) : bool :=
  match s with
  | EmptyString => false
  | String c s' => p c || any_char p s'
  end.

(** [s.isupper()]: no lower case character, and an upper case one. *)
Definition isupper (s : string) : bool :=
  negb (any_char islower_char s) && any_char isupper_char s.

(** A match of the pattern: [group(0)], [group(1)] and [group(2)]. *)
Record Match : Type := mkMatch {
  group0 : string;
  group1 : string;
  group2 : string
}.

(** The pattern of the source tried at the start of [s]: a letter of
    [a-z] and word characters, which are group 1, a hyphen, one line break
    or more, and one word character or more, which are group 2. The
    hyphen, the line breaks and the word characters exclude one another,
    so each repetition takes all it can: a shorter choice would leave a
    character of its own class where the next part of the pattern wants
    another. *)
Definition match_at (s : string) : option Match :=
  match s with
  | String c s1 =>
      if is_az c then
        let n1 := count_leading is_word s1 in
        let first := String c (take_str n1 s1) in
        match drop_str n1 s1 with
        | String h r2 =>
            if Ascii.eqb h hyphen then
              let nb := count_leading is_break r2 in
              let r3 := drop_str nb r2 in
              let nw := count_leading is_word r3 in
              if (nb =? 0)%nat then None
              else if (nw =? 0)%nat then None
              else
                let second := take_str nw r3 in
                Some (mkMatch (first +:+ String hyphen (take_str nb r2) +:+ second)
                        first second)
            else None
        | EmptyString => None
        end
      else None
  | EmptyString => None
  end.

Definition merge_match (m : Match) : string :=
  let first := group1 m in
  let second := group2 m in
  if isupper first && (1 <? len first)%nat then group0 m
  else first +:+ second.

(** [re.sub(pattern, repl, s)]: the pattern is tried at each position from
    the left; where it matches, the match is replaced and the search goes
    on behind it. [skip] counts the characters of the last match still to
    pass. *)
Fixpoint re_sub (repl : Match -> string) (skip : nat) (s : string) : string :=
  match s with
  | EmptyString => EmptyString
  | String c s' =>
      match skip with
      | S skip' => re_sub repl skip' s'
      | O =>
          match match_at s with
          | Some m => repl m +:+ re_sub repl (len (group0 m) - 1) s'
          | None => String c (re_sub repl O s')
          end
      end
  end.

Definition repair_hyphenation (text : string) : string :=
  re_sub merge_match O text.

(** The characters of [s] that satisfy [p], in order. *)
Fixpoint filter_chars (p : ascii -> bool) (s : string) : string :=
  match s with
  | EmptyString => EmptyString
  | String c s' => if p c then String c (filter_chars p s') else filter_chars p s'
  end.

(** Neither a hyphen nor a line break. *)
Definition is_kept (c : ascii) : bool := negb (Ascii.eqb c hyphen || is_break c).

(** ** simple.py: the statistics of [_extract_hybrid] *)

(** The dictionary [{"T": 0, "V": 0, "LLM": 0}]: its three entries. *)
Record Stats : Type := mkStats {
  stats_T : nat;
  stats_V : nat;
  stats_LLM : nat
}.

(** The body of [for record in result.records]. *)
Definition count_record (stats : Stats) (record : ProvenanceRecord) : Stats :=
  match rec_source record with
  | LLM => mkStats (stats_T stats) (stats_V stats) (stats_LLM stats + 1)
  | V => mkStats (stats_T stats) (stats_V stats + 1) (stats_LLM stats)
  | _ => mkStats (stats_T stats + 1) (stats_V stats) (stats_LLM stats)
  end.

Definition build_stats (records : list ProvenanceRecord) : Stats :=
  foldl count_record (mkStats 0 0 0) records.

Definition has_source (s : Source) (record : ProvenanceRecord) : bool :=
  match s, rec_source record with
  | T, T | V, V | AMBIGUOUS, AMBIGUOUS | LLM, LLM => true
  | _, _ => false
  end.

(** The number of records of one source. *)
Definition count_source (s : Source) (records : list ProvenanceRecord) : nat :=
  length (List.filter (has_source s) records).

(** ** simple.py: [_deep_merge] and its use in [config] *)

(** Dictionaries are objects: a value is a reference to a dictionary of the
    heap, or anything else. The heap is the list of the dictionaries made
    so far, a reference is a position in it, and a new dictionary goes to
    the end. *)
Inductive pyvalue (A : Type) : Type :=
  | Atom (a : A)
  | DictRef (p : nat).

Arguments Atom {A} a.
Arguments DictRef {A} p.

Section DeepMerge.
Context {A : Type}.

Definition dict : Type := list (string * pyvalue A).
Definition heap : Type := list dict.

(** [d.get(key)]. *)
Fixpoint dict_get (key : string) (d : dict) : option (pyvalue A) :=
  match d with
  | [] => None
  | (k, v) :: d' => if String.eqb k key then Some v else dict_get key d'
  end.

(** [d[key] = value]: the entry is replaced where it stands, a new key goes
    to the end. *)
Fixpoint dict_set (key : string) (value : pyvalue A) (d : dict) : dict :=
  match d with
  | [] => [(key, value)]
  | (k, v) :: d' =>
      if String.eqb k key then (k, value) :: d' else (k, v) :: dict_set key value d'
  end.

(** The dictionary behind a reference; a method of a dictionary called on
    anything else raises AttributeError. *)
Definition deref (h : heap) (p : nat) : result dict :=
  match h !! p with
  | Some d => Ok d
  | None => Raise AttributeError
  end.

(** [_deep_merge(base, override)] on the heap [h]: the reference to the
    result and the heap after the call. [fuel] bounds the depth of the
    recursion. *)
Fixpoint _deep_merge (fuel : nat) (base override : nat) (h : heap)
  : result (nat * heap) :=
  match fuel with
  | O => OutOfFuel
  | S fuel =>
      base_dict ← deref h base;
      let result := length h in
      let h := h ++ [base_dict] in
      items ← deref h override;
      h ← for_each items
            (fun h '(key, value) =>
               result_dict ← deref h result;
               match dict_get key result_dict, value with
               | Some (DictRef r), DictRef o =>
                   '(merged, h) ← _deep_merge fuel r o h;
                   result_dict ← deref h result;
                   Ok (<[result := dict_set key (DictRef merged) result_dict]> h)
               | _, _ => Ok (<[result := dict_set key value result_dict]> h)
               end)
            h;
      Ok (result, h)
  end.

(** [config], from the dump of the default configuration to the dictionary
    that is validated: the merge is called, and what it returns is dropped. *)
Definition merged_config (fuel : nat) (config_dict custom_config : nat) (h : heap)
  : result (nat * heap) :=
  '(_, h) ← _deep_merge fuel config_dict custom_config h;
  Ok (config_dict, h).

(** The value of the entry is no reference, or one below [n]. *)
Definition ref_below (n : nat) (kv : string * pyvalue A) : Prop :=
  match kv.2 with
  | DictRef q => (q < n)%nat
  | Atom _ => True
  end.

(** Every reference in the heap is to a dictionary of the heap. *)
Definition closed (h : heap) : Prop :=
  Forall (Forall (ref_below (length h))) h.

(** The dictionary at [p] nests dictionaries less than [n] deep. *)
Fixpoint nests (h : heap) (n : nat) (p : nat) : Prop :=
  match n with
  | O => False
  | S n =>
      exists d, h !! p = Some d
                /\ Forall (fun kv : string * pyvalue A =>
                             match kv.2 with
                             | DictRef q => nests h n q
                             | Atom _ => True
                             end) d
  end.

End DeepMerge.

(** * Further notions used in the statements *)

(** The record the pipeline writes for an unmatched V segment. *)
Definition v_only_record (cls : ProvenanceRecord_class) (page_num seg_idx : nat)
    (v : Segment) : ProvenanceRecord :=
  mkProvenanceRecord page_num seg_idx V None 0.0%Q (score_segment v) (text v) None
    (timestamp_default cls).

(** The similarity a pair of the aligner can carry. *)
Definition similarity_in_range (p : AlignedPair) : Prop :=
  match t_seg p, v_seg p with
  | Some _, Some _ => 0.5 < similarity p /\ similarity p <= 1
  | _, _ => similarity p = 0.0
  end.

(** [woven is_comment lines output]: [output] is [lines], in order, with
    lines that satisfy [is_comment] put in between. *)
Inductive woven (is_comment : string -> Prop) : list string -> list string -> Prop :=
  | woven_nil : woven is_comment [] []
  | woven_line (l : string) (lines output : list string) :
      woven is_comment lines output -> woven is_comment (l :: lines) (l :: output)
  | woven_comment (c : string) (lines output : list string) :
      is_comment c -> woven is_comment lines output -> woven is_comment lines (c :: output).

(** The comment of a record of page 0. *)
Definition page0_comment (records : list ProvenanceRecord) (c : string) : Prop :=
  exists r, r ∈ records /\ page_num r = O /\ c = provenance_comment r.

(** The record the pipeline writes for a pair the selector decided. *)
Definition selected_record (cls : ProvenanceRecord_class) (page_num seg_idx : nat)
    (apair : AlignedPair) (choice : Choice) : ProvenanceRecord :=
  mkProvenanceRecord page_num seg_idx (source choice) None
    (score_or_zero (t_seg apair)) (score_or_zero (v_seg apair))
    (selected_text choice) None (timestamp_default cls).

(** A record of the selector: source T or V, no pick, no backend. *)
Definition selector_record (r : ProvenanceRecord) : Prop :=
  (rec_source r = T \/ rec_source r = V)
  /\ llm_pick r = None /\ backend_used r = None.

(** A record of the adjudication: source LLM, with a pick and a backend. *)
Definition adjudication_record (r : ProvenanceRecord) : Prop :=
  rec_source r = LLM /\ is_Some (llm_pick r) /\ is_Some (backend_used r).

(** A line of a paragraph: not empty, stripped, without a line break. *)
Definition paragraph_line (l : string) : Prop :=
  l <> EmptyString /\ strip l = l /\ contains_char newline l = false.

Definition paragraph (p : list string) : Prop :=
  p <> [] /\ Forall paragraph_line p.

(** The segments of a list of paragraphs, the first starting at [start]. *)
Fixpoint paragraph_segments (start : nat) (paras : list (list string)) : list Segment :=
  match paras with
  | [] => []
  | p :: ps =>
      paragraph_segment p start
      :: paragraph_segments (seg_end (paragraph_segment p start)) ps
  end.

(** Where the segment after [paras] starts. *)
Fixpoint paragraphs_end (start : nat) (paras : list (list string)) : nat :=
  match paras with
  | [] => start
  | p :: ps => paragraphs_end (seg_end (paragraph_segment p start)) ps
  end.

(** The lines of a text made of [paras], one empty line between two. *)
Fixpoint paragraph_lines (paras : list (list string)) : list string :=
  match paras with
  | [] => []
  | [p] => p
  | p :: ps => p ++ EmptyString :: paragraph_lines ps
  end.

(** The end of [segment_text]: the paragraph still open is closed. *)
Definition close_paragraph (st : list Segment * list string * nat) : list Segment :=
  match st.1.2 with
  | [] => st.1.1
  | _ => st.1.1 ++ [paragraph_segment st.1.2 st.2]
  end.

Definition blank_line (l : string) : Prop := strip l = EmptyString.

(** A word: a non-empty string without white space. *)
Definition word (w : string) : Prop :=
  w <> EmptyString /\ all_chars (fun c => negb (isspace c)) w = true.

(** The condition of rule 4 on two present texts. *)
Definition ambiguity_condition (t v : Segment) (t_score v_score : Q)
    (config : HeuristicsConfig) : Prop :=
  Qabs (t_score - v_score) < ambiguity_band config
  /\ (3 * Nat.min (len (text t)) (len (text v))
      < 2 * Nat.max (len (text t)) (len (text v)))%nat.

(** What the selector answers below rule 4. *)
Definition deterministic_choice (t v : Segment) (t_score v_score : Q)
    (config : HeuristicsConfig) : Choice :=
  if has_structure v && negb (has_structure t) then
    mkChoice V (text v)
      ("V has " +:+ SegmentType_value (type v) +:+ " structure, T does not")
  else if Qltb (v_score + score_margin config) t_score then
    mkChoice T (text t) ("T score higher by " +:+ format_fixed 3 (t_score - v_score))
  else if Qltb (t_score + score_margin config) v_score then
    mkChoice V (text v) ("V score higher by " +:+ format_fixed 3 (v_score - t_score))
  else mkChoice T (text t) "Default: text-first preferred".

(** * Properties *)

(** ** Rationals *)

Lemma Qltb_true (a b : Q) : Qltb a b = true <-> a < b.
Proof.
  unfold Qltb. rewrite negb_true_iff. split.
  - intros Hf. apply Qnot_le_lt. intros Hle.
    apply Qle_bool_iff in Hle. congruence.
  - intros Hlt. destruct (Qle_bool b a) eqn:E; [|reflexivity].
    apply Qle_bool_iff in E. exfalso. exact (Qlt_not_le _ _ Hlt E).
Qed.

Lemma Qltb_false (a b : Q) : Qltb a b = false <-> b <= a.
Proof.
  unfold Qltb. rewrite negb_false_iff. apply Qle_bool_iff.
Qed.

Ltac case_Qltb a b :=
  let E := fresh "E" in
  destruct (Qltb a b) eqn:E;
  [apply Qltb_true in E | apply Qltb_false in E].

Lemma clamp_bounds (s : Q) : 0 <= py_min (py_max s 0.0) 1.0 <= 1.
Proof.
  unfold py_min, py_max.
  case_Qltb s 0.0.
  - case_Qltb 1.0 0.0; lra.
  - case_Qltb 1.0 s; lra.
Qed.

Lemma Qnat_nonneg (n : nat) : 0 <= Qnat n.
Proof.
  unfold Qnat. change 0 with (inject_Z 0). rewrite <- Zle_Qle. lia.
Qed.

Lemma Qnat_pos (n : nat) : (0 < n)%nat -> 0 < Qnat n.
Proof.
  intros Hn. unfold Qnat. change 0 with (inject_Z 0). rewrite <- Zlt_Qlt. lia.
Qed.

(** ** Scorer *)

Lemma len_zero_empty (s : string) : len s = O <-> s = EmptyString.
Proof. destruct s; simpl; split; intros; congruence. Qed.

(** What the code computes on a non-empty text: [text.count("")] is
    [len(text) + 1], so the weird rate is [(len + 1) / len]. *)
Lemma score_segment_nonempty (seg : Segment) :
  text seg <> EmptyString ->
  score_segment seg
  = clamp01 (alnum_ratio (text seg) * 0.6
             + (1 - Qnat (S (len (text seg))) / Qnat (len (text seg))) * 0.3
             + py_min (avg_token_length (text seg) / 10.0) 0.1
             + structural_bonus (type seg)).
Proof.
  intros Hne. unfold score_segment, truthy, Segment_len, clamp01.
  destruct (len (text seg)) eqn:El.
  { apply len_zero_empty in El. contradiction. }
  simpl negb. simpl orb. cbv iota. simpl (S n =? 0)%nat. cbv iota.
  simpl (0 <? S n)%nat. cbv iota.
  unfold alnum_ratio, avg_token_length. rewrite El.
  replace (count (text seg) "") with (S (S n)) by (simpl; rewrite El; reflexivity).
  destruct (type seg); simpl; destruct (split_ws (text seg)); reflexivity.
Qed.

(** C8. For every segment, of any text and any kind, [score_segment] returns
    a value in [0,1]; for every segment whose text is empty it returns 0. *)
Theorem score_segment_in_unit_interval :
  (forall seg : Segment, 0 <= score_segment seg <= 1)
  /\ (forall seg : Segment, text seg = EmptyString -> score_segment seg == 0).
Proof.
  split.
  - intros seg. destruct (string_dec (text seg) EmptyString) as [He|Hne].
    + unfold score_segment, truthy, Segment_len. rewrite He. simpl. lra.
    + rewrite (score_segment_nonempty seg Hne). apply clamp_bounds.
  - intros seg He. unfold score_segment, truthy, Segment_len.
    rewrite He. simpl. reflexivity.
Qed.

Lemma score_segment_in_unit_interval_witness :
  (0 <= score_segment (mkSegment "ab c" 0 4 TABLE) <= 1)
  /\ score_segment (mkSegment "" 0 0 HEADING) == 0.
Proof.
  split.
  - apply (proj1 score_segment_in_unit_interval).
  - apply (proj2 score_segment_in_unit_interval). reflexivity.
Defined.

(** C3. On the segment with text "a" the code scores 0.4: the weird rate it
    subtracts is 2/1, the count of the empty string over the length. The
    formula of the specification gives another value, whatever the marker
    character is. *)
Theorem score_segment_counts_empty_string :
  let seg := mkSegment "a" 0 1 SENTENCE in
  text seg <> EmptyString
  /\ score_segment seg == 0.4
  /\ (forall marker : ascii, ~ score_segment seg == spec_score_formula marker seg)
  /\ spec_score_formula (ascii_of_nat 63) seg == 1.
Proof.
  cbv zeta. split; [discriminate|]. split; [vm_compute; reflexivity|]. split.
  - intros marker Heq.
    assert (Hs : score_segment (mkSegment "a" 0 1 SENTENCE) == 0.4)
      by (vm_compute; reflexivity).
    rewrite Hs in Heq. clear Hs.
    unfold spec_score_formula in Heq. simpl text in Heq. simpl count_if in Heq.
    destruct (Ascii.eqb marker "a"); vm_compute in Heq; discriminate.
  - vm_compute. reflexivity.
Qed.

(** ** Selector *)

Lemma present_Some (o : option Segment) (seg : Segment) :
  present o = Some seg -> o = Some seg /\ text seg <> EmptyString.
Proof.
  unfold present, truthy, Segment_len. destruct o as [s|]; [|discriminate].
  destruct (len (text s) =? 0)%nat eqn:E; simpl; [discriminate|].
  intros [= ->]. split; [reflexivity|].
  intros He. rewrite He in E. discriminate.
Qed.

Lemma present_empty_text (seg : Segment) :
  text seg = EmptyString -> present (Some seg) = None.
Proof.
  intros He. unfold present, truthy, Segment_len. rewrite He. reflexivity.
Qed.

Lemma present_nonempty_text (seg : Segment) :
  text seg <> EmptyString -> present (Some seg) = Some seg.
Proof.
  intros Hne. unfold present, truthy, Segment_len.
  destruct (len (text seg)) eqn:E; [|reflexivity].
  apply len_zero_empty in E. contradiction.
Qed.

(** The selector is total: the division of rule 4 is only reached with two
    segments that passed the truth test, hence with two non-empty texts. *)
Lemma choose_segment_never_raises (t_seg v_seg : option Segment) (t_score v_score : Q)
    (config : HeuristicsConfig) :
  exists choice, choose_segment t_seg v_seg t_score v_score config = Ok choice.
Proof.
  unfold choose_segment.
  destruct (present t_seg) as [t|] eqn:Et, (present v_seg) as [v|] eqn:Ev;
    try (eexists; reflexivity).
  apply present_Some in Et as [_ Ht]. apply present_Some in Ev as [_ Hv].
  assert (Hmin : Nat.min (len (text t)) (len (text v)) <> O).
  { rewrite <- len_zero_empty in Ht, Hv. lia. }
  unfold int_div. apply Nat.eqb_neq in Hmin. rewrite Hmin.
  destruct (Qltb (Qabs (t_score - v_score)) (ambiguity_band config)); simpl.
  - destruct (Qltb 1.5 _); simpl; [eexists; reflexivity|].
    repeat (match goal with |- context [if ?b then _ else _] => destruct b end);
      eexists; reflexivity.
  - repeat (match goal with |- context [if ?b then _ else _] => destruct b end);
      eexists; reflexivity.
Qed.

(** C2, as the code has it. With both segments given and one text empty,
    [choose_segment] returns a [Choice] and raises nothing, but the choice is
    not AMBIGUOUS: a segment with an empty text fails the truth test and is
    handled as a missing one. *)
Theorem choose_segment_empty_text_is_missing (t v : Segment) (t_score v_score : Q)
    (config : HeuristicsConfig) :
  text t = EmptyString \/ text v = EmptyString ->
  Qabs (t_score - v_score) < ambiguity_band config ->
  exists choice,
    choose_segment (Some t) (Some v) t_score v_score config = Ok choice
    /\ source choice <> AMBIGUOUS
    /\ (text t = EmptyString -> text v <> EmptyString ->
        source choice = V /\ selected_text choice = text v)
    /\ (text v = EmptyString -> text t <> EmptyString ->
        source choice = T /\ selected_text choice = text t)
    /\ (text t = EmptyString -> text v = EmptyString ->
        source choice = T /\ selected_text choice = EmptyString).
Proof.
  intros Hempty _. unfold choose_segment.
  destruct (string_dec (text t) EmptyString) as [Ht|Ht];
    destruct (string_dec (text v) EmptyString) as [Hv|Hv].
  - rewrite !present_empty_text by assumption.
    eexists. split; [reflexivity|]. simpl. repeat split; try discriminate; tauto.
  - rewrite present_empty_text, present_nonempty_text by assumption.
    eexists. split; [reflexivity|]. simpl. repeat split; try discriminate; tauto.
  - rewrite present_nonempty_text, present_empty_text by assumption.
    eexists. split; [reflexivity|]. simpl. repeat split; try discriminate; tauto.
  - destruct Hempty; contradiction.
Qed.

Lemma choose_segment_empty_text_is_missing_witness :
  exists choice,
    choose_segment (Some (mkSegment "" 0 0 SENTENCE)) (Some (mkSegment "abc" 0 3 SENTENCE))
      0.5 0.5 default_heuristics = Ok choice
    /\ source choice = V /\ selected_text choice = "abc".
Proof.
  destruct (choose_segment_empty_text_is_missing
              (mkSegment "" 0 0 SENTENCE) (mkSegment "abc" 0 3 SENTENCE)
              0.5 0.5 default_heuristics)
    as (choice & Hc & _ & Hv & _).
  - left. reflexivity.
  - vm_compute. reflexivity.
  - exists choice. split; [exact Hc|]. apply Hv; [reflexivity|discriminate].
Defined.

(** C2 as stated fails: with an empty T text, equal scores and the default
    configuration the selector answers V, not AMBIGUOUS. *)
Lemma choose_segment_empty_text_not_ambiguous :
  ~ (forall (t v : Segment) (t_score v_score : Q) (config : HeuristicsConfig),
       text t = EmptyString \/ text v = EmptyString ->
       Qabs (t_score - v_score) < ambiguity_band config ->
       exists choice,
         choose_segment (Some t) (Some v) t_score v_score config = Ok choice
         /\ source choice = AMBIGUOUS).
Proof.
  intros Hclaim.
  destruct (Hclaim (mkSegment "" 0 0 SENTENCE) (mkSegment "abc" 0 3 SENTENCE)
              0.5 0.5 default_heuristics) as (choice & Hc & Hs).
  - left. reflexivity.
  - vm_compute. reflexivity.
  - vm_compute in Hc. injection Hc as <-. discriminate Hs.
Qed.

(** ** Aligner *)

Section AlignerFacts.
Local Open Scope nat_scope.

Lemma index_lookup {X : Type} (l : list X) (i : nat) (x : X) :
  l !! i = Some x -> index l i = Ok x.
Proof. intros Hl. unfold index. rewrite Hl. reflexivity. Qed.

Lemma index_lt {X : Type} (l : list X) (i : nat) :
  i < length l -> exists x, l !! i = Some x /\ index l i = Ok x.
Proof.
  intros Hi. destruct (lookup_lt_is_Some_2 l i Hi) as [x Hx].
  exists x. split; [exact Hx | apply index_lookup, Hx].
Qed.

Lemma index_ge {X : Type} (l : list X) (i : nat) :
  length l <= i -> index l i = Raise IndexError.
Proof.
  intros Hi. unfold index. rewrite (lookup_ge_None_2 l i Hi). reflexivity.
Qed.

(** The loop that emits the V segments skipped before a match. *)
Lemma v_only_loop (vs : list Segment) (n a : nat) (acc : list AlignedPair) :
  a + n <= length vs ->
  for_each (seq a n)
    (fun pairs i => v ← index vs i; Ok (pairs ++ [mkAlignedPair None (Some v) 0.0%Q]))
    acc
  = Ok (acc ++ (v_only <$> take n (drop a vs))).
Proof.
  revert a acc. induction n as [|n IH]; intros a acc Hle.
  - simpl. rewrite app_nil_r. reflexivity.
  - destruct (index_lt vs a) as (v & Hv & Hi); [lia|].
    simpl. rewrite Hi. simpl. rewrite IH by lia.
    rewrite (drop_S vs v a Hv). simpl. rewrite <- app_assoc. reflexivity.
Qed.

(** The window search returns, and its index stays in the window. *)
Lemma window_search (v_texts : list string) (t_text : string) (n a : nat)
    (best : Q) (best_idx : nat) :
  a + n <= length v_texts ->
  exists best' best_idx',
    for_each (seq a n)
      (fun '(best_similarity, best_v_idx) i =>
         v_text ← index v_texts i;
         let similarity := fuzz_ratio t_text v_text in
         if Qltb best_similarity similarity then Ok (similarity, i)
         else Ok (best_similarity, best_v_idx))
      (best, best_idx)
    = Ok (best', best_idx')
    /\ (best_idx' = best_idx \/ a <= best_idx' < a + n).
Proof.
  revert a best best_idx. induction n as [|n IH]; intros a best best_idx Hle.
  - exists best, best_idx. split; [reflexivity | left; reflexivity].
  - destruct (index_lt v_texts a) as (x & _ & Hi); [lia|].
    simpl. rewrite Hi. simpl.
    destruct (Qltb best (fuzz_ratio t_text x)).
    + destruct (IH (S a) (fuzz_ratio t_text x) a) as (b' & i' & Hrun & Hrange); [lia|].
      exists b', i'. split; [exact Hrun|]. right. lia.
    + destruct (IH (S a) best best_idx) as (b' & i' & Hrun & Hrange); [lia|].
      exists b', i'. split; [exact Hrun|]. destruct Hrange; [left; assumption | right; lia].
Qed.

Lemma best_in_window_range (vs : list Segment) (v_texts : list string)
    (t_text : string) (v_idx : nat) :
  length v_texts = length vs -> v_idx < length vs ->
  exists best best_idx,
    best_in_window vs v_texts t_text v_idx = Ok (best, best_idx)
    /\ v_idx <= best_idx < length vs.
Proof.
  intros Hlen Hlt. unfold best_in_window, range.
  destruct (window_search v_texts t_text
              (Nat.min (v_idx + window_size) (length vs) - v_idx) v_idx 0.0%Q v_idx)
    as (b & i & Hrun & Hrange); [lia|].
  exists b, i. split; [exact Hrun|]. lia.
Qed.

Lemma t_side_v_only (l : list Segment) : t_side (v_only <$> l) = [].
Proof. induction l; [reflexivity | assumption]. Qed.

Lemma v_side_v_only (l : list Segment) : v_side (v_only <$> l) = l.
Proof.
  induction l as [|x l IH]; [reflexivity|].
  unfold v_side in *. cbn. f_equal. exact IH.
Qed.

Lemma no_empty_v_only (l : list Segment) :
  Forall (fun p => is_empty p = false) (v_only <$> l).
Proof. induction l; constructor; [reflexivity | assumption]. Qed.

Lemma aligned_upto_snoc_t ts vs t_idx v_idx pairs t :
  aligned_upto ts vs t_idx v_idx pairs -> ts !! t_idx = Some t ->
  aligned_upto ts vs (t_idx + 1) v_idx (pairs ++ [mkAlignedPair (Some t) None 0.0%Q]).
Proof.
  intros (Ht & Hv & Hne) Hl. unfold aligned_upto, t_side, v_side in *.
  rewrite !omap_app, Ht, Hv. simpl. rewrite app_nil_r.
  replace (t_idx + 1) with (S t_idx) by lia. rewrite (take_S_r _ _ _ Hl).
  repeat split; try reflexivity.
  apply Forall_app_2; [assumption | constructor; [reflexivity | constructor]].
Qed.

Lemma aligned_upto_snoc_v ts vs t_idx v_idx pairs v :
  aligned_upto ts vs t_idx v_idx pairs -> vs !! v_idx = Some v ->
  aligned_upto ts vs t_idx (v_idx + 1) (pairs ++ [mkAlignedPair None (Some v) 0.0%Q]).
Proof.
  intros (Ht & Hv & Hne) Hl. unfold aligned_upto, t_side, v_side in *.
  rewrite !omap_app, Ht, Hv. simpl. rewrite app_nil_r.
  replace (v_idx + 1) with (S v_idx) by lia. rewrite (take_S_r _ _ _ Hl).
  repeat split; try reflexivity.
  apply Forall_app_2; [assumption | constructor; [reflexivity | constructor]].
Qed.

Lemma aligned_upto_match ts vs t_idx v_idx best_idx pairs t v q :
  aligned_upto ts vs t_idx v_idx pairs ->
  v_idx <= best_idx -> ts !! t_idx = Some t -> vs !! best_idx = Some v ->
  aligned_upto ts vs (t_idx + 1) (best_idx + 1)
    ((pairs ++ (v_only <$> take (best_idx - v_idx) (drop v_idx vs)))
       ++ [mkAlignedPair (Some t) (Some v) q]).
Proof.
  intros (Ht & Hv & Hne) Hle Hlt Hlv. unfold aligned_upto.
  unfold t_side, v_side in *. rewrite !omap_app.
  fold (t_side (v_only <$> take (best_idx - v_idx) (drop v_idx vs))).
  fold (v_side (v_only <$> take (best_idx - v_idx) (drop v_idx vs))).
  rewrite t_side_v_only, v_side_v_only, Ht, Hv. simpl. rewrite app_nil_r.
  rewrite take_take_drop.
  replace (v_idx + (best_idx - v_idx)) with best_idx by lia.
  replace (t_idx + 1) with (S t_idx) by lia.
  replace (best_idx + 1) with (S best_idx) by lia.
  rewrite (take_S_r _ _ _ Hlt), (take_S_r _ _ _ Hlv).
  repeat split; try reflexivity.
  apply Forall_app_2; [apply Forall_app_2; [assumption | apply no_empty_v_only]|].
  constructor; [reflexivity | constructor].
Qed.

(** The loop returns when its fuel covers the segments still to place,
    and then every segment of both sequences has been placed. *)
Lemma align_loop_total (ts vs : list Segment) (t_texts v_texts : list string)
    (fuel t_idx v_idx : nat) (pairs : list AlignedPair) :
  length t_texts = length ts -> length v_texts = length vs ->
  t_idx <= length ts -> v_idx <= length vs ->
  (length ts - t_idx) + (length vs - v_idx) <= fuel ->
  aligned_upto ts vs t_idx v_idx pairs ->
  exists pairs',
    align_loop ts vs t_texts v_texts fuel t_idx v_idx pairs = Ok pairs'
    /\ aligned_upto ts vs (length ts) (length vs) pairs'.
Proof.
  intros Htl Hvl. revert t_idx v_idx pairs.
  induction fuel as [|fuel IH]; intros t_idx v_idx pairs Hti Hvi Hfuel Hinv.
  - assert (t_idx = length ts) as -> by lia.
    assert (v_idx = length vs) as -> by lia.
    exists pairs. split; [|exact Hinv].
    simpl. rewrite !Nat.ltb_irrefl. reflexivity.
  - cbn [align_loop].
    destruct (t_idx <? length ts) eqn:Et, (v_idx <? length vs) eqn:Ev;
      simpl negb; cbv iota.
    + apply Nat.ltb_lt in Et, Ev.
      assert (E1 : (length ts <=? t_idx) = false) by (apply Nat.leb_gt; lia).
      assert (E2 : (length vs <=? v_idx) = false) by (apply Nat.leb_gt; lia).
      rewrite E1, E2.
      destruct (index_lt t_texts t_idx) as (t_text & _ & Hit); [lia|].
      destruct (index_lt ts t_idx Et) as (t & Hlt & Hi).
      rewrite Hit. simpl.
      destruct (best_in_window_range vs v_texts t_text v_idx Hvl Ev)
        as (best & best_idx & Hbest & Hrange).
      rewrite Hbest. simpl.
      destruct (Qltb 50 best).
      * unfold range. rewrite v_only_loop by lia. simpl.
        destruct (index_lt vs best_idx) as (v & Hlv & Hiv); [lia|].
        rewrite Hi, Hiv. simpl.
        apply IH; [lia | lia | lia |].
        apply aligned_upto_match; [assumption | lia | assumption | assumption].
      * rewrite Hi. simpl.
        apply IH; [lia | lia | lia |].
        apply aligned_upto_snoc_t; assumption.
    + apply Nat.ltb_lt in Et. apply Nat.ltb_ge in Ev.
      assert (E1 : (length ts <=? t_idx) = false) by (apply Nat.leb_gt; lia).
      assert (E2 : (length vs <=? v_idx) = true) by (apply Nat.leb_le; lia).
      rewrite E1, E2.
      destruct (index_lt ts t_idx Et) as (t & Hlt & Hi).
      rewrite Hi. simpl.
      apply IH; [lia | lia | lia |].
      apply aligned_upto_snoc_t; assumption.
    + apply Nat.ltb_ge in Et. apply Nat.ltb_lt in Ev.
      assert (E1 : (length ts <=? t_idx) = true) by (apply Nat.leb_le; lia).
      rewrite E1.
      destruct (index_lt vs v_idx Ev) as (v & Hlv & Hi).
      rewrite Hi. simpl.
      apply IH; [lia | lia | lia |].
      apply aligned_upto_snoc_v; assumption.
    + apply Nat.ltb_ge in Et, Ev.
      assert (t_idx = length ts) as -> by lia.
      assert (v_idx = length vs) as -> by lia.
      exists pairs. split; [reflexivity | exact Hinv].
Qed.
End AlignerFacts.

(** C5. For every pair of input sequences, empty ones included,
    [align_segments] returns (the loop ends within its fuel, nothing is
    raised), and every input segment sits in exactly one pair: read in
    order, the T sides of the pairs are the T sequence and the V sides are
    the V sequence, and no pair is empty. *)
Theorem align_segments_total (t_segments v_segments : list Segment) :
  exists pairs,
    align_segments t_segments v_segments = Ok pairs
    /\ t_side pairs = t_segments
    /\ v_side pairs = v_segments
    /\ Forall (fun p => is_empty p = false) pairs.
Proof.
  assert (Hgen : exists pairs,
    align_loop t_segments v_segments
      (map (fun seg => normalize_text (text seg)) t_segments)
      (map (fun seg => normalize_text (text seg)) v_segments)
      (length t_segments + length v_segments) 0 0 [] = Ok pairs
    /\ aligned_upto t_segments v_segments (length t_segments) (length v_segments) pairs).
  { apply align_loop_total; try (rewrite length_map; reflexivity); try lia.
    repeat split; constructor. }
  destruct Hgen as (pairs & Hrun & Ht & Hv & Hne).
  rewrite take_ge in Ht by reflexivity. rewrite take_ge in Hv by reflexivity.
  destruct t_segments as [|t ts], v_segments as [|v vs].
  - exists []. repeat split; constructor.
  - exists pairs. split; [exact Hrun | repeat split; assumption].
  - exists pairs. split; [exact Hrun | repeat split; assumption].
  - exists pairs. split; [exact Hrun | repeat split; assumption].
Qed.

(** *** Similarity of a text with itself *)

Lemma lcs_len_refl (l : list ascii) : lcs_len l l = length l.
Proof.
  induction l as [|x l IH]; [reflexivity|].
  simpl. rewrite Ascii.eqb_refl, IH. reflexivity.
Qed.

Lemma length_list_ascii_of_string (s : string) :
  length (list_ascii_of_string s) = len s.
Proof. induction s as [|c s IH]; [reflexivity | simpl; rewrite IH; reflexivity]. Qed.

Lemma fuzz_ratio_self (s : string) : fuzz_ratio s s == 100.
Proof.
  unfold fuzz_ratio. rewrite lcs_len_refl, length_list_ascii_of_string.
  replace (len s + len s - 2 * len s)%nat with O by lia.
  destruct (len s + len s =? 0)%nat; [reflexivity|].
  assert (Hz : Qnat 0 / Qnat (len s + len s) == 0).
  { unfold Qdiv. apply Qmult_0_l. }
  rewrite Hz. reflexivity.
Qed.

Lemma fuzz_ratio_le_100 (s1 s2 : string) : fuzz_ratio s1 s2 <= 100.
Proof.
  unfold fuzz_ratio.
  set (m := (len s1 + len s2)%nat).
  set (d := (m - 2 * lcs_len (list_ascii_of_string s1) (list_ascii_of_string s2))%nat).
  destruct (m =? 0)%nat eqn:Em; [lra|].
  apply Nat.eqb_neq in Em.
  assert (Hd : 0 <= Qnat d / Qnat m).
  { apply Qle_shift_div_l; [apply Qnat_pos; lia|].
    rewrite Qmult_0_l. apply Qnat_nonneg. }
  lra.
Qed.

Section IdenticalSequences.
Local Open Scope nat_scope.

(** Once the best similarity is 100 the window search changes nothing. *)
Lemma window_search_at_max (v_texts : list string) (t_text : string) (n a : nat)
    (best : Q) (best_idx : nat) :
  (100 <= best)%Q -> a + n <= length v_texts ->
  for_each (seq a n)
    (fun '(best_similarity, best_v_idx) i =>
       v_text ← index v_texts i;
       let similarity := fuzz_ratio t_text v_text in
       if Qltb best_similarity similarity then Ok (similarity, i)
       else Ok (best_similarity, best_v_idx))
    (best, best_idx)
  = Ok (best, best_idx).
Proof.
  intros Hmax. revert a. induction n as [|n IH]; intros a Hle; [reflexivity|].
  destruct (index_lt v_texts a) as (x & _ & Hi); [lia|].
  simpl. rewrite Hi. simpl.
  assert (E : Qltb best (fuzz_ratio t_text x) = false).
  { apply Qltb_false. pose proof (fuzz_ratio_le_100 t_text x). lra. }
  rewrite E. apply IH. lia.
Qed.

Lemma best_in_window_self (vs : list Segment) (v_texts : list string)
    (t_text : string) (v_idx : nat) :
  length v_texts = length vs -> v_texts !! v_idx = Some t_text ->
  best_in_window vs v_texts t_text v_idx = Ok (fuzz_ratio t_text t_text, v_idx).
Proof.
  intros Hlen Hl. pose proof (lookup_lt_Some _ _ _ Hl) as Hlt.
  unfold best_in_window, range, window_size.
  destruct (Nat.min (v_idx + 3) (length vs) - v_idx) as [|n] eqn:En; [lia|].
  simpl. rewrite (index_lookup _ _ _ Hl). simpl.
  assert (E : Qltb 0.0 (fuzz_ratio t_text t_text) = true).
  { apply Qltb_true. rewrite fuzz_ratio_self. reflexivity. }
  rewrite E. apply window_search_at_max; [|lia].
  rewrite fuzz_ratio_self. apply Qle_refl.
Qed.

Lemma align_loop_self (ss : list Segment) (fuel k : nat) (pairs : list AlignedPair) :
  k <= length ss -> length ss - k <= fuel ->
  align_loop ss ss (map norm_text ss) (map norm_text ss) fuel k k pairs
  = Ok (pairs ++ (self_pair <$> drop k ss)).
Proof.
  revert k pairs. induction fuel as [|fuel IH]; intros k pairs Hk Hfuel.
  - assert (k = length ss) as -> by lia.
    simpl. rewrite Nat.ltb_irrefl. simpl.
    rewrite drop_ge by reflexivity. simpl. rewrite app_nil_r. reflexivity.
  - cbn [align_loop]. destruct (k <? length ss) eqn:Ek; simpl negb; cbv iota.
    + apply Nat.ltb_lt in Ek.
      assert (E1 : (length ss <=? k) = false) by (apply Nat.leb_gt; lia).
      rewrite E1.
      destruct (index_lt ss k Ek) as (s & Hl & Hi).
      assert (Hlt : map norm_text ss !! k = Some (norm_text s)).
      { change (map norm_text ss) with (norm_text <$> ss).
        rewrite list_lookup_fmap, Hl. reflexivity. }
      rewrite (index_lookup _ _ _ Hlt). simpl.
      rewrite (best_in_window_self ss (map norm_text ss) (norm_text s) k)
        by (try apply length_map; assumption).
      simpl.
      assert (E : Qltb 50 (fuzz_ratio (norm_text s) (norm_text s)) = true).
      { apply Qltb_true. rewrite fuzz_ratio_self. reflexivity. }
      rewrite E. unfold range. rewrite Nat.sub_diag. simpl.
      rewrite Hi. simpl. rewrite IH by lia.
      rewrite (drop_S ss s k Hl). replace (k + 1) with (S k) by lia.
      simpl. rewrite <- app_assoc. reflexivity.
    + apply Nat.ltb_ge in Ek. assert (k = length ss) as -> by lia.
      rewrite drop_ge by reflexivity. simpl. rewrite app_nil_r. reflexivity.
Qed.

Lemma align_segments_self (ss : list Segment) :
  align_segments ss ss = Ok (self_pair <$> ss).
Proof.
  unfold align_segments. destruct ss as [|s ss']; [reflexivity|].
  set (l := s :: ss').
  change (map (fun seg => normalize_text (text seg)) l) with (map norm_text l).
  rewrite (align_loop_self l (length l + length l) 0 []) by lia.
  reflexivity.
Qed.
End IdenticalSequences.

(** C6. For every non-empty sequence S of segments, [align_segments S S]
    returns exactly [len(S)] pairs, and the k-th pair matches S[k] with S[k]
    with similarity 1. *)
Theorem align_segments_identical (ss : list Segment) :
  ss <> [] ->
  exists pairs,
    align_segments ss ss = Ok pairs
    /\ length pairs = length ss
    /\ forall (k : nat) (s : Segment), ss !! k = Some s ->
         exists p, pairs !! k = Some p
                   /\ t_seg p = Some s /\ v_seg p = Some s /\ similarity p == 1.
Proof.
  intros _. exists (self_pair <$> ss). split; [apply align_segments_self|].
  split; [apply length_fmap|].
  intros k s Hl. exists (self_pair s). split.
  - rewrite list_lookup_fmap, Hl. reflexivity.
  - repeat split. simpl. rewrite fuzz_ratio_self. reflexivity.
Qed.

Lemma align_segments_identical_witness :
  exists pairs,
    align_segments [mkSegment "Hello world" 0 11 SENTENCE; mkSegment "Goodbye" 11 18 SENTENCE]
                   [mkSegment "Hello world" 0 11 SENTENCE; mkSegment "Goodbye" 11 18 SENTENCE]
    = Ok pairs
    /\ length pairs = 2%nat.
Proof.
  destruct (align_segments_identical
              [mkSegment "Hello world" 0 11 SENTENCE; mkSegment "Goodbye" 11 18 SENTENCE])
    as (pairs & Hrun & Hlen & _).
  - discriminate.
  - exists pairs. split; [exact Hrun | exact Hlen].
Defined.

(** ** A page without V segments *)

Section EmptyVSequence.
Local Open Scope nat_scope.

Lemma align_loop_no_v (ts : list Segment) (t_texts : list string)
    (fuel t_idx : nat) (pairs : list AlignedPair) :
  t_idx <= length ts -> length ts - t_idx <= fuel ->
  align_loop ts [] t_texts [] fuel t_idx 0 pairs
  = Ok (pairs ++ (t_only <$> drop t_idx ts)).
Proof.
  revert t_idx pairs. induction fuel as [|fuel IH]; intros t_idx pairs Hle Hfuel.
  - assert (t_idx = length ts) as -> by lia.
    simpl. rewrite Nat.ltb_irrefl. simpl.
    rewrite drop_ge by reflexivity. simpl. rewrite app_nil_r. reflexivity.
  - cbn [align_loop]. simpl length.
    destruct (t_idx <? length ts) eqn:Et; simpl.
    + apply Nat.ltb_lt in Et.
      assert (E1 : (length ts <=? t_idx) = false) by (apply Nat.leb_gt; lia).
      rewrite E1.
      destruct (index_lt ts t_idx Et) as (t & Hl & Hi).
      rewrite Hi. simpl. rewrite IH by lia.
      rewrite (drop_S ts t t_idx Hl). replace (t_idx + 1) with (S t_idx) by lia.
      simpl. rewrite <- app_assoc. reflexivity.
    + apply Nat.ltb_ge in Et. assert (t_idx = length ts) as -> by lia.
      rewrite drop_ge by reflexivity. simpl. rewrite app_nil_r. reflexivity.
Qed.

Lemma align_segments_no_v (ts : list Segment) :
  align_segments ts [] = Ok (t_only <$> ts).
Proof.
  unfold align_segments. destruct ts as [|t ts']; [reflexivity|].
  rewrite align_loop_no_v by (simpl; lia). reflexivity.
Qed.

Lemma choose_segment_no_v (t : Segment) (t_score v_score : Q)
    (config : HeuristicsConfig) :
  text t <> EmptyString ->
  choose_segment (Some t) None t_score v_score config
  = Ok (mkChoice T (text t) "V segment missing").
Proof.
  intros Hne. unfold choose_segment.
  rewrite (present_nonempty_text t Hne). reflexivity.
Qed.

Lemma select_pair_t_only cls config page_num ts vs segs recs amb seg_idx t :
  text t <> EmptyString ->
  select_pair cls config page_num ts vs (segs, recs, amb) (seg_idx, t_only t)
  = Ok (segs ++ [text t], recs ++ [t_only_record cls page_num seg_idx t], amb).
Proof.
  intros Hne. unfold select_pair. simpl.
  unfold score_or_zero. rewrite (present_nonempty_text t Hne).
  rewrite (choose_segment_no_v t _ _ config Hne). reflexivity.
Qed.

Lemma select_loop_t_only cls config page_num ts vs (l : list Segment) :
  Forall (fun t => text t <> EmptyString) l ->
  forall a segs recs amb,
    for_each (zip (seq a (length l)) (t_only <$> l))
      (select_pair cls config page_num ts vs) (segs, recs, amb)
    = Ok (segs ++ (text <$> l),
          recs ++ zip_with (t_only_record cls page_num) (seq a (length l)) l,
          amb).
Proof.
  induction 1 as [|t l Ht Hl IH]; intros a segs recs amb.
  - simpl. rewrite !app_nil_r. reflexivity.
  - change (zip (seq a (length (t :: l))) (t_only <$> t :: l))
      with ((a, t_only t) :: zip (seq (S a) (length l)) (t_only <$> l)).
    cbn [for_each]. rewrite (select_pair_t_only _ _ _ _ _ _ _ _ _ _ Ht).
    cbn [mbind result_bind]. rewrite IH. simpl. rewrite <- !app_assoc. reflexivity.
Qed.
End EmptyVSequence.

(** C7. For a non-empty T sequence of segments with non-empty text and an
    empty V sequence, [align_segments] yields the pairs (T[i], None, 0.0) in
    order, [choose_segment] answers source T with the segment's text on each
    of them, and the page comes out as the T texts, each with a record of
    source T. *)
Theorem empty_v_sequence_resolves_to_T {Bk : Type} `{AdjudicatorBackend Bk}
    (cls : ProvenanceRecord_class) (config : HeuristicsConfig)
    (backend : option Bk) (page : nat) (ts : list Segment) :
  ts <> [] ->
  Forall (fun t => text t <> EmptyString) ts ->
  align_segments ts [] = Ok ((fun t => mkAlignedPair (Some t) None 0.0) <$> ts)
  /\ (forall (t : Segment) (t_score v_score : Q) (cfg : HeuristicsConfig),
        t ∈ ts ->
        exists choice,
          choose_segment (Some t) None t_score v_score cfg = Ok choice
          /\ source choice = T /\ selected_text choice = text t)
  /\ exists recs,
       process_page cls config backend page ts [] = Ok (text <$> ts, recs, [], backend)
       /\ length recs = length ts
       /\ forall (k : nat) (t : Segment), ts !! k = Some t ->
            exists r, recs !! k = Some r
                      /\ rec_source r = T /\ chosen_text r = text t
                      /\ segment_idx r = k /\ page_num r = page.
Proof.
  intros _ Hne. split; [apply align_segments_no_v|]. split.
  - intros t t_score v_score cfg Hin.
    rewrite Forall_forall in Hne.
    exists (mkChoice T (text t) "V segment missing").
    split; [apply choose_segment_no_v, Hne, Hin | split; reflexivity].
  - exists (zip_with (t_only_record cls page) (seq 0 (length ts)) ts).
    split; [|split].
    + unfold process_page. rewrite align_segments_no_v. simpl.
      unfold enumerate. rewrite length_fmap.
      rewrite (select_loop_t_only cls config page ts [] ts Hne). simpl.
      reflexivity.
    + rewrite length_zip_with_r_eq; [reflexivity | symmetry; apply length_seq].
    + intros k t Hl. exists (t_only_record cls page k t). split.
      * rewrite lookup_zip_with, Hl.
        rewrite (proj2 (lookup_seq 0 (length ts) k k)); [reflexivity|].
        split; [reflexivity | apply (lookup_lt_Some _ _ _ Hl)].
      * repeat split.
Qed.

Lemma empty_v_sequence_resolves_to_T_witness :
  align_segments [mkSegment "Hello world" 0 11 SENTENCE] []
  = Ok [mkAlignedPair (Some (mkSegment "Hello world" 0 11 SENTENCE)) None 0.0]
  /\ exists recs,
       process_page (define_ProvenanceRecord 0%Z) default_heuristics
         (Some mock_adjudicator_backend) 0 [mkSegment "Hello world" 0 11 SENTENCE] []
       = Ok (["Hello world"], recs, [], Some mock_adjudicator_backend)
       /\ length recs = 1%nat.
Proof.
  destruct (empty_v_sequence_resolves_to_T (define_ProvenanceRecord 0%Z) default_heuristics
              (Some mock_adjudicator_backend) 0 [mkSegment "Hello world" 0 11 SENTENCE])
    as (Halign & _ & recs & Hrun & Hlen & _).
  - discriminate.
  - repeat constructor. discriminate.
  - split; [exact Halign|]. exists recs. split; [exact Hrun | exact Hlen].
Defined.

(** ** Context of an ambiguous pair *)

Lemma choose_segment_ambiguous_present (t_seg v_seg : option Segment)
    (t_score v_score : Q) (config : HeuristicsConfig) (choice : Choice) :
  choose_segment t_seg v_seg t_score v_score config = Ok choice ->
  source choice = AMBIGUOUS ->
  exists t v, present t_seg = Some t /\ present v_seg = Some v.
Proof.
  unfold choose_segment.
  destruct (present t_seg) as [t|], (present v_seg) as [v|];
    try (intros [= <-]; discriminate).
  intros _ _. exists t, v. split; reflexivity.
Qed.

Lemma build_context_past_end (segments : list Segment) (idx max_length : nat) :
  (length segments < idx)%nat ->
  build_context segments idx max_length = Raise IndexError.
Proof.
  intros Hlt. unfold build_context.
  assert (E : (0 <? idx)%nat = true) by (apply Nat.ltb_lt; lia).
  rewrite E. rewrite (index_ge segments (idx - 1)) by lia. reflexivity.
Qed.

(** The pipeline hands [build_context] the T sequence together with the
    position of the pair among the aligned pairs: what [build_context]
    raises there, the loop body raises. *)
Lemma select_pair_context_index (cls : ProvenanceRecord_class) (config : HeuristicsConfig)
    (page_num : nat) (t_segments v_segments : list Segment)
    (st : list string * list ProvenanceRecord * list AmbiguousPair)
    (seg_idx : nat) (apair : AlignedPair) (choice : Choice) (e : exn) :
  choose_segment (t_seg apair) (v_seg apair)
    (score_or_zero (t_seg apair)) (score_or_zero (v_seg apair)) config = Ok choice ->
  source choice = AMBIGUOUS ->
  build_context t_segments seg_idx 200 = Raise e ->
  select_pair cls config page_num t_segments v_segments st (seg_idx, apair) = Raise e.
Proof.
  intros Hc Hs Hb.
  destruct (choose_segment_ambiguous_present _ _ _ _ _ _ Hc Hs) as (t & v & Ht & Hv).
  unfold select_pair. destruct st as [[segs recs] amb]. simpl fst. simpl snd.
  assert (Hne : is_empty apair = false).
  { unfold is_empty. apply present_Some in Ht as [-> _]. reflexivity. }
  rewrite Hne, Hc. cbn [mbind result_bind]. rewrite Hs, Ht, Hv.
  assert (Htr : truthy (t_seg apair) = true).
  { unfold present in Ht. destruct (truthy (t_seg apair)); [reflexivity | discriminate]. }
  rewrite Htr, Hb. reflexivity.
Qed.

(** C9. [build_context] reads [segments[idx - 1]] unguarded and so raises
    IndexError for every [idx > len(segments)]; the pipeline calls it on the
    T sequence with the position of the pair among the aligned pairs; and
    that position exceeds [len(t_segments)] when V-only pairs come first: on
    T = ["abcd"], V = ["x", "y", "abcdefg"] the ambiguous pair has index 2
    and the page raises IndexError. *)
Theorem build_context_raises_on_pair_index :
  (forall (segments : list Segment) (idx max_length : nat),
     (length segments < idx)%nat ->
     build_context segments idx max_length = Raise IndexError)
  /\ (forall cls config page_num t_segments v_segments st seg_idx apair choice e,
        choose_segment (t_seg apair) (v_seg apair)
          (score_or_zero (t_seg apair)) (score_or_zero (v_seg apair)) config = Ok choice ->
        source choice = AMBIGUOUS ->
        build_context t_segments seg_idx 200 = Raise e ->
        select_pair cls config page_num t_segments v_segments st (seg_idx, apair)
        = Raise e)
  /\ (let t0 := mkSegment "abcd" 0 4 SENTENCE in
      let v0 := mkSegment "x" 0 1 SENTENCE in
      let v1 := mkSegment "y" 1 2 SENTENCE in
      let v2 := mkSegment "abcdefg" 2 9 SENTENCE in
      (exists q, align_segments [t0] [v0; v1; v2]
                 = Ok [mkAlignedPair None (Some v0) 0.0;
                       mkAlignedPair None (Some v1) 0.0;
                       mkAlignedPair (Some t0) (Some v2) q])
      /\ (exists choice,
            choose_segment (Some t0) (Some v2) (score_segment t0) (score_segment v2)
              default_heuristics = Ok choice
            /\ source choice = AMBIGUOUS)
      /\ (length [t0] < 2)%nat
      /\ process_page (define_ProvenanceRecord 0%Z) default_heuristics
           (Some mock_adjudicator_backend) 0 [t0] [v0; v1; v2]
         = Raise IndexError).
Proof.
  split; [exact build_context_past_end|]. split; [exact select_pair_context_index|].
  cbv zeta. split; [eexists; vm_compute; reflexivity|].
  split; [eexists; split; vm_compute; reflexivity|].
  split; [simpl; lia | vm_compute; reflexivity].
Qed.

Lemma build_context_raises_on_pair_index_witness :
  build_context [mkSegment "abcd" 0 4 SENTENCE] 2 200 = Raise IndexError.
Proof.
  apply (proj1 build_context_raises_on_pair_index). simpl. lia.
Defined.

(** ** Default timestamp *)

Lemma bind_Ok {X Y : Type} (r : result X) (k : X -> result Y) (y : Y) :
  r ≫= k = Ok y -> exists x, r = Ok x /\ k x = Ok y.
Proof.
  destruct r as [x| |]; simpl; intros Hk; try discriminate.
  exists x. split; [reflexivity | exact Hk].
Qed.

(** A property of the loop state kept by every iteration holds at the end. *)
Lemma for_each_invariant {X S : Type} (P : S -> Prop) (xs : list X)
    (body : S -> X -> result S) :
  (forall s x s', P s -> body s x = Ok s' -> P s') ->
  forall acc res, P acc -> for_each xs body acc = Ok res -> P res.
Proof.
  intros Hstep. induction xs as [|x xs IH]; intros acc res Hacc Hrun.
  - injection Hrun as <-. exact Hacc.
  - simpl in Hrun. apply bind_Ok in Hrun as (s' & Hb & Hrest).
    apply (IH s' res); [apply (Hstep acc x s' Hacc Hb) | exact Hrest].
Qed.

Lemma ProvenanceRecord_new_default_timestamp (cls : ProvenanceRecord_class)
    (page_num segment_idx : nat) (source : Source) (llm_pick : option Pick)
    (t_score v_score : Q) (chosen_text : string) (backend_used : option string)
    (r : ProvenanceRecord) :
  ProvenanceRecord_new cls page_num segment_idx source llm_pick t_score v_score
    chosen_text backend_used None = Ok r ->
  timestamp r = timestamp_default cls.
Proof.
  unfold ProvenanceRecord_new. destruct source; intros [= <-]; reflexivity.
Qed.

Lemma default_stamped_snoc cls recs r :
  default_stamped cls recs -> timestamp r = timestamp_default cls ->
  default_stamped cls (recs ++ [r]).
Proof.
  intros Hrecs Hr. apply Forall_app_2; [exact Hrecs | constructor; [exact Hr | constructor]].
Qed.

Lemma select_pair_default_stamped cls config page_num ts vs st item st' :
  default_stamped cls st.1.2 ->
  select_pair cls config page_num ts vs st item = Ok st' ->
  default_stamped cls st'.1.2.
Proof.
  destruct st as [[segs recs] amb]. simpl. intros Hrecs. unfold select_pair.
  destruct (is_empty item.2); [intros [= <-]; exact Hrecs|].
  intros Hrun. apply bind_Ok in Hrun as (choice & _ & Hrun).
  destruct (source choice) eqn:Es.
  3: { apply bind_Ok in Hrun as (amb' & _ & Hrun).
       apply bind_Ok in Hrun as (sel & _ & Hrun).
       injection Hrun as <-. exact Hrecs. }
  all: apply bind_Ok in Hrun as (r & Hr & Hrun); injection Hrun as <-; simpl;
    apply default_stamped_snoc;
    [exact Hrecs | exact (ProvenanceRecord_new_default_timestamp _ _ _ _ _ _ _ _ _ _ Hr)].
Qed.

Lemma merge_adjudicated_default_stamped {Bk : Type} `{AdjudicatorBackend Bk}
    cls (backend : Bk) amb st item st' :
  default_stamped cls st.2 ->
  merge_adjudicated cls backend amb st item = Ok st' ->
  default_stamped cls st'.2.
Proof.
  destruct st as [segs recs], item as [i res]. simpl. intros Hrecs.
  unfold merge_adjudicated. intros Hrun.
  apply bind_Ok in Hrun as (p & _ & Hrun).
  simpl in Hrun. injection Hrun as <-. simpl.
  apply default_stamped_snoc; [exact Hrecs | reflexivity].
Qed.

Lemma process_page_default_stamped {Bk : Type} `{AdjudicatorBackend Bk}
    cls config (backend : option Bk) page_num ts vs segs recs printed backend' :
  process_page cls config backend page_num ts vs = Ok (segs, recs, printed, backend') ->
  default_stamped cls recs.
Proof.
  unfold process_page. intros Hrun.
  apply bind_Ok in Hrun as (pairs & _ & Hrun).
  apply bind_Ok in Hrun as ([[segs1 recs1] amb] & Hsel & Hrun).
  assert (H1 : default_stamped cls recs1).
  { change (default_stamped cls (segs1, recs1, amb).1.2).
    eapply (for_each_invariant (fun st => default_stamped cls st.1.2));
      [| | exact Hsel].
    - intros s x s'. apply select_pair_default_stamped.
    - constructor. }
  unfold adjudicate_page in Hrun.
  destruct amb as [|a amb], backend as [b|];
    try (injection Hrun as <- <- <- <-; exact H1).
  apply bind_Ok in Hrun as ([[results pr] b'] & _ & Hrun).
  apply bind_Ok in Hrun as ([segs2 recs2] & Hmerge & Hrun).
  injection Hrun as <- <- <- <-.
  change (default_stamped cls (segs2, recs2).2).
  eapply (for_each_invariant (fun st => default_stamped cls st.2));
    [| | exact Hmerge].
  - intros s x s'. apply merge_adjudicated_default_stamped.
  - exact H1.
Qed.

Lemma extract_default_stamped {Bk : Type} `{AdjudicatorBackend Bk}
    cls config (backend : option Bk) pages res printed backend' :
  extract cls config backend pages = Ok (res, printed, backend') ->
  default_stamped cls (records res).
Proof.
  unfold extract. intros Hrun.
  apply bind_Ok in Hrun as ([[[segs recs] pr] b] & Hloop & Hrun).
  apply bind_Ok in Hrun as (md & _ & Hrun). injection Hrun as <- <- <-. simpl.
  change (default_stamped cls (segs, recs, pr, b).1.1.2).
  eapply (for_each_invariant (fun st => default_stamped cls st.1.1.2));
    [| | exact Hloop].
  - intros [[[segs0 recs0] pr0] b0] [page_num [ts vs]] st' Hst Hbody. simpl in Hst.
    apply bind_Ok in Hbody as ([[[segs1 recs1] pr1] b1] & Hpage & Hbody).
    injection Hbody as <-. simpl.
    apply Forall_app_2;
      [exact Hst | exact (process_page_default_stamped _ _ _ _ _ _ _ _ _ _ Hpage)].
  - constructor.
Qed.

(** C10. The default of [timestamp] is evaluated once, when the class is
    defined: two records built without a [timestamp] argument carry the same
    timestamp, the clock reading of the class definition, and so do all the
    records of a run of the pipeline, whenever each one was built. *)
Theorem default_timestamp_is_class_definition_time
    (now : datetime)
    (page_num1 segment_idx1 : nat) (source1 : Source) (llm_pick1 : option Pick)
    (t_score1 v_score1 : Q) (chosen_text1 : string) (backend_used1 : option string)
    (page_num2 segment_idx2 : nat) (source2 : Source) (llm_pick2 : option Pick)
    (t_score2 v_score2 : Q) (chosen_text2 : string) (backend_used2 : option string)
    (r1 r2 : ProvenanceRecord) :
  ProvenanceRecord_new (define_ProvenanceRecord now) page_num1 segment_idx1 source1
    llm_pick1 t_score1 v_score1 chosen_text1 backend_used1 None = Ok r1 ->
  ProvenanceRecord_new (define_ProvenanceRecord now) page_num2 segment_idx2 source2
    llm_pick2 t_score2 v_score2 chosen_text2 backend_used2 None = Ok r2 ->
  timestamp r1 = timestamp r2
  /\ timestamp r1 = now
  /\ forall (Bk : Type) (backend_class : AdjudicatorBackend Bk)
       (config : HeuristicsConfig) (backend backend' : option Bk)
       (pages : list (list Segment * list Segment))
       (res : ExtractionResult) (printed : list string),
       extract (define_ProvenanceRecord now) config backend pages
       = Ok (res, printed, backend') ->
       Forall (fun r => timestamp r = now) (records res).
Proof.
  intros H1 H2.
  apply ProvenanceRecord_new_default_timestamp in H1, H2. simpl in H1, H2.
  split; [congruence|]. split; [exact H1|].
  intros Bk backend_class config backend backend' pages res printed Hrun.
  exact (extract_default_stamped _ _ _ _ _ _ _ Hrun).
Qed.

Lemma default_timestamp_is_class_definition_time_witness :
  timestamp (mkProvenanceRecord 0 0 T None 0.9 0.0 "first" None 1000%Z)
  = timestamp (mkProvenanceRecord 3 7 LLM (Some B) 0.5 0.5 "later" (Some "Mock") 1000%Z).
Proof.
  refine (proj1 (default_timestamp_is_class_definition_time 1000%Z
                   0 0 T None 0.9 0.0 "first" None
                   3 7 LLM (Some B) 0.5 0.5 "later" (Some "Mock") _ _ _ _)).
  - reflexivity.
  - reflexivity.
Defined.

(** ** Adjudication *)

Section Adjudication.
Context {Bk : Type} `{AdjudicatorBackend Bk}.
Local Open Scope nat_scope.

Lemma length_answers (pairs : list AmbiguousPair) (backend : Bk) :
  length (answers pairs backend) = length pairs.
Proof.
  revert backend. induction pairs as [|p pairs IH]; intros backend; [reflexivity|].
  simpl. rewrite IH. reflexivity.
Qed.

Lemma adjudicate_loop (pairs : list AmbiguousPair) :
  forall (results : list AdjudicationResult) (printed : list string) (backend : Bk),
    for_each pairs
      (fun '(results, printed, backend) apair =>
         let '(answer, backend) :=
           select backend
             (slice_to 200 (context_before apair))
             (text (amb_t_seg apair))
             (text (amb_v_seg apair))
             (slice_to 200 (context_after apair)) in
         try_except
           (result ← call answer;
            Ok (results ++ [result], printed, backend))
           (fun e =>
              Ok (results ++ [mkAdjudicationResult A (text (amb_t_seg apair))],
                  printed ++ ["Adjudication failed for segment "
                              +:+ pretty (amb_segment_idx apair) +:+ ": " +:+ exn_str e],
                  backend)))
      (results, printed, backend)
    = Ok (results ++ zip_with resolution pairs (answers pairs backend),
          printed ++ diagnostics pairs (answers pairs backend),
          backend_after pairs backend).
Proof.
  induction pairs as [|p pairs IH]; intros results printed backend.
  - simpl. rewrite !app_nil_r. reflexivity.
  - cbn [for_each answers backend_after zip_with diagnostics].
    unfold select_for at 1 2 3 4.
    destruct (select backend (slice_to 200 (context_before p)) (text (amb_t_seg p))
                (text (amb_v_seg p)) (slice_to 200 (context_after p)))
      as [answer backend1] eqn:Esel.
    assert (Hs : select_for backend p = (answer, backend1)) by exact Esel.
    destruct answer as [r|e]; simpl; rewrite IH, ?Hs; simpl;
      rewrite <- !app_assoc; reflexivity.
Qed.

Lemma adjudicate_batch_resolves (pairs : list AmbiguousPair) (backend : Bk) :
  adjudicate_batch pairs backend
  = Ok (zip_with resolution pairs (answers pairs backend),
        diagnostics pairs (answers pairs backend),
        backend_after pairs backend).
Proof. unfold adjudicate_batch. rewrite adjudicate_loop. reflexivity. Qed.

Lemma merge_adjudicated_step cls (backend : Bk) (amb : list AmbiguousPair)
    (segs : list string) (recs : list ProvenanceRecord) (i : nat)
    (apair : AmbiguousPair) (result : AdjudicationResult) :
  amb !! i = Some apair ->
  merge_adjudicated cls backend amb (segs, recs) (i, result)
  = Ok (segs ++ [adjudicated_text apair result],
        recs ++ [adjudicated_record cls backend apair result]).
Proof.
  intros Hl. unfold merge_adjudicated. rewrite (index_lookup _ _ _ Hl). reflexivity.
Qed.

Lemma merge_loop cls (backend : Bk) (amb : list AmbiguousPair)
    (results : list AdjudicationResult) :
  forall (a : nat) (segs : list string) (recs : list ProvenanceRecord),
    a + length results <= length amb ->
    for_each (zip (seq a (length results)) results)
      (merge_adjudicated cls backend amb) (segs, recs)
    = Ok (segs ++ zip_with adjudicated_text (drop a amb) results,
          recs ++ zip_with (adjudicated_record cls backend) (drop a amb) results).
Proof.
  induction results as [|res results IH]; intros a segs recs Hle.
  - simpl. rewrite !zip_with_nil_r, !app_nil_r. reflexivity.
  - simpl in Hle. destruct (index_lt amb a) as (p & Hl & Hi); [lia|].
    change (zip (seq a (length (res :: results))) (res :: results))
      with ((a, res) :: zip (seq (S a) (length results)) results).
    cbn [for_each]. rewrite (merge_adjudicated_step _ _ _ _ _ _ _ _ Hl).
    cbn [mbind result_bind]. rewrite IH by lia.
    rewrite (drop_S amb p a Hl). simpl. rewrite <- !app_assoc. reflexivity.
Qed.

Lemma adjudicate_page_resolves cls (backend : Bk) (pairs : list AmbiguousPair)
    (segs : list string) (recs : list ProvenanceRecord) :
  pairs <> [] ->
  adjudicate_page cls (Some backend) pairs segs recs
  = Ok (segs ++ zip_with adjudicated_text pairs
                  (zip_with resolution pairs (answers pairs backend)),
        recs ++ zip_with (adjudicated_record cls (backend_after pairs backend)) pairs
                  (zip_with resolution pairs (answers pairs backend)),
        diagnostics pairs (answers pairs backend),
        Some (backend_after pairs backend)).
Proof.
  intros Hne. unfold adjudicate_page. destruct pairs as [|p pairs]; [contradiction|].
  rewrite adjudicate_batch_resolves. cbn [mbind result_bind].
  unfold enumerate. rewrite merge_loop.
  - reflexivity.
  - rewrite length_zip_with_l_eq; [simpl; lia|].
    rewrite length_answers. reflexivity.
Qed.
End Adjudication.

(** C4, as the code has it. Whatever the backend does, no exception escapes
    [adjudicate_batch] and it returns one resolution per pair, in the order
    of the pairs; where [select] raised, the resolution is pick A with the
    text of the T segment. The record the pipeline then writes for that pair
    has source LLM, with llm_pick A and the T text: the pipeline labels every
    resolution of the batch LLM. *)
Theorem adjudication_failure_falls_back_to_A {Bk : Type} `{AdjudicatorBackend Bk}
    (cls : ProvenanceRecord_class) (backend : Bk) (pairs : list AmbiguousPair)
    (segs : list string) (recs : list ProvenanceRecord) :
  exists results printed backend',
    adjudicate_batch pairs backend = Ok (results, printed, backend')
    /\ length results = length pairs
    /\ (forall (i : nat) (apair : AmbiguousPair) (e : exn),
          pairs !! i = Some apair ->
          answers pairs backend !! i = Some (Raises e) ->
          results !! i = Some (mkAdjudicationResult A (text (amb_t_seg apair))))
    /\ (forall (i : nat) (apair : AmbiguousPair) (r : AdjudicationResult),
          pairs !! i = Some apair ->
          answers pairs backend !! i = Some (Returns r) ->
          results !! i = Some r)
    /\ (pairs <> [] ->
        exists new_segs new_recs,
          adjudicate_page cls (Some backend) pairs segs recs
          = Ok (segs ++ new_segs, recs ++ new_recs, printed, Some backend')
          /\ length new_recs = length pairs
          /\ forall (i : nat) (apair : AmbiguousPair) (e : exn),
               pairs !! i = Some apair ->
               answers pairs backend !! i = Some (Raises e) ->
               exists r, new_recs !! i = Some r
                         /\ rec_source r = LLM
                         /\ llm_pick r = Some A
                         /\ chosen_text r = text (amb_t_seg apair)
                         /\ page_num r = amb_page_num apair
                         /\ segment_idx r = amb_segment_idx apair).
Proof.
  exists (zip_with resolution pairs (answers pairs backend)),
         (diagnostics pairs (answers pairs backend)),
         (backend_after pairs backend).
  assert (Hlen : length (zip_with resolution pairs (answers pairs backend)) = length pairs).
  { apply length_zip_with_l_eq. rewrite length_answers. reflexivity. }
  split; [apply adjudicate_batch_resolves|]. split; [exact Hlen|].
  split; [|split].
  - intros i apair e Hp Ha. rewrite lookup_zip_with, Hp. simpl. rewrite Ha. reflexivity.
  - intros i apair r Hp Ha. rewrite lookup_zip_with, Hp. simpl. rewrite Ha. reflexivity.
  - intros Hne. eexists _, _. split; [apply adjudicate_page_resolves, Hne|]. split.
    + apply length_zip_with_l_eq. rewrite Hlen. reflexivity.
    + intros i apair e Hp Ha. eexists. split.
      * rewrite !lookup_zip_with, Hp. simpl. rewrite Ha. simpl. reflexivity.
      * repeat split.
Qed.

Lemma adjudication_failure_falls_back_to_A_witness :
  let apair := mkAmbiguousPair (mkSegment "abcd" 0 4 SENTENCE)
                 (mkSegment "abcdefg" 0 7 SENTENCE) "" "" 0 0 in
  exists results printed backend',
    adjudicate_batch [apair] raising_backend = Ok (results, printed, backend')
    /\ results !! 0%nat = Some (mkAdjudicationResult A "abcd").
Proof.
  intros apair.
  destruct (adjudication_failure_falls_back_to_A (define_ProvenanceRecord 0%Z)
              raising_backend [apair] [] [])
    as (results & printed & backend' & Hrun & _ & Hraise & _).
  exists results, printed, backend'. split; [exact Hrun|].
  apply (Hraise 0%nat apair (Exception "timeout")); reflexivity.
Defined.

(** C4 as stated fails in its last part: on the page T = ["abcd"],
    V = ["abcdefg"] the one pair is ambiguous, the backend raises, and the
    record written for the pair has source LLM. *)
Lemma adjudication_fallback_record_is_LLM :
  let t0 := mkSegment "abcd" 0 4 SENTENCE in
  let v0 := mkSegment "abcdefg" 0 7 SENTENCE in
  answers [mkAmbiguousPair t0 v0 "" "" 0 0] raising_backend
  = [Raises (Exception "timeout")]
  /\ exists r,
       process_page (define_ProvenanceRecord 0%Z) default_heuristics
         (Some raising_backend) 0 [t0] [v0]
       = Ok (["abcd"], [r], ["Adjudication failed for segment 0: timeout"],
             Some raising_backend)
       /\ segment_idx r = 0%nat
       /\ llm_pick r = Some A
       /\ ~ rec_source r <> LLM.
Proof.
  cbv zeta. split; [reflexivity|].
  eexists. split; [vm_compute; reflexivity|].
  split; [reflexivity|]. split; [reflexivity|].
  intros Hne. apply Hne. reflexivity.
Qed.

(** ** The page loop *)

(** C1. Two pages on which the code leaves the contract. On T = ["abcd"],
    V = ["abcdefg"] without a backend, the one aligned pair has both sides,
    is ambiguous, and nothing is emitted for it: no segment, no record. On
    T = ["abcd", "xyz"], V = ["abcdefg", "xyz"] with the mock backend, the
    adjudicated pair 0 is emitted after the pair 1. *)
Theorem ambiguous_pairs_dropped_or_appended :
  let t0 := mkSegment "abcd" 0 4 SENTENCE in
  let v0 := mkSegment "abcdefg" 0 7 SENTENCE in
  let t1 := mkSegment "xyz" 4 7 SENTENCE in
  let v1 := mkSegment "xyz" 7 10 SENTENCE in
  let cls := define_ProvenanceRecord 0%Z in
  (exists q, align_segments [t0] [v0] = Ok [mkAlignedPair (Some t0) (Some v0) q])
  /\ process_page cls default_heuristics (@None MockAdjudicatorBackend) 0 [t0] [v0]
     = Ok ([], [], [], None)
  /\ (exists q1 q2,
        align_segments [t0; t1] [v0; v1]
        = Ok [mkAlignedPair (Some t0) (Some v0) q1; mkAlignedPair (Some t1) (Some v1) q2])
  /\ exists r1 r0,
       process_page cls default_heuristics (Some mock_adjudicator_backend) 0
         [t0; t1] [v0; v1]
       = Ok (["xyz"; "abcd"], [r1; r0], [], Some mock_adjudicator_backend)
       /\ segment_idx r1 = 1%nat /\ rec_source r1 = T
       /\ segment_idx r0 = 0%nat /\ rec_source r0 = LLM.
Proof.
  cbv zeta. split; [eexists; vm_compute; reflexivity|].
  split; [vm_compute; reflexivity|].
  split; [eexists _, _; vm_compute; reflexivity|].
  eexists _, _. split; [vm_compute; reflexivity|]. repeat split.
Qed.

(** * Further properties *)

(** ** Selector: the decision table *)

Lemma Qnat_ratio_gt (a b : nat) :
  (0 < b)%nat -> (1.5 < Qnat a / Qnat b <-> (3 * b < 2 * a)%nat).
Proof.
  intros Hb. pose proof (Qnat_pos b Hb) as Hpos.
  assert (Hiff : 1.5 * Qnat b < Qnat a <-> (3 * b < 2 * a)%nat).
  { unfold Qnat, Qlt. simpl. lia. }
  rewrite <- Hiff. split.
  - intros H. apply (Qmult_lt_r _ _ _ Hpos) in H.
    unfold Qdiv in H. rewrite <- Qmult_assoc, (Qmult_comm (/ Qnat b)) in H.
    rewrite Qmult_inv_r, Qmult_1_r in H; [exact H | lra].
  - intros H. apply Qlt_shift_div_l; assumption.
Qed.

Lemma choose_segment_rule4 (t v : Segment) (t_score v_score : Q)
    (config : HeuristicsConfig) :
  text t <> EmptyString -> text v <> EmptyString ->
  ambiguity_condition t v t_score v_score config ->
  exists reason,
    choose_segment (Some t) (Some v) t_score v_score config
    = Ok (mkChoice AMBIGUOUS "" reason).
Proof.
  intros Ht Hv [Hband Hlen]. unfold choose_segment.
  rewrite !present_nonempty_text by assumption.
  apply Qltb_true in Hband. rewrite Hband.
  assert (Hmin : (0 < Nat.min (len (text t)) (len (text v)))%nat).
  { rewrite <- len_zero_empty in Ht, Hv. lia. }
  unfold int_div. destruct (Nat.eqb_spec (Nat.min (len (text t)) (len (text v))) 0); [lia|].
  cbn [mbind result_bind].
  apply (Qnat_ratio_gt _ _ Hmin) in Hlen. apply Qltb_true in Hlen. rewrite Hlen.
  eexists. reflexivity.
Qed.

Lemma choose_segment_below_rule4 (t v : Segment) (t_score v_score : Q)
    (config : HeuristicsConfig) :
  text t <> EmptyString -> text v <> EmptyString ->
  ~ ambiguity_condition t v t_score v_score config ->
  choose_segment (Some t) (Some v) t_score v_score config
  = Ok (deterministic_choice t v t_score v_score config).
Proof.
  intros Ht Hv Hna. unfold choose_segment, deterministic_choice.
  rewrite !present_nonempty_text by assumption.
  assert (Hmin : (0 < Nat.min (len (text t)) (len (text v)))%nat).
  { rewrite <- len_zero_empty in Ht, Hv. lia. }
  unfold int_div. destruct (Nat.eqb_spec (Nat.min (len (text t)) (len (text v))) 0); [lia|].
  assert (Hdet :
    (if has_structure v && negb (has_structure t)
     then Ok (mkChoice V (text v)
                ("V has " +:+ SegmentType_value (type v) +:+ " structure, T does not"))
     else if Qltb (v_score + score_margin config) t_score
     then Ok (mkChoice T (text t)
                ("T score higher by " +:+ format_fixed 3 (t_score - v_score)))
     else if Qltb (t_score + score_margin config) v_score
     then Ok (mkChoice V (text v)
                ("V score higher by " +:+ format_fixed 3 (v_score - t_score)))
     else Ok (mkChoice T (text t) "Default: text-first preferred"))
    = Ok (if has_structure v && negb (has_structure t)
          then mkChoice V (text v)
                 ("V has " +:+ SegmentType_value (type v) +:+ " structure, T does not")
          else if Qltb (v_score + score_margin config) t_score
          then mkChoice T (text t)
                 ("T score higher by " +:+ format_fixed 3 (t_score - v_score))
          else if Qltb (t_score + score_margin config) v_score
          then mkChoice V (text v)
                 ("V score higher by " +:+ format_fixed 3 (v_score - t_score))
          else mkChoice T (text t) "Default: text-first preferred")).
  { repeat (match goal with |- context [if ?b then _ else _] => destruct b end);
      reflexivity. }
  destruct (Qltb (Qabs (t_score - v_score)) (ambiguity_band config)) eqn:Eb;
    cbn [mbind result_bind]; [|exact Hdet].
  destruct (Qltb 1.5 _) eqn:El; [|exact Hdet].
  exfalso. apply Hna. split; [apply Qltb_true, Eb|].
  apply (Qnat_ratio_gt _ _ Hmin). apply Qltb_true, El.
Qed.

Lemma ambiguity_condition_dec (t v : Segment) (t_score v_score : Q)
    (config : HeuristicsConfig) :
  ambiguity_condition t v t_score v_score config
  \/ ~ ambiguity_condition t v t_score v_score config.
Proof.
  unfold ambiguity_condition.
  destruct (Qlt_le_dec (Qabs (t_score - v_score)) (ambiguity_band config)) as [Hb|Hb].
  - destruct (lt_dec (3 * Nat.min (len (text t)) (len (text v)))
                     (2 * Nat.max (len (text t)) (len (text v)))) as [Hl|Hl].
    + left. split; assumption.
    + right. intros [_ H]. contradiction.
  - right. intros [H _]. apply (Qlt_not_le _ _ H Hb).
Qed.

Lemma deterministic_choice_source (t v : Segment) (t_score v_score : Q)
    (config : HeuristicsConfig) :
  (source (deterministic_choice t v t_score v_score config) = T
   /\ selected_text (deterministic_choice t v t_score v_score config) = text t)
  \/ (source (deterministic_choice t v t_score v_score config) = V
      /\ selected_text (deterministic_choice t v t_score v_score config) = text v).
Proof.
  unfold deterministic_choice.
  repeat (match goal with |- context [if ?b then _ else _] => destruct b end);
    simpl; tauto.
Qed.

Lemma choose_segment_shape (t_seg v_seg : option Segment) (t_score v_score : Q)
    (config : HeuristicsConfig) :
  exists choice,
    choose_segment t_seg v_seg t_score v_score config = Ok choice
    /\ match source choice with
       | T => selected_text choice = from_option text EmptyString t_seg
       | V => exists v, v_seg = Some v /\ selected_text choice = text v
       | AMBIGUOUS => selected_text choice = EmptyString
       | LLM => False
       end.
Proof.
  destruct (present t_seg) as [t|] eqn:Et, (present v_seg) as [v|] eqn:Ev.
  - apply present_Some in Et as [-> Ht]. apply present_Some in Ev as [-> Hv].
    destruct (ambiguity_condition_dec t v t_score v_score config) as [Ha|Hna].
    + destruct (choose_segment_rule4 t v t_score v_score config Ht Hv Ha) as [r Hr].
      eexists. split; [exact Hr | reflexivity].
    + rewrite (choose_segment_below_rule4 t v t_score v_score config Ht Hv Hna).
      eexists. split; [reflexivity|].
      destruct (deterministic_choice_source t v t_score v_score config)
        as [[-> ->]|[-> ->]]; [reflexivity | exists v; split; reflexivity].
  - unfold choose_segment. rewrite Et, Ev. apply present_Some in Et as [-> _].
    eexists. split; reflexivity.
  - unfold choose_segment. rewrite Et, Ev. apply present_Some in Ev as [-> _].
    eexists. split; [reflexivity|]. simpl. exists v. split; reflexivity.
  - unfold choose_segment. rewrite Et, Ev.
    eexists. split; [reflexivity|]. simpl.
    destruct t_seg as [t|]; [|reflexivity]. simpl.
    unfold present, truthy, Segment_len in Et.
    destruct (len (text t)) eqn:El; [|discriminate].
    apply len_zero_empty in El. rewrite El. reflexivity.
Qed.

(** X1. The selector always answers, and raises nothing: the source is T, V
    or AMBIGUOUS, never LLM; with source T the selected text is the text of
    the T segment (empty when there is none), with source V it is the text
    of the V segment, and with AMBIGUOUS it is empty. *)
Theorem choose_segment_answer_shape (t_seg v_seg : option Segment) (t_score v_score : Q)
    (config : HeuristicsConfig) :
  exists choice,
    choose_segment t_seg v_seg t_score v_score config = Ok choice
    /\ match source choice with
       | T => selected_text choice = from_option text EmptyString t_seg
       | V => exists v, v_seg = Some v /\ selected_text choice = text v
       | AMBIGUOUS => selected_text choice = EmptyString
       | LLM => False
       end.
Proof. apply choose_segment_shape. Qed.



(** X3. Structure wins over scores: with two non-empty texts outside the
    ambiguity rule, a V segment that is a table, list item or heading is
    chosen over a T segment that is none of these, whatever the scores. *)
Theorem choose_segment_structural_override (t v : Segment) (t_score v_score : Q)
    (config : HeuristicsConfig) :
  text t <> EmptyString -> text v <> EmptyString ->
  ~ (Qabs (t_score - v_score) < ambiguity_band config
     /\ (3 * Nat.min (len (text t)) (len (text v))
         < 2 * Nat.max (len (text t)) (len (text v)))%nat) ->
  type v = TABLE \/ type v = LIST_ITEM \/ type v = HEADING ->
  type t = SENTENCE \/ type t = PARAGRAPH ->
  exists reason,
    choose_segment (Some t) (Some v) t_score v_score config
    = Ok (mkChoice V (text v) reason).
Proof.
  intros Ht Hv Hna Hvs Hts.
  rewrite (choose_segment_below_rule4 t v t_score v_score config Ht Hv Hna).
  unfold deterministic_choice.
  assert (Ev : has_structure v = true).
  { unfold has_structure. destruct Hvs as [->|[->| ->]]; reflexivity. }
  assert (Etn : has_structure t = false).
  { unfold has_structure. destruct Hts as [->| ->]; reflexivity. }
  rewrite Ev, Etn. eexists. reflexivity.
Qed.

Lemma choose_segment_structural_override_witness :
  exists reason,
    choose_segment (Some (mkSegment "Plain paragraph" 0 15 PARAGRAPH))
      (Some (mkSegment "| col1 | col2 |" 0 15 TABLE)) 0.6 0.5 default_heuristics
    = Ok (mkChoice V "| col1 | col2 |" reason).
Proof.
  apply (choose_segment_structural_override
           (mkSegment "Plain paragraph" 0 15 PARAGRAPH)
           (mkSegment "| col1 | col2 |" 0 15 TABLE) 0.6 0.5 default_heuristics).
  - discriminate.
  - discriminate.
  - intros [Hb _]. vm_compute in Hb. discriminate.
  - left. reflexivity.
  - right. reflexivity.
Defined.



(** ** Scorer: kinds and range *)

Lemma clamp01_mono (a b : Q) : a <= b -> clamp01 a <= clamp01 b.
Proof.
  intros Hab. unfold clamp01, py_min, py_max.
  case_Qltb a 0.0; case_Qltb b 0.0;
    repeat (match goal with
            | |- context [Qltb ?x ?y] => case_Qltb x y
            end); lra.
Qed.

Lemma clamp01_le_pos (a b : Q) : 0 < b -> a < b -> clamp01 a < b.
Proof.
  intros Hb Hab. unfold clamp01, py_min, py_max.
  case_Qltb a 0.0;
    repeat (match goal with
            | |- context [Qltb ?x ?y] => case_Qltb x y
            end); lra.
Qed.

Lemma count_if_le_len (p : ascii -> bool) (s : string) : (count_if p s <= len s)%nat.
Proof.
  induction s as [|c s IH]; [simpl; lia|].
  change (len (String c s)) with (S (len s)). cbn [count_if]. destruct (p c); lia.
Qed.

Lemma alnum_ratio_le_1 (s : string) : s <> EmptyString -> alnum_ratio s <= 1.
Proof.
  intros Hne. unfold alnum_ratio.
  assert (Hpos : 0 < Qnat (len s)).
  { apply Qnat_pos. rewrite <- len_zero_empty in Hne. lia. }
  apply Qle_shift_div_r; [exact Hpos|]. rewrite Qmult_1_l.
  unfold Qnat. rewrite <- Zle_Qle. pose proof (count_if_le_len isalnum s). lia.
Qed.

Lemma score_segment_empty (seg : Segment) :
  text seg = EmptyString -> score_segment seg == 0.
Proof.
  intros He. unfold score_segment, truthy, Segment_len. rewrite He. reflexivity.
Qed.

Lemma structural_bonus_range (k : SegmentType) : 0 <= structural_bonus k <= 0.2.
Proof. destruct k; simpl; lra. Qed.

(** X5. On one text the score grows with the structural bonus of the kind:
    a table scores at least as much as a list item, a list item as a
    heading, a heading as a paragraph or sentence. *)
Theorem score_segment_monotone_in_kind (seg1 seg2 : Segment) :
  text seg1 = text seg2 ->
  structural_bonus (type seg1) <= structural_bonus (type seg2) ->
  score_segment seg1 <= score_segment seg2.
Proof.
  intros Htext Hbonus.
  destruct (string_dec (text seg1) EmptyString) as [He|Hne].
  - rewrite (score_segment_empty seg1 He).
    rewrite Htext in He. rewrite (score_segment_empty seg2 He). apply Qle_refl.
  - rewrite (score_segment_nonempty seg1 Hne).
    rewrite Htext in Hne. rewrite (score_segment_nonempty seg2 Hne).
    rewrite Htext. apply clamp01_mono. lra.
Qed.

Lemma score_segment_monotone_in_kind_witness :
  score_segment (mkSegment "a | b" 0 5 SENTENCE) <= score_segment (mkSegment "a | b" 0 5 TABLE).
Proof.
  apply score_segment_monotone_in_kind; [reflexivity | vm_compute; discriminate].
Defined.

(** X6. The weird-character term never adds to the score: [text.count("")]
    exceeds the length, so the score of a segment stays below 0.7 plus its
    structural bonus, and below 0.9 for every segment. *)
Theorem score_segment_below_top (seg : Segment) :
  score_segment seg < 0.7 + structural_bonus (type seg)
  /\ score_segment seg < 0.9.
Proof.
  pose proof (structural_bonus_range (type seg)) as Hb.
  assert (H1 : score_segment seg < 0.7 + structural_bonus (type seg)).
  { destruct (string_dec (text seg) EmptyString) as [He|Hne].
    - rewrite (score_segment_empty seg He). lra.
    - rewrite (score_segment_nonempty seg Hne).
      apply clamp01_le_pos; [lra|].
      pose proof (alnum_ratio_le_1 (text seg) Hne) as Ha.
      assert (Hpos : 0 < Qnat (len (text seg))).
      { apply Qnat_pos. rewrite <- len_zero_empty in Hne. lia. }
      assert (Hw : 1 < Qnat (S (len (text seg))) / Qnat (len (text seg))).
      { apply Qlt_shift_div_l; [exact Hpos|]. rewrite Qmult_1_l.
        unfold Qnat. rewrite <- Zlt_Qlt. lia. }
      assert (Hm : py_min (avg_token_length (text seg) / 10.0) 0.1 <= 0.1).
      { unfold py_min. case_Qltb 0.1 (avg_token_length (text seg) / 10.0); lra. }
      lra. }
  split; [exact H1 | lra].
Qed.

(** ** Aligner: a page without T segments, similarities, number of pairs *)

Section EmptyTSequence.
Local Open Scope nat_scope.

Lemma align_loop_no_t (vs : list Segment) (v_texts : list string)
    (fuel v_idx : nat) (pairs : list AlignedPair) :
  v_idx <= length vs -> length vs - v_idx <= fuel ->
  align_loop [] vs [] v_texts fuel 0 v_idx pairs
  = Ok (pairs ++ (v_only <$> drop v_idx vs)).
Proof.
  revert v_idx pairs. induction fuel as [|fuel IH]; intros v_idx pairs Hle Hfuel.
  - assert (v_idx = length vs) as -> by lia.
    simpl. rewrite Nat.ltb_irrefl. simpl.
    rewrite drop_ge by reflexivity. simpl. rewrite app_nil_r. reflexivity.
  - cbn [align_loop]. simpl length.
    destruct (v_idx <? length vs) eqn:Ev; simpl.
    + apply Nat.ltb_lt in Ev.
      destruct (index_lt vs v_idx Ev) as (v & Hl & Hi).
      rewrite Hi. simpl. rewrite IH by lia.
      rewrite (drop_S vs v v_idx Hl). replace (v_idx + 1) with (S v_idx) by lia.
      simpl. rewrite <- app_assoc. reflexivity.
    + apply Nat.ltb_ge in Ev. assert (v_idx = length vs) as -> by lia.
      rewrite drop_ge by reflexivity. simpl. rewrite app_nil_r. reflexivity.
Qed.

Lemma align_segments_no_t (vs : list Segment) :
  align_segments [] vs = Ok (v_only <$> vs).
Proof.
  unfold align_segments. destruct vs as [|v vs']; [reflexivity|].
  rewrite align_loop_no_t by (simpl; lia). reflexivity.
Qed.

Lemma choose_segment_no_t (v : Segment) (t_score v_score : Q)
    (config : HeuristicsConfig) :
  text v <> EmptyString ->
  choose_segment None (Some v) t_score v_score config
  = Ok (mkChoice V (text v) "T segment missing").
Proof.
  intros Hne. unfold choose_segment.
  rewrite (present_nonempty_text v Hne). reflexivity.
Qed.

Lemma select_pair_v_only cls config page_num ts vs segs recs amb seg_idx v :
  text v <> EmptyString ->
  select_pair cls config page_num ts vs (segs, recs, amb) (seg_idx, v_only v)
  = Ok (segs ++ [text v], recs ++ [v_only_record cls page_num seg_idx v], amb).
Proof.
  intros Hne. unfold select_pair. simpl.
  unfold score_or_zero. rewrite (present_nonempty_text v Hne).
  rewrite (choose_segment_no_t v _ _ config Hne). reflexivity.
Qed.

Lemma select_loop_v_only cls config page_num ts vs (l : list Segment) :
  Forall (fun v => text v <> EmptyString) l ->
  forall a segs recs amb,
    for_each (zip (seq a (length l)) (v_only <$> l))
      (select_pair cls config page_num ts vs) (segs, recs, amb)
    = Ok (segs ++ (text <$> l),
          recs ++ zip_with (v_only_record cls page_num) (seq a (length l)) l,
          amb).
Proof.
  induction 1 as [|v l Hv Hl IH]; intros a segs recs amb.
  - simpl. rewrite !app_nil_r. reflexivity.
  - change (zip (seq a (length (v :: l))) (v_only <$> v :: l))
      with ((a, v_only v) :: zip (seq (S a) (length l)) (v_only <$> l)).
    cbn [for_each]. rewrite (select_pair_v_only _ _ _ _ _ _ _ _ _ _ Hv).
    cbn [mbind result_bind]. rewrite IH. simpl. rewrite <- !app_assoc. reflexivity.
Qed.
End EmptyTSequence.

(** X7. A page without T segments: [align_segments] yields the pairs
    (None, V[i], 0.0) in order, and when the V texts are non-empty the page
    comes out as the V texts, each with a record of source V, no line
    printed and the backend untouched. *)
Theorem empty_t_sequence_resolves_to_V {Bk : Type} `{AdjudicatorBackend Bk}
    (cls : ProvenanceRecord_class) (config : HeuristicsConfig)
    (backend : option Bk) (page : nat) (vs : list Segment) :
  Forall (fun v => text v <> EmptyString) vs ->
  align_segments [] vs = Ok ((fun v => mkAlignedPair None (Some v) 0.0) <$> vs)
  /\ exists recs,
       process_page cls config backend page [] vs = Ok (text <$> vs, recs, [], backend)
       /\ length recs = length vs
       /\ forall (k : nat) (v : Segment), vs !! k = Some v ->
            exists r, recs !! k = Some r
                      /\ rec_source r = V /\ chosen_text r = text v
                      /\ segment_idx r = k /\ page_num r = page.
Proof.
  intros Hne. split; [apply align_segments_no_t|].
  exists (zip_with (v_only_record cls page) (seq 0 (length vs)) vs).
  split; [|split].
  - unfold process_page. rewrite align_segments_no_t. simpl.
    unfold enumerate. rewrite length_fmap.
    rewrite (select_loop_v_only cls config page [] vs vs Hne). simpl.
    reflexivity.
  - rewrite length_zip_with_r_eq; [reflexivity | symmetry; apply length_seq].
  - intros k v Hl. exists (v_only_record cls page k v). split.
    + rewrite lookup_zip_with, Hl.
      rewrite (proj2 (lookup_seq 0 (length vs) k k)); [reflexivity|].
      split; [reflexivity | apply (lookup_lt_Some _ _ _ Hl)].
    + repeat split.
Qed.

Lemma empty_t_sequence_resolves_to_V_witness :
  exists recs,
    process_page (define_ProvenanceRecord 0%Z) default_heuristics
      (Some mock_adjudicator_backend) 0 [] [mkSegment "# Mock Heading" 0 14 HEADING]
    = Ok (["# Mock Heading"], recs, [], Some mock_adjudicator_backend)
    /\ length recs = 1%nat.
Proof.
  destruct (empty_t_sequence_resolves_to_V (define_ProvenanceRecord 0%Z) default_heuristics
              (Some mock_adjudicator_backend) 0 [mkSegment "# Mock Heading" 0 14 HEADING])
    as (_ & recs & Hrun & Hlen & _).
  - repeat constructor. discriminate.
  - exists recs. split; [exact Hrun | exact Hlen].
Defined.

Section AlignerRange.
Local Open Scope nat_scope.

Lemma similarity_in_range_snoc (pairs : list AlignedPair) (p : AlignedPair) :
  Forall similarity_in_range pairs -> similarity_in_range p ->
  Forall similarity_in_range (pairs ++ [p]).
Proof.
  intros Hp Hn. apply Forall_app_2; [exact Hp | constructor; [exact Hn | constructor]].
Qed.

Lemma best_in_window_le_100 (vs : list Segment) (v_texts : list string)
    (t_text : string) (v_idx : nat) (best : Q) (best_idx : nat) :
  best_in_window vs v_texts t_text v_idx = Ok (best, best_idx) ->
  (best <= 100)%Q.
Proof.
  unfold best_in_window. intros Hrun.
  change (((best, best_idx).1 <= 100)%Q).
  eapply (for_each_invariant (fun st : Q * nat => (st.1 <= 100)%Q)); [| | exact Hrun].
  - intros [b i] x [b' i'] Hb Hbody. simpl in Hb.
    apply bind_Ok in Hbody as (v_text & _ & Hbody).
    destruct (Qltb b (fuzz_ratio t_text v_text)); injection Hbody as <- <-; simpl;
      [apply fuzz_ratio_le_100 | exact Hb].
  - simpl. lra.
Qed.

Lemma matched_similarity_in_range (t v : Segment) (best : Q) :
  Qltb 50 best = true -> (best <= 100)%Q ->
  similarity_in_range (mkAlignedPair (Some t) (Some v) (best / 100.0)%Q).
Proof.
  intros H50 H100. apply Qltb_true in H50. unfold similarity_in_range. simpl.
  split.
  - apply Qlt_shift_div_l; lra.
  - apply Qle_shift_div_r; lra.
Qed.

Lemma align_loop_similarity (ts vs : list Segment) (t_texts v_texts : list string)
    (fuel : nat) :
  forall (t_idx v_idx : nat) (pairs pairs' : list AlignedPair),
    align_loop ts vs t_texts v_texts fuel t_idx v_idx pairs = Ok pairs' ->
    Forall similarity_in_range pairs -> Forall similarity_in_range pairs'.
Proof.
  induction fuel as [|fuel IH]; intros t_idx v_idx pairs pairs' Hrun Hinv.
  - simpl in Hrun.
    destruct (negb ((t_idx <? length ts) || (v_idx <? length vs))); [|discriminate].
    injection Hrun as <-. exact Hinv.
  - cbn [align_loop] in Hrun.
    destruct (negb ((t_idx <? length ts) || (v_idx <? length vs))).
    { injection Hrun as <-. exact Hinv. }
    destruct (length ts <=? t_idx).
    { apply bind_Ok in Hrun as (v & _ & Hrun).
      apply (IH _ _ _ _ Hrun). apply similarity_in_range_snoc; [exact Hinv | reflexivity]. }
    destruct (length vs <=? v_idx).
    { apply bind_Ok in Hrun as (t & _ & Hrun).
      apply (IH _ _ _ _ Hrun). apply similarity_in_range_snoc; [exact Hinv | reflexivity]. }
    apply bind_Ok in Hrun as (t_text & _ & Hrun).
    apply bind_Ok in Hrun as ([best best_idx] & Hbest & Hrun).
    destruct (Qltb 50 best) eqn:E50.
    + apply bind_Ok in Hrun as (pairs1 & Hskip & Hrun).
      apply bind_Ok in Hrun as (t & _ & Hrun).
      apply bind_Ok in Hrun as (v & _ & Hrun).
      apply (IH _ _ _ _ Hrun). apply similarity_in_range_snoc.
      * eapply (for_each_invariant (Forall similarity_in_range)); [| exact Hinv | exact Hskip].
        intros s x s' Hs Hbody. apply bind_Ok in Hbody as (v' & _ & Hbody).
        injection Hbody as <-. apply similarity_in_range_snoc; [exact Hs | reflexivity].
      * apply matched_similarity_in_range; [exact E50|].
        exact (best_in_window_le_100 _ _ _ _ _ _ Hbest).
    + apply bind_Ok in Hrun as (t & _ & Hrun).
      apply (IH _ _ _ _ Hrun). apply similarity_in_range_snoc; [exact Hinv | reflexivity].
Qed.

Lemma align_segments_placed (ts vs : list Segment) :
  exists pairs,
    align_segments ts vs = Ok pairs
    /\ aligned_upto ts vs (length ts) (length vs) pairs.
Proof.
  assert (Hgen : exists pairs,
    align_loop ts vs
      (map (fun seg => normalize_text (text seg)) ts)
      (map (fun seg => normalize_text (text seg)) vs)
      (length ts + length vs) 0 0 [] = Ok pairs
    /\ aligned_upto ts vs (length ts) (length vs) pairs).
  { apply align_loop_total; try (rewrite length_map; reflexivity); try lia.
    repeat split; constructor. }
  destruct ts as [|t ts'], vs as [|v vs']; [|exact Hgen..].
  exists []. split; [reflexivity | repeat split; constructor].
Qed.

Lemma length_sides (pairs : list AlignedPair) :
  Forall (fun p => is_empty p = false) pairs ->
  length (t_side pairs) <= length pairs
  /\ length (v_side pairs) <= length pairs
  /\ length pairs <= length (t_side pairs) + length (v_side pairs).
Proof.
  unfold t_side, v_side. induction 1 as [|p pairs Hp _ IH]; [cbn; lia|].
  destruct p as [[t|] [v|] q]; cbn in *; try discriminate; lia.
Qed.
End AlignerRange.

(** X8. In the pairs [align_segments] returns, a pair with both sides has a
    similarity above 0.5 and at most 1, and a pair with one side has
    similarity 0.0. *)
Theorem align_segments_similarity_range (t_segments v_segments : list Segment)
    (pairs : list AlignedPair) :
  align_segments t_segments v_segments = Ok pairs ->
  forall p, p ∈ pairs ->
    match t_seg p, v_seg p with
    | Some _, Some _ => 0.5 < similarity p /\ similarity p <= 1
    | _, _ => similarity p = 0.0
    end.
Proof.
  intros Hrun.
  assert (Hall : Forall similarity_in_range pairs).
  { unfold align_segments in Hrun.
    destruct t_segments as [|t ts], v_segments as [|v vs];
      [injection Hrun as <-; constructor | | |];
      exact (align_loop_similarity _ _ _ _ _ _ _ _ _ Hrun (Forall_nil_2 _)). }
  rewrite Forall_forall in Hall. intros p Hp. exact (Hall p Hp).
Qed.

Lemma align_segments_similarity_range_witness :
  similarity (mkAlignedPair (Some (mkSegment "abcd" 0 4 SENTENCE)) None 0.0) = 0.0.
Proof.
  refine (align_segments_similarity_range [mkSegment "abcd" 0 4 SENTENCE] []
            [mkAlignedPair (Some (mkSegment "abcd" 0 4 SENTENCE)) None 0.0] _
            (mkAlignedPair (Some (mkSegment "abcd" 0 4 SENTENCE)) None 0.0) _).
  - reflexivity.
  - apply list_elem_of_singleton. reflexivity.
Defined.

(** X9. The aligner returns at least as many pairs as the longer sequence
    has segments and at most as many as both sequences together. *)
Theorem align_segments_length (t_segments v_segments : list Segment) :
  exists pairs,
    align_segments t_segments v_segments = Ok pairs
    /\ (Nat.max (length t_segments) (length v_segments) <= length pairs)%nat
    /\ (length pairs <= length t_segments + length v_segments)%nat.
Proof.
  destruct (align_segments_placed t_segments v_segments) as (pairs & Hrun & Ht & Hv & Hne).
  exists pairs. split; [exact Hrun|].
  pose proof (length_sides pairs Hne) as (H1 & H2 & H3).
  rewrite Ht, Hv in *. rewrite !take_ge in * by reflexivity. lia.
Qed.

(** ** Context of a pair: when it is returned, and how long it is *)

Section ContextFacts.
Local Open Scope nat_scope.

Lemma len_take_str (n : nat) (s : string) : len (take_str n s) <= n.
Proof.
  revert s. induction n as [|n IH]; intros s; [destruct s; simpl; lia|].
  destruct s as [|c s]; [simpl; lia|]. cbn [take_str].
  change (len (String c (take_str n s))) with (S (len (take_str n s))).
  specialize (IH s). lia.
Qed.

Lemma len_drop_str (n : nat) (s : string) : len (drop_str n s) = len s - n.
Proof.
  revert s. induction n as [|n IH]; intros s; [simpl; lia|].
  destruct s as [|c s]; [reflexivity|]. cbn [drop_str].
  change (len (String c s)) with (S (len s)). rewrite IH. lia.
Qed.

Lemma len_slice_to (n : nat) (s : string) : len (slice_to n s) <= n.
Proof. apply len_take_str. Qed.

Lemma len_slice_last (n : nat) (s : string) : 0 < n -> len (slice_last n s) <= n.
Proof.
  intros Hn. unfold slice_last. destruct n as [|n]; [lia|].
  rewrite len_drop_str. lia.
Qed.

(** A loop that only reads segments at indices inside the list returns. *)
Lemma for_each_index_ok {X S : Type} (l : list X) (g : S -> X -> S) (xs : list nat) :
  Forall (fun i => i < length l) xs ->
  forall acc, exists res,
    for_each xs (fun acc i => x ← index l i; Ok (g acc x)) acc = Ok res.
Proof.
  induction 1 as [|i xs Hi _ IH]; intros acc.
  - exists acc. reflexivity.
  - destruct (index_lt l i Hi) as (x & _ & Hx).
    simpl. rewrite Hx. simpl. apply IH.
Qed.

Lemma range_below (a b n : nat) : b <= n -> Forall (fun i => i < n) (range a b).
Proof.
  intros Hb. unfold range. apply Forall_forall. intros i Hi.
  apply list_elem_of_lookup in Hi as [k Hk]. apply lookup_seq in Hk. lia.
Qed.

Lemma build_context_in_range (segments : list Segment) (idx max_length : nat) :
  idx <= length segments ->
  exists before_text after_text,
    build_context segments idx max_length = Ok (before_text, after_text)
    /\ len after_text <= max_length
    /\ (0 < max_length -> len before_text <= max_length)
    /\ (idx = 0 -> before_text = EmptyString)
    /\ (length segments <= idx + 1 -> after_text = EmptyString).
Proof.
  intros Hle. unfold build_context.
  assert (Hbefore : exists before_text,
    (if 0 <? idx then
       prev ← index segments (idx - 1);
       before_text ←
         for_each (range (Nat.max 0 (idx - 3)) (idx - 1))
           (fun before_text i =>
              seg ← index segments i;
              Ok (text seg +:+ " " +:+ before_text))
           (slice_last max_length (text prev));
       Ok (slice_last max_length before_text)
     else Ok EmptyString) = Ok before_text
    /\ (0 < max_length -> len before_text <= max_length)
    /\ (idx = 0 -> before_text = EmptyString)).
  { destruct (Nat.ltb_spec 0 idx) as [Hpos|Hz].
    - destruct (index_lt segments (idx - 1)) as (prev & _ & Hprev); [lia|].
      rewrite Hprev. cbn [mbind result_bind].
      assert (Hr : Forall (fun i => i < length segments)
                     (range (Nat.max 0 (idx - 3)) (idx - 1)))
        by (apply range_below; lia).
      destruct (for_each_index_ok segments
                  (fun (before_text : string) (seg : Segment) =>
                     text seg +:+ " " +:+ before_text)
                  (range (Nat.max 0 (idx - 3)) (idx - 1)) Hr
                  (slice_last max_length (text prev))) as [b Hb].
      rewrite Hb. cbn [mbind result_bind]. eexists. split; [reflexivity|].
      split; [intros Hm; apply len_slice_last, Hm | lia].
    - exists EmptyString. split; [reflexivity|]. split; [simpl; lia | reflexivity]. }
  destruct Hbefore as (before_text & -> & Hb1 & Hb2). cbn [mbind result_bind].
  destruct (Nat.ltb_spec idx (length segments - 1)) as [Hlt|Hge].
  - destruct (index_lt segments (idx + 1)) as (next & _ & Hnext); [lia|].
    rewrite Hnext. cbn [mbind result_bind].
    assert (Hr : Forall (fun i => i < length segments)
                   (range (idx + 2) (Nat.min (length segments) (idx + 4))))
      by (apply range_below; lia).
    destruct (for_each_index_ok segments
                (fun (after_text : string) (seg : Segment) =>
                   after_text +:+ " " +:+ slice_to max_length (text seg))
                (range (idx + 2) (Nat.min (length segments) (idx + 4))) Hr
                (slice_to max_length (text next))) as [a Ha].
    rewrite Ha. cbn [mbind result_bind]. eexists _, _. split; [reflexivity|].
    split; [apply len_slice_to|]. split; [exact Hb1|]. split; [exact Hb2 | lia].
  - cbn [mbind result_bind]. eexists _, _. split; [reflexivity|].
    split; [simpl; lia|]. split; [exact Hb1|]. split; [exact Hb2 | reflexivity].
Qed.
End ContextFacts.

(** X10. [build_context] returns exactly when [idx <= len(segments)]. Both
    contexts it returns are at most [max_length] characters long (the one
    before for a positive [max_length]); the context before is empty at
    index 0 and the context after is empty at the last index and beyond. *)
Theorem build_context_returns_bounded (segments : list Segment) (idx max_length : nat) :
  ((exists contexts, build_context segments idx max_length = Ok contexts)
   <-> (idx <= length segments)%nat)
  /\ forall before_text after_text,
       build_context segments idx max_length = Ok (before_text, after_text) ->
       (len after_text <= max_length)%nat
       /\ ((0 < max_length)%nat -> (len before_text <= max_length)%nat)
       /\ (idx = 0%nat -> before_text = EmptyString)
       /\ ((length segments <= idx + 1)%nat -> after_text = EmptyString).
Proof.
  split.
  - split.
    + intros [contexts Hrun]. destruct (le_lt_dec idx (length segments)) as [Hle|Hgt];
        [exact Hle|].
      rewrite (build_context_past_end segments idx max_length Hgt) in Hrun. discriminate.
    + intros Hle.
      destruct (build_context_in_range segments idx max_length Hle) as (b & a & Hrun & _).
      exists (b, a). exact Hrun.
  - intros before_text after_text Hrun.
    destruct (le_lt_dec idx (length segments)) as [Hle|Hgt].
    + destruct (build_context_in_range segments idx max_length Hle)
        as (b & a & Hrun' & Hfacts).
      rewrite Hrun' in Hrun. injection Hrun as <- <-. exact Hfacts.
    + rewrite (build_context_past_end segments idx max_length Hgt) in Hrun. discriminate.
Qed.

Lemma build_context_returns_bounded_witness :
  (len "c d e" <= 200)%nat.
Proof.
  refine (proj1 (proj2 (build_context_returns_bounded
            [mkSegment "a" 0 1 SENTENCE; mkSegment "b" 1 2 SENTENCE;
             mkSegment "c" 2 3 SENTENCE; mkSegment "d" 3 4 SENTENCE;
             mkSegment "e" 4 5 SENTENCE] 1 200) "a" "c d e" _)).
  reflexivity.
Defined.

(** ** Annotation of the markdown *)

Section Annotation.
Local Open Scope nat_scope.

Lemma split_on_aux_nonempty (sep : ascii) (s : string) (cur : list ascii) :
  split_on_aux sep s cur <> [].
Proof.
  revert cur. induction s as [|c s IH]; intros cur; simpl; [discriminate|].
  destruct (Ascii.eqb c sep); [discriminate | apply IH].
Qed.

Lemma str_app_nil_r (s : string) : s +:+ EmptyString = s.
Proof.
  induction s as [|c s IH]; [reflexivity|].
  change (String c (s +:+ EmptyString) = String c s). rewrite IH. reflexivity.
Qed.

Lemma str_app_assoc (a b c : string) : (a +:+ b) +:+ c = a +:+ (b +:+ c).
Proof.
  induction a as [|x a IH]; [reflexivity|].
  change (String x ((a +:+ b) +:+ c) = String x (a +:+ (b +:+ c))).
  rewrite IH. reflexivity.
Qed.

Lemma string_of_list_ascii_snoc (l : list ascii) (c : ascii) (s : string) :
  string_of_list_ascii (l ++ [c]) +:+ s = string_of_list_ascii l +:+ String c s.
Proof.
  induction l as [|x l IH]; [reflexivity|].
  change (String x (string_of_list_ascii (l ++ [c]) +:+ s)
          = String x (string_of_list_ascii l +:+ String c s)).
  rewrite IH. reflexivity.
Qed.

Lemma join_cons (sep p : string) (rest : list string) :
  rest <> [] -> join sep (p :: rest) = p +:+ sep +:+ join sep rest.
Proof. destruct rest; [contradiction | reflexivity]. Qed.

Lemma join_split_on_aux (sep : ascii) (s : string) (cur : list ascii) :
  join (String sep EmptyString) (split_on_aux sep s cur)
  = string_of_list_ascii (rev cur) +:+ s.
Proof.
  revert cur. induction s as [|c s IH]; intros cur;
    [simpl; rewrite str_app_nil_r; reflexivity|].
  simpl split_on_aux. destruct (Ascii.eqb_spec c sep) as [->|Hne].
  - rewrite join_cons by apply split_on_aux_nonempty. rewrite IH. reflexivity.
  - rewrite IH. simpl rev. apply string_of_list_ascii_snoc.
Qed.

(** Splitting at a character and joining with it gives the string back. *)
Lemma join_split_on (sep : ascii) (s : string) :
  join (String sep EmptyString) (split_on sep s) = s.
Proof. unfold split_on. rewrite join_split_on_aux. reflexivity. Qed.

Lemma woven_app (P : string -> Prop) (l1 l2 o1 o2 : list string) :
  woven P l1 o1 -> woven P l2 o2 -> woven P (l1 ++ l2) (o1 ++ o2).
Proof.
  induction 1 as [|l lines output _ IH|c lines output Hc _ IH]; intros H2; simpl.
  - exact H2.
  - apply woven_line, IH, H2.
  - apply woven_comment; [exact Hc | apply IH, H2].
Qed.

Lemma woven_nonempty (P : string -> Prop) (lines output : list string) :
  woven P lines output -> lines <> [] -> output <> [].
Proof. induction 1; intros Hne; [contradiction | discriminate | discriminate]. Qed.

Lemma woven_no_comment (P : string -> Prop) (lines output : list string) :
  (forall c, ~ P c) -> woven P lines output -> output = lines.
Proof.
  intros Hno. induction 1 as [|l lines output _ IH|c lines output Hc _ IH].
  - reflexivity.
  - rewrite IH. reflexivity.
  - destruct (Hno c Hc).
Qed.

Lemma by_segment_lookup (records : list ProvenanceRecord) :
  forall (m : gmap (nat * nat) ProvenanceRecord) (key : nat * nat) (r : ProvenanceRecord),
    foldl (fun m record => <[(page_num record, segment_idx record) := record]> m)
      m records !! key = Some r ->
    (r ∈ records /\ key = (page_num r, segment_idx r)) \/ m !! key = Some r.
Proof.
  induction records as [|x records IH]; intros m key r Hl; simpl in Hl.
  - right. exact Hl.
  - destruct (IH _ _ _ Hl) as [[Hin Hk]|Hm].
    + left. split; [right; exact Hin | exact Hk].
    + destruct (decide ((page_num x, segment_idx x) = key)) as [<-|Hne].
      * rewrite lookup_insert_eq in Hm. injection Hm as <-.
        left. split; [left | reflexivity].
      * rewrite lookup_insert_ne in Hm by exact Hne. right. exact Hm.
Qed.

Lemma by_segment_page0 (records : list ProvenanceRecord) (k : nat)
    (r : ProvenanceRecord) :
  foldl (fun (m : gmap (nat * nat) ProvenanceRecord) record =>
           <[(page_num record, segment_idx record) := record]> m)
    ∅ records !! (0, k) = Some r ->
  page0_comment records (provenance_comment r).
Proof.
  intros Hl. destruct (by_segment_lookup records ∅ (0, k) r Hl) as [[Hin Hk]|Hm].
  - exists r. split; [exact Hin|]. split; [|reflexivity].
    injection Hk as Hp _. symmetry. exact Hp.
  - rewrite lookup_empty in Hm. discriminate.
Qed.

Lemma annotate_loop (records : list ProvenanceRecord) (lines ls : list string) :
  forall (a : nat) (out : list string) (k : nat),
    a + length ls <= length lines ->
    exists added k',
      for_each (zip (seq a (length ls)) ls)
        (fun '(output, seg_no) '(i, line) =>
           (if (len (strip line) =? 0) && (0 <? i)
            then
              index lines (i - 1)
              ≫= fun prev : string =>
                   if nonempty_str (strip prev)
                   then
                     Ok (match
                           foldl
                             (fun (m : gmap (nat * nat) ProvenanceRecord)
                                  (record : ProvenanceRecord) =>
                                <[(page_num record, segment_idx record):=record]> m)
                             ∅ records
                           !! (0, seg_no)
                         with
                         | Some record => output ++ [provenance_comment record]
                         | None => output
                         end, seg_no + 1)
                   else Ok (output, seg_no)
            else Ok (output, seg_no))
           ≫= fun '(output0, seg_no0) => Ok (output0 ++ [line], seg_no0))
        (out, k)
      = Ok (out ++ added, k')
      /\ woven (page0_comment records) ls added.
Proof.
  induction ls as [|line ls IH]; intros a out k Hle.
  - exists [], k. split; [simpl; rewrite app_nil_r; reflexivity | constructor].
  - simpl in Hle.
    change (zip (seq a (length (line :: ls))) (line :: ls))
      with ((a, line) :: zip (seq (S a) (length ls)) ls).
    cbn [for_each].
    destruct ((len (strip line) =? 0) && (0 <? a)) eqn:Eblank.
    + apply andb_prop in Eblank as [_ Ha]. apply Nat.ltb_lt in Ha.
      destruct (index_lt lines (a - 1)) as (prev & _ & Hprev); [lia|].
      rewrite Hprev. cbn [mbind result_bind].
      destruct (nonempty_str (strip prev)).
      * destruct (foldl _ ∅ records !! (0, k)) as [r|] eqn:El; cbn [mbind result_bind].
        -- destruct (IH (S a) ((out ++ [provenance_comment r]) ++ [line]) (k + 1))
             as (added & k' & Hrun & Hw); [lia|].
           exists (provenance_comment r :: line :: added), k'. split.
           ++ rewrite Hrun. rewrite <- !app_assoc. reflexivity.
           ++ apply woven_comment; [exact (by_segment_page0 _ _ _ El)|].
              apply woven_line, Hw.
        -- destruct (IH (S a) (out ++ [line]) (k + 1)) as (added & k' & Hrun & Hw); [lia|].
           exists (line :: added), k'. split.
           ++ rewrite Hrun. rewrite <- !app_assoc. reflexivity.
           ++ apply woven_line, Hw.
      * cbn [mbind result_bind].
        destruct (IH (S a) (out ++ [line]) k) as (added & k' & Hrun & Hw); [lia|].
        exists (line :: added), k'. split.
        -- rewrite Hrun. rewrite <- !app_assoc. reflexivity.
        -- apply woven_line, Hw.
    + cbn [mbind result_bind].
      destruct (IH (S a) (out ++ [line]) k) as (added & k' & Hrun & Hw); [lia|].
      exists (line :: added), k'. split.
      * rewrite Hrun. rewrite <- !app_assoc. reflexivity.
      * apply woven_line, Hw.
Qed.

Lemma insert_provenance_comments_woven (markdown : string)
    (records : list ProvenanceRecord) :
  exists output,
    insert_provenance_comments markdown records
    = Ok (join (String newline EmptyString) output)
    /\ woven (page0_comment records) (split_on newline markdown) output.
Proof.
  unfold insert_provenance_comments.
  destruct (annotate_loop records (split_on newline markdown)
              (split_on newline markdown) 0 [] 0) as (added & k' & Hrun & Hw); [lia|].
  unfold enumerate. rewrite Hrun. cbn [mbind result_bind app].
  assert (Hne : split_on newline markdown <> [])
    by (unfold split_on; apply split_on_aux_nonempty).
  pose proof (woven_nonempty _ _ _ Hw Hne) as Hadded.
  destruct (split_on newline markdown) as [|l0 ls0] eqn:Es; [contradiction|].
  destruct (index_lt added (length added - 1)) as (last_line & _ & Hlast).
  { destruct added; [contradiction | simpl; lia]. }
  rewrite Hlast. cbn [mbind result_bind].
  destruct (nonempty_str (strip last_line)).
  - destruct (foldl _ ∅ records !! (0, k')) as [r|] eqn:El; cbn [mbind result_bind].
    + exists (added ++ [provenance_comment r]). split; [reflexivity|].
      rewrite <- (app_nil_r (l0 :: ls0)). apply woven_app; [exact Hw|].
      apply woven_comment; [exact (by_segment_page0 _ _ _ El) | constructor].
    + exists added. split; [reflexivity | exact Hw].
  - cbn [mbind result_bind]. exists added. split; [reflexivity | exact Hw].
Qed.
End Annotation.

(** X11. The annotation pass never raises. Its result is the lines of the
    markdown, all of them and in order, with nothing in between but
    comments of records of page 0. *)
Theorem insert_provenance_comments_weaves (markdown : string)
    (records : list ProvenanceRecord) :
  exists output,
    insert_provenance_comments markdown records
    = Ok (join (String newline EmptyString) output)
    /\ woven (fun c => exists r, r ∈ records /\ page_num r = O
                                 /\ c = provenance_comment r)
         (split_on newline markdown) output.
Proof. apply insert_provenance_comments_woven. Qed.

(** X12. The pass looks records up under page 0 only: when no record has
    page number 0, as for all pages after the first, the markdown comes
    back unchanged. *)
Theorem insert_provenance_comments_other_pages (markdown : string)
    (records : list ProvenanceRecord) :
  Forall (fun r => page_num r <> O) records ->
  insert_provenance_comments markdown records = Ok markdown.
Proof.
  intros Hpages.
  destruct (insert_provenance_comments_woven markdown records) as (output & Hrun & Hw).
  rewrite Hrun. f_equal.
  assert (Hno : forall c, ~ page0_comment records c).
  { intros c (r & Hin & Hz & _). rewrite Forall_forall in Hpages.
    exact (Hpages r Hin Hz). }
  rewrite (woven_no_comment _ _ _ Hno Hw). apply join_split_on.
Qed.

Lemma insert_provenance_comments_other_pages_witness :
  insert_provenance_comments "page two"
    [mkProvenanceRecord 1 0 T None 0.5 0.0 "page two" None 0%Z]
  = Ok "page two".
Proof.
  apply insert_provenance_comments_other_pages. repeat constructor. discriminate.
Defined.

(** ** The page loop: what a page can raise, and what it emits *)

Section PageFacts.
Context (cls : ProvenanceRecord_class) (config : HeuristicsConfig).
Local Open Scope nat_scope.

(** The three ways one pair changes the state of the selection loop. *)
Lemma select_pair_cases (page : nat) (ts vs : list Segment)
    (segs : list string) (recs : list ProvenanceRecord) (amb : list AmbiguousPair)
    (seg_idx : nat) (apair : AlignedPair)
    (st' : list string * list ProvenanceRecord * list AmbiguousPair) :
  select_pair cls config page ts vs (segs, recs, amb) (seg_idx, apair) = Ok st' ->
  (is_empty apair = true /\ st' = (segs, recs, amb))
  \/ (exists t v context_before context_after,
        st' = (segs, recs,
               amb ++ [mkAmbiguousPair t v context_before context_after page seg_idx]))
  \/ (exists choice,
        (source choice = T \/ source choice = V)
        /\ st' = (segs ++ [selected_text choice],
                  recs ++ [selected_record cls page seg_idx apair choice], amb)).
Proof.
  unfold select_pair. cbn [fst snd].
  destruct (is_empty apair) eqn:Ee.
  { intros [= <-]. left. split; reflexivity. }
  intros Hrun. right.
  apply bind_Ok in Hrun as (choice & Hc & Hrun).
  destruct (choose_segment_shape (t_seg apair) (v_seg apair)
              (score_or_zero (t_seg apair)) (score_or_zero (v_seg apair)) config)
    as (choice' & Hc' & Hshape).
  rewrite Hc in Hc'. injection Hc' as <-.
  destruct (source choice) eqn:Es.
  - right. exists choice. split; [left; exact Es|].
    simpl in Hrun. injection Hrun as <-. unfold selected_record. rewrite Es. reflexivity.
  - right. exists choice. split; [right; exact Es|].
    simpl in Hrun. injection Hrun as <-. unfold selected_record. rewrite Es. reflexivity.
  - left. destruct (choose_segment_ambiguous_present _ _ _ _ _ _ Hc Es)
      as (t & v & Et & Ev).
    rewrite Et, Ev in Hrun.
    apply bind_Ok in Hrun as (amb' & Hamb & Hrun).
    apply bind_Ok in Hamb as ([cb ca] & _ & Hamb). injection Hamb as <-.
    simpl in Hrun. injection Hrun as <-.
    exists t, v, cb, ca. reflexivity.
  - destruct Hshape.
Qed.


End PageFacts.




Section PageEmits.
Context (cls : ProvenanceRecord_class) (config : HeuristicsConfig).
Local Open Scope nat_scope.

Lemma select_loop_emits (page : nat) (ts vs : list Segment) (l : list AlignedPair) :
  Forall (fun p => is_empty p = false) l ->
  forall (a : nat) (segs : list string) (recs : list ProvenanceRecord)
         (amb : list AmbiguousPair) st',
    for_each (zip (seq a (length l)) l) (select_pair cls config page ts vs)
      (segs, recs, amb) = Ok st' ->
    exists drecs damb,
      st' = (segs ++ (chosen_text <$> drecs), recs ++ drecs, amb ++ damb)
      /\ Forall (fun r => selector_record r /\ page_num r = page) drecs
      /\ Forall (fun p => amb_page_num p = page) damb
      /\ (segment_idx <$> drecs) ++ (amb_segment_idx <$> damb) ≡ₚ seq a (length l).
Proof.
  induction 1 as [|apair l Hne _ IH]; intros a segs recs amb st' Hrun.
  - injection Hrun as <-. exists [], []. rewrite !app_nil_r.
    split; [reflexivity|]. repeat split; constructor.
  - change (zip (seq a (length (apair :: l))) (apair :: l))
      with ((a, apair) :: zip (seq (S a) (length l)) l) in Hrun.
    cbn [for_each] in Hrun. apply bind_Ok in Hrun as (st1 & Hstep & Hrun).
    apply select_pair_cases in Hstep
      as [[He _]|[(t & v & cb & ca & ->)|(choice & Hsrc & ->)]].
    + rewrite He in Hne. discriminate.
    + destruct (IH _ _ _ _ _ Hrun) as (drecs & damb & -> & Hrecs & Hamb & Hperm).
      exists drecs, (mkAmbiguousPair t v cb ca page a :: damb).
      rewrite <- app_assoc. split; [reflexivity|]. split; [exact Hrecs|].
      split; [constructor; [reflexivity | exact Hamb]|].
      cbn [fmap list_fmap length seq]. simpl amb_segment_idx.
      rewrite <- Permutation_middle. constructor. exact Hperm.
    + destruct (IH _ _ _ _ _ Hrun) as (drecs & damb & -> & Hrecs & Hamb & Hperm).
      exists (selected_record cls page a apair choice :: drecs), damb.
      rewrite <- !app_assoc. split; [reflexivity|].
      split; [constructor; [|exact Hrecs]|].
      { unfold selector_record, selected_record. simpl. tauto. }
      split; [exact Hamb|].
      cbn [fmap list_fmap length seq app]. constructor. exact Hperm.
Qed.
End PageEmits.

Section AdjudicatedRecords.
Context {Bk : Type} `{AdjudicatorBackend Bk}.
Local Open Scope nat_scope.

Lemma adjudicated_records_text cls (backend : Bk) (amb : list AmbiguousPair) :
  forall results : list AdjudicationResult,
    chosen_text <$> zip_with (adjudicated_record cls backend) amb results
    = zip_with adjudicated_text amb results.
Proof.
  induction amb as [|p amb IH]; intros [|r results]; try reflexivity.
  cbn [zip_with fmap list_fmap]. f_equal. apply IH.
Qed.

Lemma adjudicated_records_idx cls (backend : Bk) (amb : list AmbiguousPair) :
  forall results : list AdjudicationResult,
    length results = length amb ->
    segment_idx <$> zip_with (adjudicated_record cls backend) amb results
    = amb_segment_idx <$> amb.
Proof.
  induction amb as [|p amb IH]; intros [|r results] Hlen; try discriminate;
    [reflexivity|].
  cbn [zip_with fmap list_fmap]. f_equal. apply IH. simpl in Hlen. lia.
Qed.

Lemma adjudicated_records_kind cls (backend : Bk) (page : nat)
    (amb : list AmbiguousPair) :
  Forall (fun p => amb_page_num p = page) amb ->
  forall results : list AdjudicationResult,
    Forall (fun r => adjudication_record r /\ page_num r = page)
      (zip_with (adjudicated_record cls backend) amb results).
Proof.
  induction 1 as [|p amb Hp _ IH]; intros [|r results]; try constructor.
  - unfold adjudication_record. simpl. repeat split; eauto.
  - apply IH.
Qed.

(** What a page emits, phase by phase: the records of the selector, then,
    with a backend and at least one ambiguous pair, one record per
    ambiguous pair. *)
Lemma process_page_emits cls config (backend : option Bk) (page : nat)
    (ts vs : list Segment) segs recs printed backend' :
  process_page cls config backend page ts vs = Ok (segs, recs, printed, backend') ->
  exists pairs drecs damb arecs,
    align_segments ts vs = Ok pairs
    /\ recs = drecs ++ arecs
    /\ segs = chosen_text <$> recs
    /\ Forall (fun r => selector_record r /\ page_num r = page) drecs
    /\ Forall (fun r => adjudication_record r /\ page_num r = page) arecs
    /\ (segment_idx <$> drecs) ++ (amb_segment_idx <$> damb) ≡ₚ seq 0 (length pairs)
    /\ ((backend = None \/ damb = []) /\ arecs = [] /\ printed = [] /\ backend' = backend
        \/ is_Some backend /\ segment_idx <$> arecs = amb_segment_idx <$> damb).
Proof.
  unfold process_page. intros Hrun.
  destruct (align_segments_placed ts vs) as (pairs & Halign & _ & _ & Hne).
  rewrite Halign in Hrun. cbn [mbind result_bind] in Hrun.
  apply bind_Ok in Hrun as ([[segs1 recs1] amb] & Hsel & Hrun).
  apply (select_loop_emits cls config page ts vs pairs Hne 0 [] [] []) in Hsel
    as (drecs & damb & Hst & Hrecs & Hamb & Hperm).
  simpl in Hst. injection Hst as -> -> ->.
  exists pairs, drecs, damb.
  destruct (decide (damb = [])) as [->|Hnonempty].
  { assert (Hout : (segs, recs, printed, backend')
                    = (chosen_text <$> drecs, drecs, [], backend))
      by (destruct backend; simpl in Hrun; congruence).
    injection Hout as -> -> -> ->. exists [].
    rewrite app_nil_r. split; [exact Halign|]. split; [reflexivity|].
    split; [reflexivity|]. split; [exact Hrecs|]. split; [constructor|].
    split; [exact Hperm|]. left. repeat split. right. reflexivity. }
  destruct backend as [b|].
  - rewrite adjudicate_page_resolves in Hrun by exact Hnonempty.
    injection Hrun as <- <- <- <-.
    eexists. split; [exact Halign|]. split; [reflexivity|].
    split; [rewrite fmap_app, adjudicated_records_text; reflexivity|].
    split; [exact Hrecs|].
    split; [apply adjudicated_records_kind, Hamb|].
    split; [exact Hperm|]. right. split; [eexists; reflexivity|].
    apply adjudicated_records_idx.
    rewrite length_zip_with_l_eq; [reflexivity | rewrite length_answers; reflexivity].
  - assert (Hout : (segs, recs, printed, backend')
                    = (chosen_text <$> drecs, drecs, [], @None Bk))
      by (destruct damb; simpl in Hrun; congruence).
    injection Hout as -> -> -> ->. exists [].
    rewrite app_nil_r. split; [exact Halign|]. split; [reflexivity|].
    split; [reflexivity|]. split; [exact Hrecs|]. split; [constructor|].
    split; [exact Hperm|]. left. repeat split. left. reflexivity.
Qed.
End AdjudicatedRecords.

(** X14. One record per emitted segment, in the order of emission: the
    chosen texts of the records of a page are its segments, and every
    record carries the number of the page. *)
Theorem process_page_records_mirror_segments {Bk : Type} `{AdjudicatorBackend Bk}
    (cls : ProvenanceRecord_class) (config : HeuristicsConfig)
    (backend backend' : option Bk) (page : nat) (t_segments v_segments : list Segment)
    (segs : list string) (recs : list ProvenanceRecord) (printed : list string) :
  process_page cls config backend page t_segments v_segments
  = Ok (segs, recs, printed, backend') ->
  chosen_text <$> recs = segs
  /\ length recs = length segs
  /\ Forall (fun r => page_num r = page) recs.
Proof.
  intros Hrun.
  destruct (process_page_emits _ _ _ _ _ _ _ _ _ _ Hrun)
    as (pairs & drecs & damb & arecs & _ & -> & -> & Hd & Ha & _).
  split; [reflexivity|]. split; [rewrite length_fmap; reflexivity|].
  apply Forall_app_2; (eapply Forall_impl; [eassumption | intros r [_ Hp]; exact Hp]).
Qed.

Lemma process_page_records_mirror_segments_witness :
  exists recs,
    chosen_text <$> recs = ["xyz"; "abcd"] /\ length recs = 2%nat.
Proof.
  eexists.
  refine ((fun H => conj (proj1 H) (proj1 (proj2 H)))
            (process_page_records_mirror_segments (define_ProvenanceRecord 0%Z)
               default_heuristics (Some mock_adjudicator_backend)
               (Some mock_adjudicator_backend) 0
               [mkSegment "abcd" 0 4 SENTENCE; mkSegment "xyz" 4 7 SENTENCE]
               [mkSegment "abcdefg" 0 7 SENTENCE; mkSegment "xyz" 7 10 SENTENCE]
               ["xyz"; "abcd"] _ [] _)).
  vm_compute. reflexivity.
Defined.

(** X15. A record of a page is either a record of the selector, with source
    T or V and neither pick nor backend, or a record of the adjudication,
    with source LLM, a pick and the name of the backend. Without a backend
    every record is of the first kind, nothing is printed, and there is
    still no backend afterwards. *)
Theorem process_page_record_kinds {Bk : Type} `{AdjudicatorBackend Bk}
    (cls : ProvenanceRecord_class) (config : HeuristicsConfig)
    (backend backend' : option Bk) (page : nat) (t_segments v_segments : list Segment)
    (segs : list string) (recs : list ProvenanceRecord) (printed : list string) :
  process_page cls config backend page t_segments v_segments
  = Ok (segs, recs, printed, backend') ->
  Forall (fun r =>
            ((rec_source r = T \/ rec_source r = V)
             /\ llm_pick r = None /\ backend_used r = None)
            \/ (rec_source r = LLM /\ is_Some (llm_pick r) /\ is_Some (backend_used r)
                /\ is_Some backend)) recs
  /\ (backend = None ->
      Forall (fun r => (rec_source r = T \/ rec_source r = V)
                       /\ llm_pick r = None /\ backend_used r = None) recs
      /\ printed = [] /\ backend' = None).
Proof.
  intros Hrun.
  destruct (process_page_emits _ _ _ _ _ _ _ _ _ _ Hrun)
    as (pairs & drecs & damb & arecs & _ & -> & _ & Hd & Ha & _ & Hcase).
  assert (Hdet : Forall selector_record drecs).
  { eapply Forall_impl; [exact Hd | intros r [Hs _]; exact Hs]. }
  split.
  - apply Forall_app_2.
    + eapply Forall_impl; [exact Hdet | intros r Hs; left; exact Hs].
    + destruct Hcase as [(_ & -> & _)|[Hb _]]; [constructor|].
      eapply Forall_impl; [exact Ha|]. intros r [(Hs & Hp & Hu) _].
      right. repeat split; assumption.
  - intros ->. destruct Hcase as [(_ & -> & -> & ->)|[[b Hb] _]]; [|discriminate].
    rewrite app_nil_r. repeat split. exact Hdet.
Qed.

Lemma process_page_record_kinds_witness :
  Forall (fun r =>
            ((rec_source r = T \/ rec_source r = V)
             /\ llm_pick r = None /\ backend_used r = None)
            \/ (rec_source r = LLM /\ is_Some (llm_pick r) /\ is_Some (backend_used r)
                /\ is_Some (Some raising_backend)))
    [mkProvenanceRecord 0 0 LLM (Some A) (score_segment (mkSegment "abcd" 0 4 SENTENCE))
       (score_segment (mkSegment "abcdefg" 0 7 SENTENCE)) "abcd" (Some "RaisingBackend")
       0%Z].
Proof.
  refine (proj1 (process_page_record_kinds (define_ProvenanceRecord 0%Z)
                   default_heuristics (Some raising_backend) (Some raising_backend) 0
                   [mkSegment "abcd" 0 4 SENTENCE] [mkSegment "abcdefg" 0 7 SENTENCE]
                   ["abcd"] _ ["Adjudication failed for segment 0: timeout"] _)).
  vm_compute. reflexivity.
Defined.

(** X16. With a backend, a page that returns has dropped no pair: it emits
    as many segments and records as the aligner made pairs, and the segment
    indices of the records are the positions of the pairs, each once. *)
Theorem process_page_with_backend_covers_pairs {Bk : Type} `{AdjudicatorBackend Bk}
    (cls : ProvenanceRecord_class) (config : HeuristicsConfig)
    (backend : Bk) (backend' : option Bk) (page : nat)
    (t_segments v_segments : list Segment)
    (segs : list string) (recs : list ProvenanceRecord) (printed : list string) :
  process_page cls config (Some backend) page t_segments v_segments
  = Ok (segs, recs, printed, backend') ->
  exists pairs,
    align_segments t_segments v_segments = Ok pairs
    /\ length segs = length pairs
    /\ length recs = length pairs
    /\ segment_idx <$> recs ≡ₚ seq 0 (length pairs).
Proof.
  intros Hrun.
  destruct (process_page_emits _ _ _ _ _ _ _ _ _ _ Hrun)
    as (pairs & drecs & damb & arecs & Halign & -> & -> & _ & _ & Hperm & Hcase).
  exists pairs. split; [exact Halign|].
  assert (Hidx : segment_idx <$> drecs ++ arecs ≡ₚ seq 0 (length pairs)).
  { rewrite fmap_app. destruct Hcase as [([Hb| ->] & -> & _)|[_ ->]].
    - discriminate.
    - simpl in Hperm. exact Hperm.
    - exact Hperm. }
  assert (Hlen : length (drecs ++ arecs) = length pairs).
  { apply Permutation_length in Hidx. rewrite length_fmap, length_seq in Hidx.
    exact Hidx. }
  split; [rewrite length_fmap; exact Hlen|]. split; [exact Hlen | exact Hidx].
Qed.

Lemma process_page_with_backend_covers_pairs_witness :
  exists pairs,
    align_segments [mkSegment "abcd" 0 4 SENTENCE; mkSegment "xyz" 4 7 SENTENCE]
                   [mkSegment "abcdefg" 0 7 SENTENCE; mkSegment "xyz" 7 10 SENTENCE]
    = Ok pairs
    /\ length ["xyz"; "abcd"] = length pairs.
Proof.
  destruct (process_page_with_backend_covers_pairs (define_ProvenanceRecord 0%Z)
              default_heuristics mock_adjudicator_backend
              (Some mock_adjudicator_backend) 0
              [mkSegment "abcd" 0 4 SENTENCE; mkSegment "xyz" 4 7 SENTENCE]
              [mkSegment "abcdefg" 0 7 SENTENCE; mkSegment "xyz" 7 10 SENTENCE]
              ["xyz"; "abcd"]
              [mkProvenanceRecord 0 1 T None (score_segment (mkSegment "xyz" 4 7 SENTENCE))
                 (score_segment (mkSegment "xyz" 7 10 SENTENCE)) "xyz" None 0%Z;
               mkProvenanceRecord 0 0 LLM (Some A)
                 (score_segment (mkSegment "abcd" 0 4 SENTENCE))
                 (score_segment (mkSegment "abcdefg" 0 7 SENTENCE)) "abcd"
                 (Some "MockAdjudicatorBackend") 0%Z] [])
    as (pairs & Halign & Hlen & _).
  - vm_compute. reflexivity.
  - exists pairs. split; [exact Halign | exact Hlen].
Defined.

(** ** A page whose two transcriptions agree *)

Section AgreeingSequences.
Context (cls : ProvenanceRecord_class) (config : HeuristicsConfig).
Local Open Scope nat_scope.

Lemma choose_segment_same (s : Segment) (score : Q) :
  text s <> EmptyString ->
  exists reason,
    choose_segment (Some s) (Some s) score score config
    = Ok (mkChoice T (text s) reason).
Proof.
  intros Hne.
  assert (Hna : ~ ambiguity_condition s s score score config).
  { intros [_ Hlen]. rewrite Nat.min_id, Nat.max_id in Hlen.
    rewrite <- len_zero_empty in Hne. lia. }
  rewrite (choose_segment_below_rule4 s s score score config Hne Hne Hna).
  unfold deterministic_choice. rewrite andb_negb_r.
  destruct (Qltb (score + score_margin config) score); eexists; reflexivity.
Qed.

Lemma select_loop_same (page : nat) (ts vs : list Segment) (l : list Segment) :
  Forall (fun s => text s <> EmptyString) l ->
  forall (a : nat) (segs : list string) (recs : list ProvenanceRecord)
         (amb : list AmbiguousPair),
    exists drecs,
      for_each (zip (seq a (length l)) (self_pair <$> l))
        (select_pair cls config page ts vs) (segs, recs, amb)
      = Ok (segs ++ (text <$> l), recs ++ drecs, amb)
      /\ Forall (fun r => rec_source r = T /\ llm_pick r = None) drecs
      /\ chosen_text <$> drecs = text <$> l
      /\ segment_idx <$> drecs = seq a (length l).
Proof.
  induction 1 as [|s l Hs _ IH]; intros a segs recs amb.
  - exists []. rewrite !app_nil_r. split; [reflexivity|]. repeat split. constructor.
  - change (zip (seq a (length (s :: l))) (self_pair <$> s :: l))
      with ((a, self_pair s) :: zip (seq (S a) (length l)) (self_pair <$> l)).
    cbn [for_each].
    destruct (choose_segment_same s (score_segment s) Hs) as [reason Hc].
    assert (Hstep : select_pair cls config page ts vs (segs, recs, amb) (a, self_pair s)
                    = Ok (segs ++ [text s],
                          recs ++ [selected_record cls page a (self_pair s)
                                     (mkChoice T (text s) reason)], amb)).
    { unfold select_pair. cbn [fst snd is_empty self_pair t_seg v_seg].
      unfold score_or_zero. rewrite (present_nonempty_text s Hs), Hc.
      cbn [mbind result_bind source]. unfold selected_record, score_or_zero.
      cbn [t_seg v_seg source selected_text self_pair].
      rewrite ?(present_nonempty_text s Hs). reflexivity. }
    rewrite Hstep. cbn [mbind result_bind].
    destruct (IH (S a) (segs ++ [text s])
                (recs ++ [selected_record cls page a (self_pair s)
                            (mkChoice T (text s) reason)]) amb)
      as (drecs & Hrun & Hsrc & Htext & Hidx).
    exists (selected_record cls page a (self_pair s) (mkChoice T (text s) reason) :: drecs).
    rewrite Hrun, <- !app_assoc. split; [reflexivity|].
    split; [constructor; [split; reflexivity | exact Hsrc]|].
    split; cbn [fmap list_fmap length seq]; f_equal; assumption.
Qed.
End AgreeingSequences.

(** X17. When the T and the V sequence of a page are the same segments, all
    with non-empty text, every segment is emitted once, in order, with a
    record of source T; no pair is ambiguous, so nothing is adjudicated and
    the backend is not called. *)
Theorem identical_sequences_resolve_to_T {Bk : Type} `{AdjudicatorBackend Bk}
    (cls : ProvenanceRecord_class) (config : HeuristicsConfig)
    (backend : option Bk) (page : nat) (ss : list Segment) :
  Forall (fun s => text s <> EmptyString) ss ->
  exists recs,
    process_page cls config backend page ss ss = Ok (text <$> ss, recs, [], backend)
    /\ Forall (fun r => rec_source r = T /\ llm_pick r = None) recs
    /\ chosen_text <$> recs = text <$> ss
    /\ segment_idx <$> recs = seq 0 (length ss).
Proof.
  intros Hne. unfold process_page. rewrite align_segments_self.
  cbn [mbind result_bind]. unfold enumerate. rewrite length_fmap.
  destruct (select_loop_same cls config page ss ss ss Hne 0 [] [] [])
    as (drecs & Hrun & Hfacts).
  rewrite Hrun. cbn [mbind result_bind app].
  exists drecs. split; [|exact Hfacts].
  destruct backend; reflexivity.
Qed.

Lemma identical_sequences_resolve_to_T_witness :
  exists recs,
    process_page (define_ProvenanceRecord 0%Z) default_heuristics
      (@None MockAdjudicatorBackend) 0
      [mkSegment "Hello world" 0 11 SENTENCE] [mkSegment "Hello world" 0 11 SENTENCE]
    = Ok (["Hello world"], recs, [], None)
    /\ Forall (fun r => rec_source r = T /\ llm_pick r = None) recs.
Proof.
  destruct (identical_sequences_resolve_to_T (define_ProvenanceRecord 0%Z)
              default_heuristics (@None MockAdjudicatorBackend) 0
              [mkSegment "Hello world" 0 11 SENTENCE])
    as (recs & Hrun & Hsrc & _).
  - repeat constructor. discriminate.
  - exists recs. split; [exact Hrun | exact Hsrc].
Defined.

(** ** Segmenter *)

Section StripFacts.
Local Open Scope nat_scope.

Lemma lstrip_fixed (s : string) : starts_with_space s = false -> lstrip s = s.
Proof. destruct s as [|c s]; simpl; [reflexivity|]. intros ->. reflexivity. Qed.

Lemma lstrip_no_lead (s : string) : starts_with_space (lstrip s) = false.
Proof.
  induction s as [|c s IH]; [reflexivity|]. simpl.
  destruct (isspace c) eqn:E; [exact IH | simpl; exact E].
Qed.

Lemma rstrip_no_lead (s : string) :
  starts_with_space s = false -> starts_with_space (rstrip s) = false.
Proof.
  destruct s as [|c s]; [reflexivity|]. simpl. intros Hc.
  destruct (rstrip s); rewrite ?Hc; simpl; exact Hc.
Qed.

Lemma rstrip_idem (s : string) : rstrip (rstrip s) = rstrip s.
Proof.
  induction s as [|c s IH]; [reflexivity|]. simpl.
  destruct (rstrip s) as [|d r] eqn:Er.
  - destruct (isspace c) eqn:Ec; [reflexivity|]. simpl. rewrite Ec. reflexivity.
  -
    change (rstrip (String c (String d r)))
      with (match rstrip (String d r) with
            | EmptyString => if isspace c then EmptyString else String c EmptyString
            | String _ _ as r0 => String c r0
            end).
    rewrite IH. reflexivity.
Qed.

Lemma strip_idem (s : string) : strip (strip s) = strip s.
Proof.
  unfold strip.
  rewrite (lstrip_fixed (rstrip (lstrip s))) by apply rstrip_no_lead, lstrip_no_lead.
  apply rstrip_idem.
Qed.

Lemma contains_char_lstrip (c : ascii) (s : string) :
  contains_char c s = false -> contains_char c (lstrip s) = false.
Proof.
  induction s as [|x s IH]; [reflexivity|]. simpl. intros H.
  apply orb_false_elim in H as [Hx Hs].
  destruct (isspace x); [apply IH, Hs | simpl; rewrite Hx, Hs; reflexivity].
Qed.

Lemma contains_char_rstrip (c : ascii) (s : string) :
  contains_char c s = false -> contains_char c (rstrip s) = false.
Proof.
  induction s as [|x s IH]; [reflexivity|]. simpl. intros H.
  apply orb_false_elim in H as [Hx Hs]. specialize (IH Hs).
  destruct (rstrip s) as [|d r].
  - destruct (isspace x); [reflexivity | simpl; rewrite Hx; reflexivity].
  - change (contains_char c (String x (String d r)) = false).
    simpl. simpl in IH. rewrite Hx, IH. reflexivity.
Qed.

Lemma contains_char_strip (c : ascii) (s : string) :
  contains_char c s = false -> contains_char c (strip s) = false.
Proof. intros H. apply contains_char_rstrip, contains_char_lstrip, H. Qed.

Lemma contains_char_of_list (c : ascii) (l : list ascii) :
  contains_char c (string_of_list_ascii l) = false <-> Forall (fun x => x <> c) l.
Proof.
  induction l as [|x l IH]; simpl.
  - split; [constructor | reflexivity].
  - rewrite orb_false_iff, IH. split.
    + intros [Hx Hl]. constructor; [|exact Hl].
      intros ->. rewrite Ascii.eqb_refl in Hx. discriminate.
    + intros Hall. inversion Hall as [|? ? Hx Hl]; subst. split; [|exact Hl].
      apply Ascii.eqb_neq, Hx.
Qed.

Lemma split_on_aux_no_sep (sep : ascii) (s : string) (cur : list ascii) :
  Forall (fun x => x <> sep) cur ->
  Forall (fun l => contains_char sep l = false) (split_on_aux sep s cur).
Proof.
  revert cur. induction s as [|c s IH]; intros cur Hcur; simpl.
  - constructor; [|constructor]. apply contains_char_of_list, Forall_rev, Hcur.
  - destruct (Ascii.eqb_spec c sep) as [->|Hne].
    + constructor; [apply contains_char_of_list, Forall_rev, Hcur|].
      apply IH. constructor.
    + apply IH. constructor; assumption.
Qed.

(** No piece of [s.split(sep)] contains the separator. *)
Lemma split_on_no_sep (sep : ascii) (s : string) :
  Forall (fun l => contains_char sep l = false) (split_on sep s).
Proof. apply split_on_aux_no_sep. constructor. Qed.

Lemma split_on_aux_app (sep : ascii) (l rest : string) (cur : list ascii) :
  contains_char sep l = false ->
  split_on_aux sep (l +:+ rest) cur
  = split_on_aux sep rest (rev (list_ascii_of_string l) ++ cur).
Proof.
  revert cur. induction l as [|x l IH]; intros cur Hl; [reflexivity|].
  simpl in Hl. apply orb_false_elim in Hl as [Hx Hl].
  change (String x l +:+ rest) with (String x (l +:+ rest)).
  cbn [split_on_aux]. rewrite Hx, (IH _ Hl). simpl. rewrite <- app_assoc. reflexivity.
Qed.

(** Joining pieces that are free of the separator and splitting again gives
    the pieces back. *)
Lemma split_on_join (sep : ascii) (ls : list string) :
  ls <> [] -> Forall (fun l => contains_char sep l = false) ls ->
  split_on sep (join (String sep EmptyString) ls) = ls.
Proof.
  intros Hne Hall. unfold split_on.
  assert (Hgen : forall l rest, contains_char sep l = false ->
            split_on_aux sep (l +:+ rest) [] = split_on_aux sep rest (rev (list_ascii_of_string l))).
  { intros l rest Hl. rewrite (split_on_aux_app sep l rest [] Hl), app_nil_r. reflexivity. }
  induction Hall as [|l ls Hl Hls IH]; [contradiction|].
  destruct ls as [|l' ls'].
  - simpl join. pose proof (Hgen l EmptyString Hl) as Hsplit.
    rewrite str_app_nil_r in Hsplit. rewrite Hsplit. simpl.
    rewrite rev_involutive, string_of_list_ascii_of_string. reflexivity.
  - rewrite join_cons by discriminate.
    rewrite (Hgen l _ Hl).
    change (String sep EmptyString +:+ join (String sep EmptyString) (l' :: ls'))
      with (String sep (join (String sep EmptyString) (l' :: ls'))).
    cbn [split_on_aux]. rewrite Ascii.eqb_refl.
    rewrite rev_involutive, string_of_list_ascii_of_string.
    f_equal. apply IH. discriminate.
Qed.
End StripFacts.

Section SegmenterFacts.
Local Open Scope nat_scope.

Lemma segment_text_close (text : string) :
  segment_text text
  = close_paragraph (foldl segment_line ([], [], 0) (split_on newline text)).
Proof.
  unfold segment_text, close_paragraph.
  destruct (foldl segment_line ([], [], 0) (split_on newline text)) as [[segs cur] start].
  reflexivity.
Qed.

Lemma paragraph_segments_snoc (ps : list (list string)) (p : list string) :
  forall start,
    paragraph_segments start (ps ++ [p])
    = paragraph_segments start ps ++ [paragraph_segment p (paragraphs_end start ps)].
Proof.
  induction ps as [|q ps IH]; intros start; [reflexivity|].
  simpl. rewrite IH. reflexivity.
Qed.

Lemma paragraphs_end_snoc (ps : list (list string)) (p : list string) :
  forall start,
    paragraphs_end start (ps ++ [p])
    = seg_end (paragraph_segment p (paragraphs_end start ps)).
Proof.
  induction ps as [|q ps IH]; intros start; [reflexivity|]. simpl. apply IH.
Qed.

Lemma len_nonzero (s : string) : (len s =? 0) = false <-> s <> EmptyString.
Proof.
  rewrite Nat.eqb_neq. split; intros H He; apply H; apply len_zero_empty; exact He.
Qed.

Lemma stripped_line (line : string) :
  contains_char newline line = false -> (len (strip line) =? 0) = false ->
  paragraph_line (strip line).
Proof.
  intros Hnl Hlen. split; [apply len_nonzero, Hlen|].
  split; [apply strip_idem | apply contains_char_strip, Hnl].
Qed.

(** The loop of [segment_text] keeps its state made of closed paragraphs
    and the lines of an open one. *)
Lemma segment_fold (lines : list string) :
  Forall (fun l => contains_char newline l = false) lines ->
  forall (ps : list (list string)) (cur : list string),
    Forall paragraph ps -> Forall paragraph_line cur ->
    exists ps' cur',
      foldl segment_line (paragraph_segments 0 ps, cur, paragraphs_end 0 ps) lines
      = (paragraph_segments 0 ps', cur', paragraphs_end 0 ps')
      /\ Forall paragraph ps' /\ Forall paragraph_line cur'.
Proof.
  induction 1 as [|line lines Hline _ IH]; intros ps cur Hps Hcur.
  - exists ps, cur. split; [reflexivity | split; assumption].
  - cbn [foldl]. unfold segment_line at 2.
    destruct (len (strip line) =? 0) eqn:Elen.
    + destruct cur as [|l cur]; [apply IH; assumption|].
      rewrite <- paragraph_segments_snoc, <- paragraphs_end_snoc.
      apply IH; [|constructor].
      apply Forall_app_2; [exact Hps|]. constructor; [|constructor].
      split; [discriminate | exact Hcur].
    + apply IH; [exact Hps|].
      apply Forall_app_2; [exact Hcur|]. constructor; [|constructor].
      apply stripped_line; assumption.
Qed.

Lemma segment_text_paragraphs (text : string) :
  exists paras,
    Forall paragraph paras /\ segment_text text = paragraph_segments 0 paras.
Proof.
  rewrite segment_text_close.
  destruct (segment_fold (split_on newline text) (split_on_no_sep newline text) [] [])
    as (ps & cur & Hrun & Hps & Hcur); [constructor | constructor|].
  simpl in Hrun. rewrite Hrun. unfold close_paragraph. simpl.
  destruct cur as [|l cur].
  - exists ps. split; [exact Hps | reflexivity].
  - exists (ps ++ [l :: cur]). split.
    + apply Forall_app_2; [exact Hps|]. constructor; [|constructor].
      split; [discriminate | exact Hcur].
    + rewrite paragraph_segments_snoc. reflexivity.
Qed.

Lemma join_nonempty (sep : string) (p : list string) :
  p <> [] -> Forall (fun l => l <> EmptyString) p -> join sep p <> EmptyString.
Proof.
  intros Hne Hall. destruct Hall as [|l p Hl _]; [contradiction|].
  destruct l as [|c l]; [contradiction|].
  destruct p; simpl; discriminate.
Qed.

Lemma paragraph_lines_facts (p : list string) :
  paragraph p ->
  Forall (fun l => l <> EmptyString) p
  /\ Forall (fun l => contains_char newline l = false) p
  /\ Forall (fun l => strip l = l) p.
Proof.
  intros [_ Hall].
  repeat split; (eapply Forall_impl; [exact Hall | intros l (H1 & H2 & H3); assumption]).
Qed.

(** What every segment of a list of paragraphs looks like. *)
Lemma paragraph_segments_shape (paras : list (list string)) :
  Forall paragraph paras ->
  forall start,
    Forall (fun seg =>
              text seg <> EmptyString
              /\ Forall (fun l => l <> EmptyString /\ strip l = l)
                   (split_on newline (text seg))
              /\ type seg = _determine_segment_type (text seg)
              /\ seg_end seg = seg_start seg + len (text seg))
      (paragraph_segments start paras).
Proof.
  induction 1 as [|p paras Hp _ IH]; intros start; [constructor|].
  simpl. constructor; [|apply IH].
  destruct (paragraph_lines_facts p Hp) as (Hne & Hnl & Hst).
  destruct Hp as [Hp Hall]. simpl.
  split; [apply join_nonempty; assumption|].
  split; [|split; reflexivity].
  rewrite split_on_join by assumption.
  eapply Forall_impl; [exact Hall|]. intros l (H1 & H2 & _). split; assumption.
Qed.

Lemma paragraph_segments_chain (paras : list (list string)) :
  forall (start i : nat) (a b : Segment),
    paragraph_segments start paras !! i = Some a ->
    paragraph_segments start paras !! S i = Some b ->
    seg_start b = seg_end a.
Proof.
  induction paras as [|p paras IH]; intros start i a b Ha Hb; [discriminate|].
  destruct i as [|i].
  - simpl in Ha. injection Ha as <-. simpl in Hb.
    destruct paras as [|q paras]; [discriminate|]. simpl in Hb. injection Hb as <-.
    reflexivity.
  - simpl in Ha, Hb. exact (IH _ _ _ _ Ha Hb).
Qed.

Lemma paragraph_segments_head (paras : list (list string)) (start : nat) (a : Segment) :
  paragraph_segments start paras !! 0 = Some a -> seg_start a = start.
Proof. destruct paras; [discriminate|]. simpl. intros [= <-]. reflexivity. Qed.
End SegmenterFacts.

Lemma segment_text_segments_shape (text0 : string) :
  Forall (fun seg =>
            text seg <> EmptyString
            /\ Forall (fun l => l <> EmptyString /\ strip l = l)
                 (split_on newline (text seg))
            /\ type seg = _determine_segment_type (text seg)
            /\ seg_end seg = (seg_start seg + len (text seg))%nat)
    (segment_text text0).
Proof.
  destruct (segment_text_paragraphs text0) as (paras & Hparas & ->).
  apply paragraph_segments_shape, Hparas.
Qed.

(** X18. No segment of [segment_text] has an empty text: each text is made
    of non-empty stripped lines, its kind is the one its text determines,
    and its end is its start plus the length of its text. *)
Theorem segment_text_segments (text0 : string) :
  Forall (fun seg =>
            text seg <> EmptyString
            /\ Forall (fun l => l <> EmptyString /\ strip l = l)
                 (split_on newline (text seg))
            /\ type seg = _determine_segment_type (text seg)
            /\ seg_end seg = (seg_start seg + len (text seg))%nat)
    (segment_text text0).
Proof. apply segment_text_segments_shape. Qed.

(** X19. The spans of the segments chain: the first segment starts at 0 and
    every other segment starts where the one before ends. *)
Theorem segment_text_spans_chain (text0 : string) :
  (forall a, segment_text text0 !! 0%nat = Some a -> seg_start a = 0%nat)
  /\ forall (i : nat) (a b : Segment),
       segment_text text0 !! i = Some a ->
       segment_text text0 !! S i = Some b ->
       seg_start b = seg_end a.
Proof.
  destruct (segment_text_paragraphs text0) as (paras & Hparas & ->).
  split; [intros a; apply paragraph_segments_head | apply paragraph_segments_chain].
Qed.

Lemma segment_text_spans_chain_witness :
  seg_start (mkSegment "b" 1 2 SENTENCE) = seg_end (mkSegment "a" 0 1 SENTENCE).
Proof.
  refine (proj2 (segment_text_spans_chain
                   (String "a" (String newline (String newline (String "b" EmptyString)))))
            0%nat (mkSegment "a" 0 1 SENTENCE) (mkSegment "b" 1 2 SENTENCE) _ _);
    reflexivity.
Defined.

Section Resegmentation.
Local Open Scope nat_scope.

Lemma close_paragraph_nil (st : list Segment * list string * nat) :
  close_paragraph st = [] <-> st.1.1 = [] /\ st.1.2 = [].
Proof.
  destruct st as [[segs cur] start]. unfold close_paragraph. simpl.
  destruct cur as [|l cur].
  - split; [intros ->; split; reflexivity | intros [-> _]; reflexivity].
  - split; [intros H; destruct segs; discriminate | intros [_ H]; discriminate].
Qed.

Lemma segment_line_busy (st : list Segment * list string * nat) (line : string) :
  st.1.1 <> [] \/ st.1.2 <> [] ->
  (segment_line st line).1.1 <> [] \/ (segment_line st line).1.2 <> [].
Proof.
  destruct st as [[segs cur] start]. simpl. intros Hbusy.
  destruct (len (strip line) =? 0).
  - destruct cur as [|l cur]; [exact Hbusy|]. simpl. left.
    destruct segs; discriminate.
  - simpl. right. destruct cur; discriminate.
Qed.

Lemma foldl_busy (lines : list string) :
  forall st : list Segment * list string * nat,
    st.1.1 <> [] \/ st.1.2 <> [] ->
    (foldl segment_line st lines).1.1 <> [] \/ (foldl segment_line st lines).1.2 <> [].
Proof.
  induction lines as [|line lines IH]; intros st Hbusy; [exact Hbusy|].
  simpl. apply IH, segment_line_busy, Hbusy.
Qed.

Lemma foldl_blank (lines : list string) (start : nat) :
  close_paragraph (foldl segment_line ([], [], start) lines) = []
  <-> Forall blank_line lines.
Proof.
  induction lines as [|line lines IH].
  - split; [constructor | reflexivity].
  - cbn [foldl]. unfold segment_line at 2.
    destruct (len (strip line) =? 0) eqn:Elen.
    + rewrite IH. split.
      * intros Hall. constructor; [|exact Hall].
        apply Nat.eqb_eq, len_zero_empty in Elen. exact Elen.
      * intros Hall. inversion Hall; assumption.
    + split.
      * intros Hclose. apply close_paragraph_nil in Hclose as [Hs Hc].
        assert (Hbusy : ([], [] ++ [strip line], start).1.1 <> ([] : list Segment)
                        \/ ([] : list Segment, [] ++ [strip line], start).1.2 <> [])
          by (right; discriminate).
        destruct (foldl_busy lines _ Hbusy) as [H|H]; contradiction.
      * intros Hall. inversion Hall as [|? ? Hblank _]; subst.
        unfold blank_line in Hblank. rewrite Hblank in Elen. discriminate.
Qed.

Lemma foldl_paragraph (p : list string) :
  Forall paragraph_line p ->
  forall (segs : list Segment) (cur : list string) (start : nat),
    foldl segment_line (segs, cur, start) p = (segs, cur ++ p, start).
Proof.
  induction 1 as [|l p Hl _ IH]; intros segs cur start.
  - rewrite app_nil_r. reflexivity.
  - cbn [foldl]. unfold segment_line at 2.
    destruct Hl as (Hne & Hst & _). rewrite Hst.
    apply len_nonzero in Hne. rewrite Hne, IH, <- app_assoc. reflexivity.
Qed.

Lemma segment_line_blank (segs : list Segment) (l : string) (cur : list string)
    (start : nat) :
  segment_line (segs, l :: cur, start) EmptyString
  = (segs ++ [paragraph_segment (l :: cur) start], [],
     seg_end (paragraph_segment (l :: cur) start)).
Proof. reflexivity. Qed.

Lemma close_paragraph_lines (ps : list (list string)) :
  Forall paragraph ps ->
  forall (p : list string) (segs : list Segment) (start : nat),
    paragraph p ->
    close_paragraph (foldl segment_line (segs, [], start) (paragraph_lines (p :: ps)))
    = segs ++ paragraph_segments start (p :: ps).
Proof.
  induction 1 as [|q ps Hq _ IH]; intros p segs start [Hp Hlines].
  - simpl paragraph_lines. rewrite (foldl_paragraph p Hlines). simpl app.
    unfold close_paragraph. simpl. destruct p; [contradiction | reflexivity].
  - change (paragraph_lines (p :: q :: ps))
      with (p ++ EmptyString :: paragraph_lines (q :: ps)).
    rewrite foldl_app, (foldl_paragraph p Hlines). simpl app.
    destruct p as [|l p]; [contradiction|].
    cbn [foldl]. rewrite segment_line_blank.
    rewrite (IH q _ _ Hq). rewrite <- app_assoc. reflexivity.
Qed.

Lemma paragraph_lines_nonempty (p : list string) (ps : list (list string)) :
  p <> [] -> paragraph_lines (p :: ps) <> [].
Proof. intros Hp. destruct ps; simpl; destruct p; try contradiction; discriminate. Qed.

Lemma join_app (sep : string) (l1 l2 : list string) :
  l1 <> [] -> l2 <> [] ->
  join sep (l1 ++ l2) = join sep l1 +:+ sep +:+ join sep l2.
Proof.
  intros H1 H2. induction l1 as [|x l1 IH]; [contradiction|].
  destruct l1 as [|y l1].
  - simpl app. rewrite join_cons by exact H2. reflexivity.
  - change ((x :: y :: l1) ++ l2) with (x :: (y :: l1) ++ l2).
    rewrite join_cons by discriminate. rewrite IH by discriminate.
    rewrite (join_cons sep x (y :: l1)) by discriminate.
    rewrite !str_app_assoc. reflexivity.
Qed.

Lemma join_paragraphs (ps : list (list string)) :
  Forall paragraph ps ->
  forall p, paragraph p ->
    join (String newline (String newline EmptyString))
      (join (String newline EmptyString) <$> p :: ps)
    = join (String newline EmptyString) (paragraph_lines (p :: ps)).
Proof.
  induction 1 as [|q ps Hq _ IH]; intros p Hp; [reflexivity|].
  change (paragraph_lines (p :: q :: ps))
    with (p ++ EmptyString :: paragraph_lines (q :: ps)).
  rewrite join_app; [|exact (proj1 Hp) | discriminate].
  rewrite (join_cons _ EmptyString)
    by (apply paragraph_lines_nonempty; exact (proj1 Hq)).
  rewrite <- (IH q Hq).
  cbn [fmap list_fmap]. rewrite join_cons by discriminate. reflexivity.
Qed.

Lemma paragraph_segments_texts (ps : list (list string)) :
  forall start,
    text <$> paragraph_segments start ps = join (String newline EmptyString) <$> ps.
Proof.
  induction ps as [|p ps IH]; intros start; [reflexivity|].
  cbn [paragraph_segments fmap list_fmap]. f_equal. apply IH.
Qed.

Lemma paragraph_lines_no_newline (ps : list (list string)) :
  Forall paragraph ps ->
  Forall (fun l => contains_char newline l = false) (paragraph_lines ps).
Proof.
  induction 1 as [|p ps Hp _ IH]; [constructor|].
  destruct (paragraph_lines_facts p Hp) as (_ & Hnl & _).
  destruct ps as [|q ps]; [exact Hnl|].
  change (paragraph_lines (p :: q :: ps))
    with (p ++ EmptyString :: paragraph_lines (q :: ps)).
  apply Forall_app_2; [exact Hnl|]. constructor; [reflexivity | exact IH].
Qed.

Lemma resegment_paragraphs (ps : list (list string)) :
  Forall paragraph ps ->
  forall start,
    segment_text (join (String newline (String newline EmptyString))
                    (text <$> paragraph_segments start ps))
    = paragraph_segments 0 ps.
Proof.
  intros Hps start. rewrite paragraph_segments_texts.
  destruct Hps as [|p ps Hp Hps]; [reflexivity|].
  rewrite (join_paragraphs ps Hps p Hp), segment_text_close.
  rewrite split_on_join.
  - rewrite (close_paragraph_lines ps Hps p [] 0 Hp). reflexivity.
  - apply paragraph_lines_nonempty. exact (proj1 Hp).
  - apply paragraph_lines_no_newline. constructor; assumption.
Qed.
End Resegmentation.

Lemma segment_text_empty_iff_blank_lines (text0 : string) :
  segment_text text0 = [] <-> Forall blank_line (split_on newline text0).
Proof. rewrite segment_text_close. apply foldl_blank. Qed.

(** X20. [segment_text] returns no segment exactly when every line of the
    text is blank: a text of white space only contributes nothing, and any
    line with a visible character ends up in a segment. *)
Theorem segment_text_empty_iff_blank (text0 : string) :
  segment_text text0 = []
  <-> Forall (fun line => strip line = EmptyString) (split_on newline text0).
Proof.
  apply segment_text_empty_iff_blank_lines.
Qed.

Lemma segment_text_empty_iff_blank_witness :
  segment_text (String " " (String newline "  ")) = [].
Proof.
  apply (proj2 (segment_text_empty_iff_blank (String " " (String newline "  ")))).
  vm_compute. repeat constructor.
Defined.

(** X21. Segmenting is stable: the texts of the segments, joined by blank
    lines as the pipeline joins them, segment again into the very same
    segments, spans and kinds included. *)
Theorem segment_text_resegments (text0 : string) :
  segment_text (join (String newline (String newline EmptyString))
                  (text <$> segment_text text0))
  = segment_text text0.
Proof.
  destruct (segment_text_paragraphs text0) as (paras & Hparas & ->).
  apply resegment_paragraphs, Hparas.
Qed.

Section TableFacts.
Local Open Scope nat_scope.

Lemma filter_all {X : Type} (P : X -> Prop) `{forall x, Decision (P x)} (l : list X) :
  Forall P l -> filter P l = l.
Proof.
  induction 1 as [|x l Hx _ IH]; [reflexivity|].
  rewrite filter_cons_True by exact Hx. rewrite IH. reflexivity.
Qed.

Lemma forallb_true_Forall {X : Type} (f : X -> bool) (l : list X) :
  forallb f l = true <-> Forall (fun x => f x = true) l.
Proof.
  induction l as [|x l IH]; simpl.
  - split; [constructor | reflexivity].
  - rewrite andb_true_iff, IH. split.
    + intros [Hx Hl]. constructor; assumption.
    + intros Hall. inversion Hall; subst. split; assumption.
Qed.

Lemma detect_table_nonblank_lines (s : string) :
  Forall (fun l => l <> EmptyString /\ strip l = l) (split_on newline s) ->
  detect_table s = true
  <-> 2 <= length (split_on newline s)
      /\ Forall (fun l => contains_char pipe l = true) (split_on newline s).
Proof.
  intros Hlines. unfold detect_table.
  set (lines := split_on newline s) in *.
  assert (Hnb : filter (fun line => nonempty_str (strip line) = true) lines = lines).
  { apply filter_all. eapply Forall_impl; [exact Hlines|].
    intros l [Hne Hst]. simpl. rewrite Hst. unfold nonempty_str.
    apply negb_true_iff, len_nonzero, Hne. }
  rewrite Hnb, andb_true_iff, forallb_true_Forall, Nat.leb_le. split.
  - intros [Hcount Hall]. split; [|exact Hall].
    rewrite (filter_all _ lines Hall) in Hcount. exact Hcount.
  - intros [Hlen Hall]. split; [|exact Hall].
    rewrite (filter_all _ lines Hall). exact Hlen.
Qed.
End TableFacts.

(** X22. A segment of [segment_text] is a table exactly when its text has
    two lines or more and every line contains a pipe: the table test comes
    first, so such a block is a table even when it starts like a list item
    or a heading. *)
Theorem segment_text_table_iff (text0 : string) (seg : Segment) :
  seg ∈ segment_text text0 ->
  (type seg = TABLE
   <-> (2 <= length (split_on newline (text seg)))%nat
       /\ Forall (fun l => contains_char pipe l = true) (split_on newline (text seg))).
Proof.
  intros Hin.
  pose proof (segment_text_segments_shape text0) as Hall.
  rewrite Forall_forall in Hall. destruct (Hall seg Hin) as (_ & Hlines & Htype & _).
  rewrite <- (detect_table_nonblank_lines (text seg) Hlines), Htype.
  unfold _determine_segment_type.
  destruct (detect_table (text seg)); [split; reflexivity|].
  split; [|discriminate].
  destruct (detect_list (text seg)); [discriminate|].
  destruct (detect_heading (text seg)); [discriminate|].
  destruct (contains_char newline (text seg)); discriminate.
Qed.

Lemma segment_text_table_iff_witness :
  type (mkSegment (String "-" (String "|" (String newline (String "|" EmptyString))))
          0 4 TABLE) = TABLE.
Proof.
  refine (proj2 (segment_text_table_iff
                   (String "-" (String "|" (String newline (String "|" EmptyString))))
                   (mkSegment
                      (String "-" (String "|" (String newline (String "|" EmptyString))))
                      0 4 TABLE) _) _).
  - vm_compute. apply list_elem_of_singleton. reflexivity.
  - split; [simpl; lia | repeat constructor].
Defined.

(** X23. A non-empty line followed by a line of three or more [-] or [=],
    with nothing but white space after them, is a heading for
    [detect_heading], as in "Title" over "====". *)
Theorem detect_heading_underlined (title rule : string) :
  title <> EmptyString ->
  contains_char newline title = false ->
  contains_char newline rule = false ->
  underline rule = true ->
  detect_heading (title +:+ String newline rule) = true.
Proof.
  intros Hne Ht Hr Hu. unfold detect_heading.
  destruct (atx_heading (strip (title +:+ String newline rule))); [reflexivity|].
  assert (Hsplit : split_on newline (title +:+ String newline rule) = [title; rule]).
  { change (title +:+ String newline rule)
      with (join (String newline EmptyString) [title; rule]).
    apply split_on_join; [discriminate | repeat constructor; assumption]. }
  rewrite Hsplit. simpl. rewrite Hu.
  unfold nonempty_str. apply len_nonzero in Hne. rewrite Hne. reflexivity.
Qed.

Lemma detect_heading_underlined_witness :
  detect_heading (String "T" (String "i" (String "t" (String "l" (String "e"
                   (String newline "===="))))))
  = true.
Proof.
  apply (detect_heading_underlined "Title" "====");
    [discriminate | reflexivity | reflexivity | reflexivity].
Defined.

(** X24. A page whose vision text is blank falls back to the text
    extraction: [segment_text] gives no V segment, and every segment of the
    T text is emitted in order with a record of source T, without any call
    to the backend. *)
Theorem blank_vision_text_resolves_to_T {Bk : Type} `{AdjudicatorBackend Bk}
    (cls : ProvenanceRecord_class) (config : HeuristicsConfig)
    (backend : option Bk) (page : nat) (t_text v_text : string) :
  Forall (fun line => strip line = EmptyString) (split_on newline v_text) ->
  exists recs,
    process_page_text cls config backend page t_text v_text
    = Ok (text <$> segment_text t_text, recs, [], backend)
    /\ Forall (fun r => rec_source r = T) recs
    /\ chosen_text <$> recs = text <$> segment_text t_text
    /\ segment_idx <$> recs = seq 0 (length (segment_text t_text)).
Proof.
  intros Hblank. apply segment_text_empty_iff_blank_lines in Hblank.
  unfold process_page_text. rewrite Hblank.
  assert (Hne : Forall (fun t => text t <> EmptyString) (segment_text t_text)).
  { eapply Forall_impl; [apply segment_text_segments_shape|].
    intros seg (Hn & _). exact Hn. }
  set (ts := segment_text t_text) in *.
  exists (zip_with (t_only_record cls page) (seq 0 (length ts)) ts).
  split; [|split; [|split]].
  - unfold process_page. rewrite align_segments_no_v. simpl.
    unfold enumerate. rewrite length_fmap.
    rewrite (select_loop_t_only cls config page ts [] ts Hne). simpl.
    destruct backend; reflexivity.
  - apply Forall_forall. intros r Hr.
    apply list_elem_of_lookup in Hr as [i Hi].
    apply lookup_zip_with_Some in Hi as (k & t & -> & _ & _). reflexivity.
  - clear Hne. generalize 0%nat. induction ts as [|t ts IH]; intros a; [reflexivity|].
    cbn [length seq zip_with fmap list_fmap]. f_equal. apply IH.
  - clear Hne. generalize 0%nat. induction ts as [|t ts IH]; intros a; [reflexivity|].
    cbn [length seq zip_with fmap list_fmap]. f_equal. apply IH.
Qed.

Lemma blank_vision_text_resolves_to_T_witness :
  exists recs,
    process_page_text (define_ProvenanceRecord 0%Z) default_heuristics
      (Some raising_backend) 0 "Hello world" "  "
    = Ok (["Hello world"], recs, [], Some raising_backend)
    /\ Forall (fun r => rec_source r = T) recs.
Proof.
  destruct (blank_vision_text_resolves_to_T (define_ProvenanceRecord 0%Z)
              default_heuristics (Some raising_backend) 0 "Hello world" "  ")
    as (recs & Hrun & Hsrc & _).
  - repeat constructor.
  - exists recs. split; [exact Hrun | exact Hsrc].
Defined.

(** ** Normalisation of a text for comparison *)

Section NormalizeFacts.
Local Open Scope nat_scope.

Lemma isspace_lower_char (c : ascii) : isspace (lower_char c) = isspace c.
Proof. destruct c as [[] [] [] [] [] [] [] []]; reflexivity. Qed.

Lemma lower_char_idem (c : ascii) : lower_char (lower_char c) = lower_char c.
Proof. destruct c as [[] [] [] [] [] [] [] []]; reflexivity. Qed.

Lemma lower_idem (s : string) : lower (lower s) = lower s.
Proof.
  induction s as [|c s IH]; [reflexivity|]. simpl. rewrite lower_char_idem, IH.
  reflexivity.
Qed.

Lemma lower_app (a b : string) : lower (a +:+ b) = lower a +:+ lower b.
Proof.
  induction a as [|c a IH]; [reflexivity|].
  change (String (lower_char c) (lower (a +:+ b))
          = String (lower_char c) (lower a +:+ lower b)).
  rewrite IH. reflexivity.
Qed.

Lemma lower_of_list (l : list ascii) :
  lower (string_of_list_ascii l) = string_of_list_ascii (map lower_char l).
Proof. induction l as [|c l IH]; [reflexivity|]. simpl. rewrite IH. reflexivity. Qed.

Lemma lower_join (sep : string) (toks : list string) :
  lower (join sep toks) = join (lower sep) (lower <$> toks).
Proof.
  induction toks as [|t toks IH]; [reflexivity|].
  destruct toks as [|u toks]; [reflexivity|].
  rewrite join_cons by discriminate.
  cbn [fmap list_fmap] in *.
  rewrite (join_cons (lower sep) (lower t)) by discriminate.
  rewrite !lower_app, IH. reflexivity.
Qed.

Lemma split_ws_aux_lower (s : string) (cur : list ascii) :
  split_ws_aux (lower s) (map lower_char cur) = lower <$> split_ws_aux s cur.
Proof.
  revert cur. induction s as [|c s IH]; intros cur.
  - simpl. destruct cur as [|x cur]; [reflexivity|].
    cbn [map fmap list_fmap]. rewrite lower_of_list, map_rev. reflexivity.
  - cbn [lower split_ws_aux]. rewrite isspace_lower_char.
    destruct (isspace c).
    + rewrite fmap_app. change (@nil ascii) with (map lower_char []) at 1.
      rewrite IH. f_equal.
      destruct cur as [|x cur]; [reflexivity|].
      cbn [map fmap list_fmap]. rewrite lower_of_list, map_rev. reflexivity.
    + change (lower_char c :: map lower_char cur) with (map lower_char (c :: cur)).
      apply IH.
Qed.

Lemma split_ws_lower (s : string) : split_ws (lower s) = lower <$> split_ws s.
Proof. apply (split_ws_aux_lower s []). Qed.

Lemma split_ws_lstrip (s : string) : split_ws (lstrip s) = split_ws s.
Proof.
  unfold split_ws. induction s as [|c s IH]; [reflexivity|].
  cbn [lstrip split_ws_aux]. destruct (isspace c) eqn:E; [exact IH|].
  cbn [split_ws_aux]. rewrite E. reflexivity.
Qed.

Lemma split_ws_aux_step (c : ascii) (s : string) (cur : list ascii) :
  split_ws_aux (String c s) cur
  = if isspace c
    then match cur with
         | [] => []
         | _ => [string_of_list_ascii (rev cur)]
         end ++ split_ws_aux s []
    else split_ws_aux s (c :: cur).
Proof. reflexivity. Qed.

Lemma split_ws_aux_rstrip (s : string) :
  forall cur, split_ws_aux (rstrip s) cur = split_ws_aux s cur.
Proof.
  induction s as [|c s IH]; intros cur; [reflexivity|].
  cbn [rstrip]. rewrite (split_ws_aux_step c s cur).
  destruct (rstrip s) as [|d r] eqn:Er.
  - rewrite <- !IH. destruct (isspace c) eqn:Ec.
    + simpl. rewrite app_nil_r. reflexivity.
    + rewrite split_ws_aux_step, Ec. reflexivity.
  - rewrite split_ws_aux_step, !IH. reflexivity.
Qed.

Lemma split_ws_strip (s : string) : split_ws (strip s) = split_ws s.
Proof.
  unfold strip, split_ws. rewrite split_ws_aux_rstrip. apply split_ws_lstrip.
Qed.

Lemma all_chars_of_list (p : ascii -> bool) (l : list ascii) :
  all_chars p (string_of_list_ascii l) = true <-> Forall (fun c => p c = true) l.
Proof.
  induction l as [|c l IH]; simpl.
  - split; [constructor | reflexivity].
  - rewrite andb_true_iff, IH. split.
    + intros [Hc Hl]. constructor; assumption.
    + intros Hall. inversion Hall; subst. split; assumption.
Qed.

Lemma word_of_run (cur : list ascii) :
  cur <> [] -> Forall (fun c => negb (isspace c) = true) cur ->
  word (string_of_list_ascii (rev cur)).
Proof.
  intros Hne Hall. split.
  - intros He. apply (f_equal list_ascii_of_string) in He.
    rewrite list_ascii_of_string_of_list_ascii in He. simpl in He.
    apply (f_equal (@rev ascii)) in He. rewrite rev_involutive in He. contradiction.
  - apply all_chars_of_list, Forall_rev, Hall.
Qed.

Lemma split_ws_aux_words (s : string) :
  forall cur, Forall (fun c => negb (isspace c) = true) cur ->
    Forall word (split_ws_aux s cur).
Proof.
  induction s as [|c s IH]; intros cur Hcur.
  - simpl. destruct cur as [|x cur]; [constructor|].
    constructor; [|constructor]. apply word_of_run; [discriminate | exact Hcur].
  - cbn [split_ws_aux]. destruct (isspace c) eqn:Ec.
    + apply Forall_app_2; [|apply IH; constructor].
      destruct cur as [|x cur]; [constructor|].
      constructor; [|constructor]. apply word_of_run; [discriminate | exact Hcur].
    + apply IH. constructor; [rewrite Ec; reflexivity | exact Hcur].
Qed.

(** [s.split()] returns words. *)
Lemma split_ws_words (s : string) : Forall word (split_ws s).
Proof. apply split_ws_aux_words. constructor. Qed.

Lemma split_ws_aux_word_app (w rest : string) (cur : list ascii) :
  all_chars (fun c => negb (isspace c)) w = true ->
  split_ws_aux (w +:+ rest) cur
  = split_ws_aux rest (rev (list_ascii_of_string w) ++ cur).
Proof.
  revert cur. induction w as [|c w IH]; intros cur Hw; [reflexivity|].
  simpl in Hw. apply andb_prop in Hw as [Hc Hw]. apply negb_true_iff in Hc.
  change (String c w +:+ rest) with (String c (w +:+ rest)).
  cbn [split_ws_aux]. rewrite Hc, (IH _ Hw). simpl. rewrite <- app_assoc. reflexivity.
Qed.

Lemma run_of_word (w : string) :
  w <> EmptyString ->
  match rev (list_ascii_of_string w) with
  | [] => []
  | _ => [string_of_list_ascii (rev (rev (list_ascii_of_string w)))]
  end = [w].
Proof.
  intros Hne. destruct (rev (list_ascii_of_string w)) as [|x l] eqn:Er.
  - apply (f_equal (@rev ascii)) in Er. rewrite rev_involutive in Er. simpl in Er.
    apply (f_equal string_of_list_ascii) in Er.
    rewrite string_of_list_ascii_of_string in Er. contradiction.
  - rewrite <- Er, rev_involutive, string_of_list_ascii_of_string. reflexivity.
Qed.

(** Words joined by single spaces split into the same words. *)
Lemma split_ws_join_words (toks : list string) :
  Forall word toks -> split_ws (join " " toks) = toks.
Proof.
  unfold split_ws. induction 1 as [|w toks [Hne Hw] Htoks IH]; [reflexivity|].
  destruct toks as [|u toks].
  - simpl join. rewrite <- (str_app_nil_r w) at 1.
    rewrite (split_ws_aux_word_app w EmptyString [] Hw), app_nil_r.
    cbn [split_ws_aux]. apply run_of_word, Hne.
  - rewrite join_cons by discriminate.
    rewrite (split_ws_aux_word_app w _ [] Hw), app_nil_r.
    change (" " +:+ join " " (u :: toks)) with (String " " (join " " (u :: toks))).
    cbn [split_ws_aux]. change (isspace " ") with true. cbv iota.
    rewrite (run_of_word w Hne), IH. reflexivity.
Qed.

Lemma word_lower (w : string) : word w -> word (lower w).
Proof.
  intros [Hne Hw]. split.
  - destruct w; [contradiction | discriminate].
  - clear Hne. induction w as [|c w IH]; [reflexivity|].
    simpl in *. apply andb_prop in Hw as [Hc Hw].
    rewrite isspace_lower_char, Hc, (IH Hw). reflexivity.
Qed.

Lemma normalize_text_words (s : string) :
  normalize_text s = join " " (lower <$> split_ws s).
Proof. unfold normalize_text. rewrite split_ws_strip, split_ws_lower. reflexivity. Qed.
End NormalizeFacts.

(** X25. [normalize_text] is idempotent, and its result is a list of words
    (non-empty, free of white space) joined by single spaces. *)
Theorem normalize_text_idempotent (s : string) :
  normalize_text (normalize_text s) = normalize_text s
  /\ exists words,
       Forall (fun w => w <> EmptyString
                        /\ all_chars (fun c => negb (isspace c)) w = true) words
       /\ normalize_text s = join " " words.
Proof.
  assert (Hwords : Forall word (lower <$> split_ws s)).
  { apply Forall_fmap. eapply Forall_impl; [apply split_ws_words|].
    intros w Hw. apply word_lower, Hw. }
  split.
  - rewrite (normalize_text_words s).
    rewrite (normalize_text_words (join " " (lower <$> split_ws s))).
    rewrite (split_ws_join_words _ Hwords). f_equal.
    rewrite <- list_fmap_compose. apply list_fmap_ext. intros _ w _.
    simpl. apply lower_idem.
  - exists (lower <$> split_ws s). split; [exact Hwords | apply normalize_text_words].
Qed.

Section WhitespaceFacts.
Local Open Scope nat_scope.

Lemma starts_collapse_spaces (s : string) :
  starts_with_char space (collapse_spaces s) = starts_with_char space s.
Proof.
  induction s as [|c s IH]; [reflexivity|].
  cbn [collapse_spaces starts_with_char].
  destruct (Ascii.eqb c space) eqn:Ec; destruct (starts_with_char space s) eqn:Es;
    cbn [andb starts_with_char]; rewrite ?Ec; auto.
Qed.

Lemma single_spaced_collapse_spaces (s : string) :
  single_spaced (collapse_spaces s) = true.
Proof.
  induction s as [|c s IH]; [reflexivity|].
  cbn [collapse_spaces].
  destruct (Ascii.eqb c space && starts_with_char space s) eqn:E; [exact IH|].
  cbn [single_spaced]. rewrite starts_collapse_spaces, E, IH. reflexivity.
Qed.

Lemma single_spaced_collapse_newlines (s : string) (seen : nat) :
  single_spaced s = true ->
  single_spaced (collapse_newlines seen s) = true
  /\ (starts_with_char space (collapse_newlines seen s) = true ->
      starts_with_char space s = true \/ 2 <= seen).
Proof.
  revert seen. induction s as [|c s IH]; intros seen Hs.
  - split; [reflexivity | intros H; discriminate H].
  - cbn [single_spaced] in Hs. apply andb_prop in Hs as [Hc Hs].
    cbn [collapse_newlines].
    destruct (Ascii.eqb c newline) eqn:En.
    + apply Ascii.eqb_eq in En. subst c.
      destruct (seen <? 2) eqn:Eseen.
      * destruct (IH (S seen) Hs) as [H1 _]. split.
        -- cbn [single_spaced]. rewrite H1. reflexivity.
        -- intros H. discriminate H.
      * apply Nat.ltb_ge in Eseen.
        destruct (IH (S seen) Hs) as [H1 _]. split; [exact H1|].
        intros _. right. exact Eseen.
    + destruct (IH 0 Hs) as [H1 H2]. split.
      * cbn [single_spaced]. rewrite H1, andb_true_r.
        destruct (Ascii.eqb c space) eqn:Ec; [|reflexivity].
        destruct (starts_with_char space (collapse_newlines 0 s)) eqn:Est; [|reflexivity].
        destruct (H2 eq_refl) as [H | H]; [|lia].
        rewrite H in Hc. discriminate Hc.
      * cbn [starts_with_char]. intros H. left. exact H.
Qed.

Lemma single_spaced_app_inv (a b : string) :
  single_spaced (a +:+ b) = true -> single_spaced a = true /\ single_spaced b = true.
Proof.
  induction a as [|x a IH]; intros H; [split; [reflexivity | exact H]|].
  change (single_spaced (String x (a +:+ b)) = true) in H.
  cbn [single_spaced] in H. apply andb_prop in H as [Hx H].
  destruct (IH H) as [Ha Hb]. split; [|exact Hb].
  cbn [single_spaced]. rewrite Ha, andb_true_r.
  destruct (Ascii.eqb x space); [|reflexivity].
  destruct a as [|y a]; [reflexivity|]. exact Hx.
Qed.

Lemma single_spaced_app_newline (a b : string) :
  single_spaced a = true -> single_spaced b = true ->
  single_spaced (a +:+ String newline b) = true.
Proof.
  induction a as [|x a IH]; intros Ha Hb.
  - change (single_spaced (String newline b) = true).
    cbn [single_spaced]. rewrite Hb. reflexivity.
  - change (single_spaced (String x (a +:+ String newline b)) = true).
    cbn [single_spaced] in *. apply andb_prop in Ha as [Hx Ha].
    rewrite (IH Ha Hb), andb_true_r.
    destruct (Ascii.eqb x space); [|reflexivity].
    destruct a as [|y a]; [reflexivity|]. exact Hx.
Qed.

Lemma single_spaced_join (ls : list string) :
  Forall (fun l => single_spaced l = true) ls ->
  single_spaced (join (String newline EmptyString) ls) = true.
Proof.
  induction 1 as [|l ls Hl Hls IH]; [reflexivity|].
  destruct (decide (ls = [])) as [-> | Hne]; [exact Hl|].
  rewrite (join_cons _ l ls Hne).
  change (single_spaced (l +:+ String newline (join (String newline EmptyString) ls)) = true).
  apply single_spaced_app_newline; assumption.
Qed.

Lemma join_piece (sep l : string) (ls : list string) :
  l ∈ ls -> exists a b, join sep ls = a +:+ l +:+ b.
Proof.
  induction 1 as [l ls | l l' ls Hin IH].
  - destruct (decide (ls = [])) as [-> | Hne].
    + exists EmptyString, EmptyString. cbn [join]. rewrite str_app_nil_r. reflexivity.
    + exists EmptyString, (sep +:+ join sep ls). rewrite (join_cons _ _ _ Hne). reflexivity.
  - destruct IH as (a & b & Hab).
    assert (Hne : ls <> []) by (intros ->; inversion Hin).
    exists (l' +:+ sep +:+ a), b.
    rewrite (join_cons _ _ _ Hne), Hab, !str_app_assoc. reflexivity.
Qed.

Lemma lstrip_piece (s : string) : exists a, s = a +:+ lstrip s.
Proof.
  induction s as [|c s [a IH]]; [exists EmptyString; reflexivity|].
  cbn [lstrip]. destruct (isspace c).
  - exists (String c a). change (String c s = String c (a +:+ lstrip s)).
    rewrite <- IH. reflexivity.
  - exists EmptyString. reflexivity.
Qed.

Lemma rstrip_piece (s : string) : exists b, s = rstrip s +:+ b.
Proof.
  induction s as [|c s [b IH]]; [exists EmptyString; reflexivity|].
  cbn [rstrip]. destruct (rstrip s) as [|d r] eqn:Er.
  - destruct (isspace c).
    + exists (String c s). reflexivity.
    + exists b. change (String c s = String c b). rewrite IH at 1. reflexivity.
  - exists b. change (String c s = String c (String d r +:+ b)).
    rewrite <- IH. reflexivity.
Qed.

Lemma single_spaced_strip (s : string) :
  single_spaced s = true -> single_spaced (strip s) = true.
Proof.
  intros H. unfold strip.
  destruct (lstrip_piece s) as [a Ha]. rewrite Ha in H.
  apply single_spaced_app_inv in H as [_ H].
  destruct (rstrip_piece (lstrip s)) as [b Hb]. rewrite Hb in H.
  apply single_spaced_app_inv in H as [H _]. exact H.
Qed.

Lemma single_spaced_lines (s : string) :
  single_spaced s = true ->
  Forall (fun l => single_spaced l = true) (split_on newline s).
Proof.
  intros H. apply Forall_forall. intros l Hl.
  destruct (join_piece (String newline EmptyString) l _ Hl) as (a & b & Hab).
  rewrite join_split_on in Hab. rewrite Hab in H.
  apply single_spaced_app_inv in H as [_ H].
  apply single_spaced_app_inv in H as [H _]. exact H.
Qed.

Lemma split_on_nonempty (sep : ascii) (s : string) : split_on sep s <> [].
Proof. unfold split_on. apply split_on_aux_nonempty. Qed.

End WhitespaceFacts.

(** X26 (core/utils.py, normalize_whitespace): whatever the text, the
    result never has two spaces in a row, and each of its lines is already
    stripped: splitting the result at line breaks gives back the stripped
    lines of the collapsed text, none of which starts or ends with white
    space. *)
Theorem normalize_whitespace_result (text : string) :
  single_spaced (normalize_whitespace text) = true
  /\ split_on newline (normalize_whitespace text)
     = map strip (split_on newline (collapse_newlines O (collapse_spaces text)))
  /\ Forall (fun l => strip l = l) (split_on newline (normalize_whitespace text)).
Proof.
  assert (Hsplit : split_on newline (normalize_whitespace text)
     = map strip (split_on newline (collapse_newlines O (collapse_spaces text)))).
  { unfold normalize_whitespace. apply split_on_join.
    - intros H. apply map_eq_nil in H. exact (split_on_nonempty _ _ H).
    - apply Forall_map. eapply Forall_impl; [apply split_on_no_sep|].
      intros l Hl. cbn beta. apply contains_char_strip, Hl. }
  split; [|split; [exact Hsplit|]].
  - unfold normalize_whitespace. apply single_spaced_join.
    apply Forall_map.
    eapply Forall_impl; [apply single_spaced_lines|].
    + apply single_spaced_collapse_newlines, single_spaced_collapse_spaces.
    + intros l Hl. cbn beta. apply single_spaced_strip, Hl.
  - rewrite Hsplit. apply Forall_map. apply Forall_forall. intros l _.
    cbn beta. apply strip_idem.
Qed.

Section RunRecords.
Context {Bk : Type} `{AdjudicatorBackend Bk}.
Context (cls : ProvenanceRecord_class) (config : HeuristicsConfig).
Local Open Scope nat_scope.

Lemma count_record_loop (records : list ProvenanceRecord) :
  Forall (fun r => rec_source r <> AMBIGUOUS) records ->
  forall st,
    foldl count_record st records
    = mkStats (stats_T st + count_source T records)
              (stats_V st + count_source V records)
              (stats_LLM st + count_source LLM records).
Proof.
  unfold count_source.
  induction 1 as [|r records Hr _ IH]; intros [t v l].
  - cbn. f_equal; lia.
  - cbn [foldl]. rewrite IH. unfold count_record, has_source. cbn [List.filter].
    destruct (rec_source r); try contradiction; cbn; f_equal; lia.
Qed.

Lemma count_source_total (records : list ProvenanceRecord) :
  Forall (fun r => rec_source r <> AMBIGUOUS) records ->
  count_source T records + count_source V records + count_source LLM records
  = length records.
Proof.
  unfold count_source. induction 1 as [|r records Hr _ IH]; [reflexivity|].
  unfold has_source in *. cbn [List.filter].
  destruct (rec_source r); try contradiction; cbn [length]; lia.
Qed.

Lemma count_source_none (s : Source) (records : list ProvenanceRecord) :
  Forall (fun r => rec_source r <> s) records -> count_source s records = 0.
Proof.
  unfold count_source. induction 1 as [|r records Hr _ IH]; [reflexivity|].
  cbn [List.filter]. unfold has_source at 1.
  destruct s, (rec_source r); try contradiction; exact IH.
Qed.

(** The records of a run: those of the selector and, with a backend,
    those of the adjudication. *)
Lemma extract_records (backend backend' : option Bk)
    (pages : list (list Segment * list Segment)) res printed :
  extract cls config backend pages = Ok (res, printed, backend') ->
  Forall (fun r => selector_record r \/ adjudication_record r /\ is_Some backend)
    (records res)
  /\ pages_processed res = length pages.
Proof.
  unfold extract. intros Hrun.
  apply bind_Ok in Hrun as ([[[segs recs] pr] b] & Hloop & Hrun).
  apply bind_Ok in Hrun as (md & _ & Hrun).
  injection Hrun as <- _ _. cbn [records pages_processed]. split; [|reflexivity].
  pose (P := fun st : list string * list ProvenanceRecord * list string * option Bk =>
               Forall (fun r => selector_record r
                                \/ adjudication_record r /\ is_Some backend) st.1.1.2
               /\ (backend = None -> st.2 = None)).
  assert (HP : P (segs, recs, pr, b)).
  { eapply (for_each_invariant P); [| | exact Hloop].
    - intros [[[s0 r0] p0] b0] [page [ts vs]] st' [Hrecs Hb] Hbody.
      apply bind_Ok in Hbody as ([[[ps prs] pp] pb] & Hpage & Hst).
      injection Hst as <-. unfold P. cbn [fst snd] in *.
      destruct (process_page_emits _ _ _ _ _ _ _ _ _ _ Hpage)
        as (pairs & drecs & damb & arecs & _ & -> & _ & Hd & Ha & _ & Hcase).
      destruct Hcase as [(_ & -> & _ & ->) | (Hsome & _)].
      + split; [|exact Hb].
        rewrite app_nil_r. apply Forall_app. split; [exact Hrecs|].
        eapply Forall_impl; [exact Hd|]. intros r [Hr _]. left. exact Hr.
      + assert (Hbk : is_Some backend).
        { destruct backend as [bk|]; [eexists; reflexivity|].
          rewrite (Hb eq_refl) in Hsome. exact Hsome. }
        split.
        * apply Forall_app. split; [exact Hrecs|].
          apply Forall_app. split.
          -- eapply Forall_impl; [exact Hd|]. intros r [Hr _]. left. exact Hr.
          -- eapply Forall_impl; [exact Ha|]. intros r [Hr _]. right. split; assumption.
        * intros ->. destruct Hbk as [? Hbk]. discriminate Hbk.
    - split; [constructor | intros Hb; exact Hb]. }
  exact (proj1 HP).
Qed.

End RunRecords.

(** X27 (simple.py, _extract_hybrid over pipeline.extract): the statistics
    of a run. The records of a run have source T, V or LLM only, so the
    last branch of the count, which takes every other source, counts the T
    records exactly; the three counters add up to the number of records;
    and without an adjudicator backend the LLM counter stays 0. *)
Theorem extract_stats_count_sources {Bk : Type} `{AdjudicatorBackend Bk}
    (cls : ProvenanceRecord_class) (config : HeuristicsConfig)
    (backend backend' : option Bk) (pages : list (list Segment * list Segment))
    (res : ExtractionResult) (printed : list string) :
  extract cls config backend pages = Ok (res, printed, backend') ->
  let stats := build_stats (records res) in
  stats_T stats = count_source T (records res)
  /\ (stats_T stats + stats_V stats + stats_LLM stats = length (records res))%nat
  /\ (backend = None -> stats_LLM stats = 0%nat)
  /\ pages_processed res = length pages.
Proof.
  intros Hrun stats.
  destruct (extract_records _ _ _ _ _ _ _ Hrun) as [Hrecs Hpages].
  assert (Hsrc : Forall (fun r => rec_source r <> AMBIGUOUS) (records res)).
  { eapply Forall_impl; [exact Hrecs|]. intros r [[[Hr | Hr] _] | [[Hr _] _]];
      rewrite Hr; discriminate. }
  assert (Hstats : stats = mkStats (count_source T (records res))
                             (count_source V (records res))
                             (count_source LLM (records res))).
  { unfold stats, build_stats. rewrite (count_record_loop _ Hsrc). reflexivity. }
  rewrite Hstats. cbn [stats_T stats_V stats_LLM].
  split; [reflexivity|]. split; [apply count_source_total, Hsrc|].
  split; [|exact Hpages].
  intros ->. apply count_source_none.
  eapply Forall_impl; [exact Hrecs|].
  intros r [[[Hr | Hr] _] | [_ [x Hx]]]; [rewrite Hr; discriminate .. | discriminate Hx].
Qed.

Lemma extract_stats_count_sources_witness :
  exists res,
    stats_T (build_stats (records res)) = count_source T (records res)
    /\ pages_processed res = 2%nat.
Proof.
  eexists.
  refine ((fun H => conj (proj1 H) (proj2 (proj2 (proj2 H))))
            (extract_stats_count_sources (define_ProvenanceRecord 0%Z)
               default_heuristics (None : option MockAdjudicatorBackend) None
               [([mkSegment "abcd" 0 4 SENTENCE; mkSegment "xyz" 4 7 SENTENCE],
                 [mkSegment "abcdefg" 0 7 SENTENCE; mkSegment "xyz" 7 10 SENTENCE]);
                ([mkSegment "abcd" 0 4 SENTENCE], [])]
               _ _ _)).
  vm_compute. reflexivity.
Defined.

Section DeepMergeFacts.
Context {A : Type}.
Local Open Scope nat_scope.

Lemma deref_Ok (h : heap (A:=A)) (p : nat) (d : dict) :
  deref h p = Ok d <-> h !! p = Some d.
Proof.
  unfold deref. destruct (h !! p) as [d'|]; split; intros E;
    try discriminate; congruence.
Qed.

Lemma insert_new (h new : heap (A:=A)) (d : dict) :
  new <> [] ->
  exists new', <[length h := d]> (h ++ new) = h ++ new' /\ new' <> []
               /\ length new' = length new.
Proof.
  intros Hne. exists (<[0 := d]> new).
  rewrite insert_app_r_alt by lia. rewrite Nat.sub_diag.
  split; [reflexivity|]. split; [|apply length_insert].
  destruct new; [contradiction | discriminate].
Qed.

(** The merge only adds to the heap; its result is the first dictionary it
    adds. *)
Lemma _deep_merge_extends (fuel : nat) :
  forall (base override : nat) (h : heap (A:=A)) r h',
    _deep_merge fuel base override h = Ok (r, h') ->
    r = length h /\ exists new, h' = h ++ new /\ new <> [].
Proof.
  induction fuel as [|fuel IH]; intros base override h r h' Hrun; [discriminate|].
  cbn [_deep_merge] in Hrun.
  apply bind_Ok in Hrun as (base_dict & _ & Hrun).
  apply bind_Ok in Hrun as (items & _ & Hrun).
  apply bind_Ok in Hrun as (h2 & Hloop & Hrun).
  injection Hrun as <- <-. split; [reflexivity|].
  pose (P := fun hc : heap (A:=A) => exists new, hc = h ++ new /\ new <> []).
  change (P h2).
  eapply (for_each_invariant P); [| | exact Hloop].
  - intros hc [key value] hc' (new & -> & Hne) Hbody.
    apply bind_Ok in Hbody as (result_dict & _ & Hbody).
    assert (Hset : forall d hc', Ok (<[length h := d]> (h ++ new)) = Ok hc' -> P hc').
    { intros d hc0 Hd. injection Hd as <-.
      destruct (insert_new h new d Hne) as (new' & -> & Hne' & _).
      exists new'. split; [reflexivity | exact Hne']. }
    destruct (dict_get key result_dict) as [[a|r]|]; destruct value as [a'|o];
      try exact (Hset _ _ Hbody).
    apply bind_Ok in Hbody as ([merged h1] & Hcall & Hbody).
    apply bind_Ok in Hbody as (result_dict' & _ & Hbody).
    injection Hbody as <-.
    destruct (IH _ _ _ _ _ Hcall) as (_ & new1 & -> & _).
    rewrite <- app_assoc.
    destruct (insert_new h (new ++ new1) (dict_set key (DictRef merged) result_dict'))
      as (new' & Heq & Hne' & _).
    { intros Hnil. apply app_eq_nil in Hnil as [Hnil _]. contradiction. }
    exists new'. split; [exact Heq | exact Hne'].
  - exists [base_dict]. split; [reflexivity | discriminate].
Qed.

Lemma ref_below_mono (n m : nat) (d : dict (A:=A)) :
  n <= m -> Forall (ref_below n) d -> Forall (ref_below m) d.
Proof.
  intros Hle Hd. eapply Forall_impl; [exact Hd|].
  intros [k [a|q]]; unfold ref_below; cbn; [trivial | lia].
Qed.

Lemma closed_app (h new : heap (A:=A)) :
  closed h -> Forall (Forall (ref_below (length h + length new))) new ->
  closed (h ++ new).
Proof.
  unfold closed. intros Hh Hnew. rewrite length_app. apply Forall_app. split.
  - eapply Forall_impl; [exact Hh|]. intros d. apply ref_below_mono. lia.
  - exact Hnew.
Qed.

Lemma closed_lookup (h : heap (A:=A)) (p : nat) (d : dict) :
  closed h -> h !! p = Some d -> Forall (ref_below (length h)) d.
Proof. intros Hh Hp. exact (proj1 (Forall_lookup _ _) Hh p d Hp). Qed.

Lemma closed_insert (h : heap (A:=A)) (p : nat) (d : dict) :
  closed h -> Forall (ref_below (length h)) d -> closed (<[p := d]> h).
Proof.
  unfold closed, heap, dict in *. intros Hh Hd. rewrite length_insert.
  destruct (decide (p < length h)) as [Hp|Hp].
  - apply Forall_insert; assumption.
  - rewrite list_insert_ge by lia. exact Hh.
Qed.

Lemma ref_below_dict_get (n : nat) (key : string) (d : dict (A:=A)) (q : nat) :
  Forall (ref_below n) d -> dict_get key d = Some (DictRef q) -> q < n.
Proof.
  induction 1 as [|[k v] d Hv _ IH]; [discriminate|].
  cbn [dict_get]. destruct (String.eqb k key); [|exact IH].
  intros E. injection E as ->. exact Hv.
Qed.

Lemma ref_below_dict_set (n : nat) (key : string) (value : pyvalue A) (d : dict) :
  Forall (ref_below n) d -> ref_below n (key, value) ->
  Forall (ref_below n) (dict_set key value d).
Proof.
  intros Hd Hv. induction Hd as [|[k v] d Hkv Hd IH].
  - constructor; [exact Hv | constructor].
  - cbn [dict_set]. destruct (String.eqb k key).
    + constructor; [exact Hv | exact Hd].
    + constructor; [exact Hkv | exact IH].
Qed.

Lemma nests_app (n : nat) :
  forall (h new : heap (A:=A)) (p : nat), nests h n p -> nests (h ++ new) n p.
Proof.
  induction n as [|n IH]; intros h new p; [intros []|].
  intros (d & Hp & Hd). exists d. split.
  - apply lookup_app_l_Some. exact Hp.
  - eapply Forall_impl; [exact Hd|]. intros [k [a|q]]; cbn; [trivial | apply IH].
Qed.

(** With fuel for the depth of [override], the merge returns. *)
Lemma _deep_merge_runs (n : nat) :
  forall (base override : nat) (h : heap (A:=A)),
    closed h -> base < length h -> nests h n override ->
    exists h', _deep_merge n base override h = Ok (length h, h') /\ closed h'.
Proof.
  induction n as [|n IH]; intros base override h Hclosed Hbase Hnests;
    [destruct Hnests|].
  destruct Hnests as (items & Hitems & Hdeep).
  destruct (lookup_lt_is_Some_2 h base Hbase) as [base_dict Hb].
  cbn [_deep_merge].
  rewrite (proj2 (deref_Ok h base base_dict) Hb). cbn [mbind result_bind].
  rewrite (proj2 (deref_Ok (h ++ [base_dict]) override items))
    by (apply lookup_app_l_Some; exact Hitems).
  cbn [mbind result_bind].
  pose proof (closed_lookup _ _ _ Hclosed Hitems) as Hrefs.
  assert (Hstart : closed (h ++ [base_dict])).
  { apply closed_app; [exact Hclosed|]. constructor; [|constructor].
    eapply ref_below_mono; [|exact (closed_lookup _ _ _ Hclosed Hb)]. lia. }
  assert (Hloop : forall its : dict,
            Forall (ref_below (length h)) its ->
            Forall (fun kv : string * pyvalue A =>
                      match kv.2 with
                      | DictRef q => nests h n q
                      | Atom _ => True
                      end) its ->
            forall new, new <> [] -> closed (h ++ new) ->
            exists hc',
              for_each its
                (fun (hc : heap) '(key, value) =>
                   result_dict ← deref hc (length h);
                   match dict_get key result_dict, value with
                   | Some (DictRef r), DictRef o =>
                       '(merged, hc) ← _deep_merge n r o hc;
                       result_dict ← deref hc (length h);
                       Ok (<[length h := dict_set key (DictRef merged) result_dict]> hc)
                   | _, _ => Ok (<[length h := dict_set key value result_dict]> hc)
                   end)
                (h ++ new)
              = Ok hc' /\ closed hc').
  { clear Hitems Hdeep Hrefs items Hstart.
    induction its as [|[key value] its IHits]; intros Hrefs Hdeep new Hne Hc.
    - exists (h ++ new). split; [reflexivity | exact Hc].
    - apply Forall_cons in Hrefs as [Hv Hrefs]. apply Forall_cons in Hdeep as [Hn Hdeep].
      cbn [snd] in Hv, Hn. cbn [for_each].
      assert (Hres : length h < length (h ++ new)).
      { rewrite length_app. destruct new; [contradiction | cbn; lia]. }
      destruct (lookup_lt_is_Some_2 _ _ Hres) as [result_dict Hrd].
      rewrite (proj2 (deref_Ok _ _ _) Hrd). cbn [mbind result_bind].
      assert (Hplain : forall v, ref_below (length h) (key, v) ->
                exists hc',
                  Ok (<[length h := dict_set key v result_dict]> (h ++ new))
                  ≫= (fun acc' => for_each its
                        (fun (hc : heap) '(key, value) =>
                           result_dict ← deref hc (length h);
                           match dict_get key result_dict, value with
                           | Some (DictRef r), DictRef o =>
                               '(merged, hc) ← _deep_merge n r o hc;
                               result_dict ← deref hc (length h);
                               Ok (<[length h := dict_set key (DictRef merged) result_dict]> hc)
                           | _, _ => Ok (<[length h := dict_set key value result_dict]> hc)
                           end) acc')
                  = Ok hc' /\ closed hc').
      { intros v Hvr. cbn [mbind result_bind].
        destruct (insert_new h new (dict_set key v result_dict) Hne)
          as (new' & Heq & Hne' & Hlen).
        assert (Hc' : closed (<[length h := dict_set key v result_dict]> (h ++ new))).
        { apply closed_insert; [exact Hc|].
          apply ref_below_dict_set; [exact (closed_lookup _ _ _ Hc Hrd)|].
          destruct v as [a|q]; cbn in *; [trivial|]. rewrite length_app. lia. }
        pose proof (eq_ind _ closed Hc' _ Heq) as Hc''.
        destruct (IHits Hrefs Hdeep new' Hne' Hc'') as (hc' & Hrun & Hcl).
        exists hc'. split; [|exact Hcl].
        etrans; [|exact Hrun]. f_equal. exact Heq. }
      destruct (dict_get key result_dict) as [[a|r]|] eqn:Eget;
        destruct value as [a'|o]; try (apply Hplain; exact Hv).
      pose proof (ref_below_dict_get _ _ _ _ (closed_lookup _ _ _ Hc Hrd) Eget) as Hr.
      destruct (IH r o (h ++ new) Hc Hr (nests_app _ _ _ _ Hn)) as (h1 & Hcall & Hc1).
      rewrite Hcall. cbn [mbind result_bind].
      destruct (_deep_merge_extends _ _ _ _ _ _ Hcall) as (_ & new1 & -> & Hne1).
      rewrite <- app_assoc in *.
      assert (Hne2 : new ++ new1 <> []).
      { intros Hnil. apply app_eq_nil in Hnil as [Hnil _]. contradiction. }
      assert (Hres1 : length h < length (h ++ new ++ new1)).
      { rewrite !length_app. destruct new; [contradiction | cbn; lia]. }
      destruct (lookup_lt_is_Some_2 _ _ Hres1) as [result_dict' Hrd'].
      rewrite (proj2 (deref_Ok _ _ _) Hrd'). cbn [mbind result_bind].
      destruct (insert_new h (new ++ new1)
                  (dict_set key (DictRef (length (h ++ new))) result_dict') Hne2)
        as (new' & Heq & Hne' & Hlen).
      assert (Hc' : closed (<[length h := dict_set key (DictRef (length (h ++ new)))
                                            result_dict']> (h ++ new ++ new1))).
      { apply closed_insert; [exact Hc1|].
        apply ref_below_dict_set; [exact (closed_lookup _ _ _ Hc1 Hrd')|].
        cbn. rewrite !length_app. destruct new1; [contradiction | cbn; lia]. }
      pose proof (eq_ind _ closed Hc' _ Heq) as Hc''.
      destruct (IHits Hrefs Hdeep new' Hne' Hc'') as (hc' & Hrun & Hcl).
      exists hc'. split; [|exact Hcl].
      etrans; [|exact Hrun]. f_equal. exact Heq. }
  destruct (Hloop items Hrefs Hdeep [base_dict] ltac:(discriminate) Hstart)
    as (hc' & -> & Hc').
  exists hc'. split; [reflexivity | exact Hc'].
Qed.

End DeepMergeFacts.

(** X28 (simple.py, _deep_merge and config): the merge changes no dictionary
    that exists when it is called, it only makes new ones, the first of
    which it returns. So the dictionary [config] hands to the validation
    after the call, whose result it drops, reads as before the call, and so
    does every dictionary it refers to: the custom configuration is not in
    it. *)
Theorem config_drops_custom_config {A : Type} (fuel : nat)
    (config_dict custom_config : nat) (h : heap (A:=A))
    (validated : nat) (h' : heap (A:=A)) :
  merged_config fuel config_dict custom_config h = Ok (validated, h') ->
  validated = config_dict
  /\ (forall p d, h !! p = Some d -> h' !! p = Some d)
  /\ exists merged new,
       _deep_merge fuel config_dict custom_config h = Ok (merged, h ++ new)
       /\ merged = length h /\ h' = h ++ new /\ new <> [].
Proof.
  unfold merged_config. intros Hrun.
  apply bind_Ok in Hrun as ([merged h1] & Hcall & Hrun).
  injection Hrun as <- <-.
  destruct (_deep_merge_extends _ _ _ _ _ _ Hcall) as (-> & new & -> & Hne).
  split; [reflexivity|]. split.
  - intros p d Hp. apply lookup_app_l_Some. exact Hp.
  - exists (length h), new. repeat split; [exact Hcall | exact Hne].
Qed.

Lemma config_drops_custom_config_witness :
  exists h' : heap (A:=Z),
    h' !! 1%nat = Some [("dpi", Atom 250%Z); ("max_long_edge", Atom 2400%Z)].
Proof.
  eexists.
  refine (proj1 (proj2
            (config_drops_custom_config 3 0 2
               [ [("render", DictRef 1); ("x", Atom 1%Z)];
                 [("dpi", Atom 250%Z); ("max_long_edge", Atom 2400%Z)];
                 [("render", DictRef 3); ("y", Atom 5%Z)];
                 [("dpi", Atom 100%Z)] ]
               0 _ _))
            1%nat [("dpi", Atom 250%Z); ("max_long_edge", Atom 2400%Z)] eq_refl).
  vm_compute. reflexivity.
Defined.

(** X29 (simple.py, _deep_merge): when every reference of the heap is to a
    dictionary of the heap and [override] nests dictionaries less than
    [fuel] deep, the merge of a dictionary of the heap returns, whatever
    the depth of [base]: no exception, and the recursion ends. The result
    is a new dictionary, and the heap stays closed. *)
Theorem _deep_merge_returns {A : Type} (fuel : nat) (base override : nat)
    (h : heap (A:=A)) :
  closed h -> (base < length h)%nat -> nests h fuel override ->
  exists h', _deep_merge fuel base override h = Ok (length h, h')
             /\ closed h' /\ (length h < length h')%nat.
Proof.
  intros Hc Hb Hn.
  destruct (_deep_merge_runs fuel base override h Hc Hb Hn) as (h' & Hrun & Hc').
  exists h'. split; [exact Hrun|]. split; [exact Hc'|].
  destruct (_deep_merge_extends _ _ _ _ _ _ Hrun) as (_ & new & -> & Hne).
  rewrite length_app. destruct new; [contradiction | cbn; lia].
Qed.

Lemma _deep_merge_returns_witness :
  exists h' : heap (A:=Z),
    _deep_merge 2 0 2
      [ [("render", DictRef 1); ("x", Atom 1%Z)];
        [("dpi", Atom 250%Z); ("max_long_edge", Atom 2400%Z)];
        [("render", DictRef 3); ("y", Atom 5%Z)];
        [("dpi", Atom 100%Z)] ]
    = Ok (4%nat, h').
Proof.
  destruct (_deep_merge_returns 2 0 2
              [ [("render", DictRef 1); ("x", Atom 1%Z)];
                [("dpi", Atom 250%Z); ("max_long_edge", Atom 2400%Z)];
                [("render", DictRef 3); ("y", Atom 5%Z)];
                [("dpi", Atom 100%Z)] ])
    as (h' & Hrun & _).
  - unfold closed. repeat constructor.
  - cbn. lia.
  - cbn. eexists. split; [reflexivity|].
    repeat constructor. cbn. eexists. split; [reflexivity|]. repeat constructor.
  - exists h'. exact Hrun.
Defined.

Section HyphenationFacts.
Local Open Scope nat_scope.

Lemma take_drop_str (n : nat) (s : string) : take_str n s +:+ drop_str n s = s.
Proof.
  revert s. induction n as [|n IH]; intros [|c s]; try reflexivity.
  cbn [take_str drop_str]. change (String c (take_str n s +:+ drop_str n s) = String c s).
  rewrite IH. reflexivity.
Qed.

Lemma len_str_app (a b : string) : len (a +:+ b) = len a + len b.
Proof.
  induction a as [|c a IH]; [reflexivity|].
  change (S (len (a +:+ b)) = S (len a + len b)). rewrite IH. reflexivity.
Qed.

Lemma filter_chars_app (p : ascii -> bool) (a b : string) :
  filter_chars p (a +:+ b) = filter_chars p a +:+ filter_chars p b.
Proof.
  induction a as [|c a IH]; [reflexivity|].
  change (filter_chars p (String c (a +:+ b))
          = filter_chars p (String c a) +:+ filter_chars p b).
  cbn [filter_chars]. destruct (p c); rewrite IH; reflexivity.
Qed.

Lemma len_filter_chars (p : ascii -> bool) (s : string) :
  len (filter_chars p s) <= len s.
Proof.
  induction s as [|c s IH]; [reflexivity|]. cbn [filter_chars].
  destruct (p c); change (len (String c s)) with (S (len s));
    [change (len (String c (filter_chars p s))) with (S (len (filter_chars p s)))|]; lia.
Qed.

Lemma contains_char_app (c : ascii) (a b : string) :
  contains_char c (a +:+ b) = contains_char c a || contains_char c b.
Proof.
  induction a as [|x a IH]; [reflexivity|].
  change (contains_char c (String x (a +:+ b))
          = contains_char c (String x a) || contains_char c b).
  cbn [contains_char]. rewrite IH, orb_assoc. reflexivity.
Qed.

Lemma take_leading_all (p : ascii -> bool) (s : string) :
  all_chars p (take_str (count_leading p s) s) = true.
Proof.
  induction s as [|c s IH]; [reflexivity|]. cbn [count_leading].
  destruct (p c) eqn:E; [|reflexivity]. cbn [take_str all_chars].
  rewrite E, IH. reflexivity.
Qed.

Lemma filter_breaks (b : string) :
  all_chars is_break b = true -> filter_chars is_kept b = EmptyString.
Proof.
  induction b as [|c b IH]; [reflexivity|]. cbn [all_chars filter_chars].
  intros H. apply andb_prop in H as [Hc Hb]. unfold is_kept at 1.
  rewrite Hc, orb_true_r. cbn [negb]. exact (IH Hb).
Qed.

(** What a match is made of. *)
Lemma match_at_shape (s : string) (m : Match) :
  match_at s = Some m ->
  exists c first breaks rest,
    s = group0 m +:+ rest
    /\ group0 m = group1 m +:+ String hyphen breaks +:+ group2 m
    /\ group1 m = String c first /\ is_az c = true
    /\ all_chars is_break breaks = true.
Proof.
  destruct s as [|c s1]; [discriminate|]. cbn [match_at].
  destruct (is_az c) eqn:Ec; [|discriminate].
  cbv zeta.
  destruct (drop_str (count_leading is_word s1) s1) as [|h r2] eqn:Er1; [discriminate|].
  destruct (Ascii.eqb h hyphen) eqn:Eh; [|discriminate].
  apply Ascii.eqb_eq in Eh. subst h.
  destruct (count_leading is_break r2 =? 0); [discriminate|].
  destruct (count_leading is_word (drop_str (count_leading is_break r2) r2) =? 0);
    [discriminate|].
  intros E. injection E as <-. cbn [group0 group1 group2].
  exists c, (take_str (count_leading is_word s1) s1),
    (take_str (count_leading is_break r2) r2),
    (drop_str (count_leading is_word (drop_str (count_leading is_break r2) r2))
       (drop_str (count_leading is_break r2) r2)).
  split; [|split; [reflexivity|split; [reflexivity|split; [exact Ec|]]]].
  - rewrite <- (take_drop_str (count_leading is_word s1) s1) at 1. rewrite Er1.
    rewrite <- (take_drop_str (count_leading is_break r2) r2) at 1.
    rewrite <- (take_drop_str
                  (count_leading is_word (drop_str (count_leading is_break r2) r2))
                  (drop_str (count_leading is_break r2) r2)) at 1.
    change (String c (take_str (count_leading is_word s1) s1))
      with (String c EmptyString +:+ take_str (count_leading is_word s1) s1).
    change (String hyphen ?x) with (String hyphen EmptyString +:+ x).
    rewrite !str_app_assoc. reflexivity.
  - apply take_leading_all.
Qed.

Lemma re_sub_skip (repl : Match -> string) (pre rest : string) :
  re_sub repl (len pre) (pre +:+ rest) = re_sub repl 0 rest.
Proof.
  induction pre as [|c pre IH]; [destruct rest; reflexivity|].
  change (re_sub repl (S (len pre)) (String c (pre +:+ rest)) = re_sub repl 0 rest).
  cbn [re_sub]. exact IH.
Qed.

Lemma re_sub_match (repl : Match -> string) (m : Match) (rest : string) :
  match_at (group0 m +:+ rest) = Some m ->
  re_sub repl 0 (group0 m +:+ rest) = repl m +:+ re_sub repl 0 rest.
Proof.
  intros Hm. destruct (match_at_shape _ _ Hm) as (c & first & breaks & _ & _ & Hg & Hf & _).
  destruct (group0 m) as [|x g] eqn:Eg.
  { rewrite Hf in Hg. discriminate Hg. }
  change (String x g +:+ rest) with (String x (g +:+ rest)) in *.
  cbn [re_sub]. rewrite Hm, Eg.
  change (len (String x g) - 1) with (len g - 0). rewrite Nat.sub_0_r.
  rewrite re_sub_skip. reflexivity.
Qed.

(** The search, match by match. *)
Lemma re_sub_cases (P : string -> Prop) :
  P EmptyString ->
  (forall c s, match_at (String c s) = None -> P s -> P (String c s)) ->
  (forall m rest, match_at (group0 m +:+ rest) = Some m -> P rest ->
                  P (group0 m +:+ rest)) ->
  forall s, P s.
Proof.
  intros Hnil Hnone Hsome s.
  assert (H : forall n s, len s <= n -> P s).
  { clear s. induction n as [|n IH]; intros s Hlen.
    - destruct s; [exact Hnil | cbn in Hlen; lia].
    - destruct s as [|c s]; [exact Hnil|].
      change (len (String c s)) with (S (len s)) in Hlen.
      destruct (match_at (String c s)) as [m|] eqn:Hm.
      + destruct (match_at_shape _ _ Hm) as (c' & first & breaks & rest & Hs & Hg & Hf & _).
        rewrite Hs in Hm |- *. apply Hsome; [exact Hm|]. apply IH.
        apply (f_equal len) in Hs. rewrite len_str_app in Hs.
        change (len (String c s)) with (S (len s)) in Hs.
        rewrite Hg, Hf in Hs.
        change (len (String c' first +:+ String hyphen breaks +:+ group2 m))
          with (S (len (first +:+ String hyphen breaks +:+ group2 m))) in Hs.
        lia.
      + apply Hnone; [exact Hm|]. apply IH. lia. }
  apply (H (len s)). lia.
Qed.

Lemma isupper_lower_first (c : ascii) (s : string) :
  is_az c = true -> isupper (String c s) = false.
Proof.
  intros Hc. unfold isupper. cbn [any_char].
  unfold islower_char at 1. cbv zeta. unfold is_az in Hc. rewrite Hc. reflexivity.
Qed.

Lemma merge_match_merges (s : string) (m : Match) :
  match_at s = Some m -> merge_match m = group1 m +:+ group2 m.
Proof.
  intros Hm. destruct (match_at_shape _ _ Hm) as (c & first & _ & _ & _ & _ & Hf & Hc & _).
  unfold merge_match. cbv zeta. rewrite Hf, (isupper_lower_first c first Hc).
  reflexivity.
Qed.

Lemma re_sub_merge_match (s : string) :
  forall skip, re_sub merge_match skip s
               = re_sub (fun m => group1 m +:+ group2 m) skip s.
Proof.
  induction s as [|c s IH]; intros [|skip]; try reflexivity.
  - cbn [re_sub]. destruct (match_at (String c s)) as [m|] eqn:Hm.
    + rewrite (merge_match_merges _ _ Hm), IH. reflexivity.
    + rewrite IH. reflexivity.
  - cbn [re_sub]. apply IH.
Qed.

Lemma re_sub_merges_kept (s : string) :
  filter_chars is_kept (re_sub (fun m => group1 m +:+ group2 m) 0 s)
  = filter_chars is_kept s.
Proof.
  induction s as [|c s Hm IH|m rest Hm IH] using re_sub_cases; [reflexivity| |].
  - cbn [re_sub]. rewrite Hm. cbn [filter_chars]. rewrite IH. reflexivity.
  - rewrite (re_sub_match _ _ _ Hm).
    destruct (match_at_shape _ _ Hm) as (c & first & breaks & _ & _ & Hg & _ & _ & Hb).
    rewrite Hg. rewrite !filter_chars_app, IH.
    change (filter_chars is_kept (String hyphen breaks))
      with (filter_chars is_kept breaks).
    rewrite (filter_breaks _ Hb). reflexivity.
Qed.

Lemma re_sub_merges_len (s : string) :
  len (re_sub (fun m => group1 m +:+ group2 m) 0 s) <= len s.
Proof.
  induction s as [|c s Hm IH|m rest Hm IH] using re_sub_cases; [reflexivity| |].
  - cbn [re_sub]. rewrite Hm.
    change (S (len (re_sub (fun m => group1 m +:+ group2 m) 0 s)) <= S (len s)). lia.
  - rewrite (re_sub_match _ _ _ Hm).
    destruct (match_at_shape _ _ Hm) as (c & first & breaks & _ & _ & Hg & _).
    rewrite Hg. rewrite !len_str_app. lia.
Qed.

Lemma re_sub_no_hyphen (repl : Match -> string) (s : string) :
  contains_char hyphen s = false -> re_sub repl 0 s = s.
Proof.
  induction s as [|c s Hm IH|m rest Hm IH] using re_sub_cases; [reflexivity| |].
  - cbn [contains_char]. intros H. apply orb_false_elim in H as [_ H].
    cbn [re_sub]. rewrite Hm, (IH H). reflexivity.
  - destruct (match_at_shape _ _ Hm) as (c & first & breaks & _ & _ & Hg & _).
    rewrite Hg, !contains_char_app. cbn [contains_char].
    rewrite Ascii.eqb_refl, orb_true_r. cbn [orb]. discriminate.
Qed.

End HyphenationFacts.

(** X30 (core/utils.py, repair_hyphenation): the branch of [merge_match]
    that keeps the hyphen is never taken, because group 1 starts with a
    letter of [a-z] and so is never upper case: every match is replaced by
    its two groups. The result is the text without some hyphens and line
    breaks: all other characters are kept, in order, and the text gets no
    longer. A text without a hyphen is returned as it is. *)
Theorem repair_hyphenation_drops_breaks_only (text : string) :
  repair_hyphenation text = re_sub (fun m => group1 m +:+ group2 m) O text
  /\ filter_chars is_kept (repair_hyphenation text) = filter_chars is_kept text
  /\ (len (repair_hyphenation text) <= len text)%nat
  /\ (contains_char hyphen text = false -> repair_hyphenation text = text).
Proof.
  unfold repair_hyphenation. rewrite re_sub_merge_match.
  split; [reflexivity|]. split; [apply re_sub_merges_kept|].
  split; [apply re_sub_merges_len | apply re_sub_no_hyphen].
Qed.

Lemma repair_hyphenation_drops_breaks_only_witness :
  repair_hyphenation "text first" = "text first".
Proof.
  apply (proj2 (proj2 (proj2 (repair_hyphenation_drops_breaks_only "text first")))).
  reflexivity.
Defined.
